(** * bfin / bfvm: a brainfuck interpreter over a chunked, growable tape

    Shallow embedding of [src/bfin.c] and [src/bfvm.c].

    - A [memchunk] lives in a heap, a list of chunks in allocation order; a
      pointer to a chunk is its index in that list, [NULL] is [None].
    - [char] cells are kept in their unsigned 8-bit representation, a [Z] in
      [0, 256); [++] and [--] on a cell wrap modulo 256.
    - The data pointer [data] is kept as the offset [data - page->mem].
    - A position in the instruction string ([char *c]) is an index into the
      list of characters; reading at or past the end of the list, or at a
      NUL character, is reading the terminator.
    - The loop of [execute] is a step function iterated under a fuel
      bound: brainfuck programs need not terminate. *)

From Stdlib Require Import ZArith Ascii String Lia.
From stdpp Require Import base tactics option list.

Local Open Scope Z_scope.

(** ** Machine integers *)

(** Conversion of an [int] to a [char] cell (unsigned view). *)
Definition byte_wrap (z : Z) : Z := z mod 256.

(** Arithmetic on [int count] in [match_right], two's complement. *)
Definition int_wrap (z : Z) : Z := (z + 2 ^ 31) mod 2 ^ 32 - 2 ^ 31.

Definition INT_MAX : Z := 2 ^ 31 - 1.

(** [EOF] as returned by [getchar]. *)
Definition EOF : Z := -1.

(** ** Instruction strings *)

Definition NUL : ascii := Ascii.zero.

(** [*c] for [c = line + i]. *)
Definition char_at (line : list ascii) (i : nat) : ascii := nth i line NUL.

(** Length of the C string held in [line]: the characters before the first
    NUL. *)
Fixpoint strlen (line : list ascii) : nat :=
  match line with
  | [] => O
  | ch :: rest => if Ascii.eqb ch NUL then O else S (strlen rest)
  end.

(** The case labels of the [switch] on the current character in [execute]. *)
Inductive instr : Set :=
| IRight | ILeft | IInc | IDec | IOut | IIn | IOpen | IClose | IOther.

Definition decode (ch : ascii) : instr :=
  if Ascii.eqb ch ">" then IRight
  else if Ascii.eqb ch "<" then ILeft
  else if Ascii.eqb ch "+" then IInc
  else if Ascii.eqb ch "-" then IDec
  else if Ascii.eqb ch "." then IOut
  else if Ascii.eqb ch "," then IIn
  else if Ascii.eqb ch "[" then IOpen
  else if Ascii.eqb ch "]" then IClose
  else IOther.

(** [match_right]: the loop [for (c = line + 1; *c != '\0'; ++c)], run over
    the characters from [c] on, with [int count]. *)
Fixpoint scan_right (rest : list ascii) (c : nat) (count : Z) : option nat :=
  match rest with
  | [] => None
  | ch :: rest' =>
      if Ascii.eqb ch NUL then None
      else if Ascii.eqb ch "[" then scan_right rest' (S c) (int_wrap (count + 1))
      else if Ascii.eqb ch "]" then
        if negb (count =? 0) then scan_right rest' (S c) (int_wrap (count - 1))
        else Some c
      else scan_right rest' (S c) count
  end.

(** [match_right(line + c)], as an index into [line]; [None] is [NULL]. *)
Definition match_right (line : list ascii) (c : nat) : option nat :=
  scan_right (drop (S c) line) (S c) 0.

(** The position of the terminator met by a scan that starts just after
    position [c]. *)
Definition terminator (line : list ascii) (c : nat) : nat :=
  (S c + strlen (drop (S c) line))%nat.

(** The nesting counter kept while scanning: up at a left bracket, down at a
    right bracket seen at a non-zero count, unchanged otherwise. *)
Definition bump (count : nat) (ch : ascii) : nat :=
  if Ascii.eqb ch "[" then S count
  else if Ascii.eqb ch "]" then Nat.pred count
  else count.

(** The counter after the first [j] characters of [rest], started at
    [count]. *)
Definition depth_from (count : nat) (rest : list ascii) (j : nat) : nat :=
  fold_left bump (take j rest) count.

(** The value of the nesting counter when a scan started just after
    position [c] (at count 0) arrives at position [i]. *)
Definition nesting (line : list ascii) (c i : nat) : nat :=
  depth_from O (drop (S c) line) (i - S c).

(** What a scan of [rest] from position [c0] and count [count] has to
    answer: the first right bracket it sees at count zero before the
    terminator, or that there is none. *)
Definition scan_post (rest : list ascii) (c0 count : nat) (res : option nat)
  : Prop :=
  match res with
  | Some r =>
      ∃ j, r = (c0 + j)%nat ∧ (j < strlen rest)%nat ∧
           nth j rest NUL = "]"%char ∧ depth_from count rest j = O ∧
           ∀ i, (i < j)%nat →
                ¬ (nth i rest NUL = "]"%char ∧ depth_from count rest i = O)
  | None =>
      ∀ i, (i < strlen rest)%nat →
           ¬ (nth i rest NUL = "]"%char ∧ depth_from count rest i = O)
  end.

(** Position [i] holds a right bracket seen at count zero by the scan
    started just after [c]. *)
Definition closes_at (line : list ascii) (c i : nat) : Prop :=
  char_at line i = "]"%char ∧ nesting line c i = O.

(** A character of the string that is not a bracket. *)
Definition plain (ch : ascii) : Prop :=
  ch ≠ NUL ∧ decode ch ≠ IOpen ∧ decode ch ≠ IClose.

(** Net number of increments in a string of [+] and [-]. *)
Fixpoint net (line : list ascii) : Z :=
  match line with
  | [] => 0
  | ch :: rest =>
      (if Ascii.eqb ch "+" then 1 else if Ascii.eqb ch "-" then -1 else 0)
      + net rest
  end.

Definition plus_or_minus (ch : ascii) : Prop :=
  ch = "+"%char ∨ ch = "-"%char.

Definition left_or_right (ch : ascii) : Prop :=
  ch = ">"%char ∨ ch = "<"%char.

(** ** The tape *)

(** [struct memchunk_t]. *)
Record memchunk : Type := MemChunk {
  next : option nat;
  prev : option nat;
  mem : list Z
}.

(** The process-wide state ([page], [data]), the heap of chunks they point
    into, and the two standard streams. [stdout] lists the bytes written so
    far, oldest first. *)
Record world : Type := World {
  heap : list memchunk;
  page : nat;
  data : Z;
  stdin : list Z;
  stdout : list Z
}.

Definition set_next (q : option nat) (ch : memchunk) : memchunk :=
  MemChunk q (prev ch) (mem ch).
Definition set_prev (q : option nat) (ch : memchunk) : memchunk :=
  MemChunk (next ch) q (mem ch).
Definition set_mem (f : list Z → list Z) (ch : memchunk) : memchunk :=
  MemChunk (next ch) (prev ch) (f (mem ch)).

(** [mem[o]] for a block [m]. *)
Definition block_at (m : list Z) (o : Z) : option Z :=
  if o <? 0 then None else m !! Z.to_nat o.

(** The byte at offset [o] of chunk [p]. *)
Definition byte_at (h : list memchunk) (p : nat) (o : Z) : option Z :=
  ch ← h !! p; block_at (mem ch) o.

(** [*data]. *)
Definition cell (w : world) : option Z := byte_at (heap w) (page w) (data w).

(** [*data = v], for a valid [data]. *)
Definition poke (v : Z) (w : world) : world :=
  World (alter (set_mem (<[Z.to_nat (data w) := v]>)) (page w) (heap w))
        (page w) (data w) (stdin w) (stdout w).

Definition store (v : Z) (w : world) : option world :=
  _ ← cell w; Some (poke v w).

(** [getchar()]: the next byte of the input, [EOF] once it is exhausted. *)
Definition getchar (w : world) : Z * world :=
  match stdin w with
  | [] => (EOF, w)
  | b :: rest => (b, World (heap w) (page w) (data w) rest (stdout w))
  end.

(** [putchar(v)]. *)
Definition putchar (v : Z) (w : world) : world :=
  World (heap w) (page w) (data w) (stdin w) (stdout w ++ [byte_wrap v]).

Section Engine.

(** The length of a chunk's block, fixed at start-up. *)
Variable chunklen : Z.

(** What the allocator hands out: [fill k i] is byte [i] of the block of
    the [k]-th chunk allocated. [calloc] is the constant 0; for [malloc]
    the contents are indeterminate. *)
Variable fill : nat → nat → Z.

Definition block (k : nat) : list Z :=
  map (fill k) (seq 0 (Z.to_nat chunklen)).

(** [alloc_memchunk] (bfin) / [init_memchunk] (bfvm): the heap with the new
    chunk, and its address. *)
Definition alloc_memchunk (h : list memchunk) : list memchunk * nat :=
  (h ++ [MemChunk None None (block (length h))], length h).

Definition overflow_left (h : list memchunk) (chunk : nat)
  : list memchunk * nat :=
  let '(h1, new) := alloc_memchunk h in
  (alter (set_next (Some chunk)) new (alter (set_prev (Some new)) chunk h1),
   new).

Definition overflow_right (h : list memchunk) (chunk : nat)
  : list memchunk * nat :=
  let '(h1, new) := alloc_memchunk h in
  (alter (set_prev (Some chunk)) new (alter (set_next (Some new)) chunk h1),
   new).

(** [case '>'] *)
Definition advance (w : world) : option world :=
  let d := data w + 1 in
  if chunklen <=? d then
    ch ← heap w !! page w;
    match next ch with
    | None =>
        let '(h, new) := overflow_right (heap w) (page w) in
        Some (World h new 0 (stdin w) (stdout w))
    | Some q => Some (World (heap w) q 0 (stdin w) (stdout w))
    end
  else Some (World (heap w) (page w) d (stdin w) (stdout w)).

(** [case '<'] *)
Definition retreat (w : world) : option world :=
  let d := data w - 1 in
  if d <? 0 then
    ch ← heap w !! page w;
    match prev ch with
    | None =>
        let '(h, new) := overflow_left (heap w) (page w) in
        Some (World h new (chunklen - 1) (stdin w) (stdout w))
    | Some q => Some (World (heap w) q (chunklen - 1) (stdin w) (stdout w))
    end
  else Some (World (heap w) (page w) d (stdin w) (stdout w)).

(** [case '+'] and [case '-'] *)
Definition increment (w : world) : option world :=
  v ← cell w; Some (poke (byte_wrap (v + 1)) w).
Definition decrement (w : world) : option world :=
  v ← cell w; Some (poke (byte_wrap (v - 1)) w).

(** [case '.'] *)
Definition output (w : world) : option world :=
  v ← cell w; Some (putchar v w).

(** [case ','] *)
Definition input (w : world) : option world :=
  let '(b, w') := getchar w in store (byte_wrap b) w'.

(** ** The execution loop *)

Inductive error : Set :=
| NoMatchingRight   (* '[' with no matching ']' *)
| NoMatchingLeft.   (* ']' with no matching '[' *)

(** How a call of [execute] ends: it returns normally, it prints a
    diagnostic and returns, or the process dies in it (a failed [assert]
    in bfin, a dereference of an invalid pointer in either program). *)
Inductive outcome : Type :=
| Returned (w : world)
| Reported (e : error) (w : world)
| Crashed (w : world).

Inductive trans : Type :=
| Next (w : world) (c : nat) (stack : list nat)
| Stop (o : outcome).

Definition lift (c : nat) (stack : list nat) (w : world) (r : option world)
  : trans :=
  match r with
  | Some w' => Next w' c stack
  | None => Stop (Crashed w)
  end.

(** One turn of [for (c = line; *c != '\0'; ++c) switch ...]. The
    jump stack is the list of the [leftbracket] fields, top first. *)
Definition step (line : list ascii) (w : world) (c : nat) (stack : list nat)
  : trans :=
  let ch := char_at line c in
  if Ascii.eqb ch NUL then Stop (Returned w)
  else
    match decode ch with
    | IRight => lift (S c) stack w (advance w)
    | ILeft => lift (S c) stack w (retreat w)
    | IInc => lift (S c) stack w (increment w)
    | IDec => lift (S c) stack w (decrement w)
    | IOut => lift (S c) stack w (output w)
    | IIn => lift (S c) stack w (input w)
    | IOpen =>
        let right := match_right line c in
        match cell w with
        | None => Stop (Crashed w)
        | Some v =>
            if v =? 0 then
              match right with
              | None => Stop (Reported NoMatchingRight w)
              | Some r => Next w (S r) stack
              end
            else
              match right with
              | Some _ => Next w (S c) (c :: stack)
              | None => Next w (S c) stack
              end
        end
    | IClose =>
        match cell w with
        | None => Stop (Crashed w)
        | Some v =>
            if negb (v =? 0) then
              match stack with
              | [] => Stop (Reported NoMatchingLeft w)
              | l :: _ => Next w (S l) stack
              end
            else
              match stack with
              | [] => Stop (Crashed w)      (* pop_jump(NULL) *)
              | _ :: s => Next w (S c) s
              end
        end
    | IOther => Next w (S c) stack
    end.

Fixpoint run (fuel : nat) (line : list ascii) (w : world) (c : nat)
  (stack : list nat) : option outcome :=
  match fuel with
  | O => None
  | S k =>
      match step line w c stack with
      | Next w' c' stack' => run k line w' c' stack'
      | Stop o => Some o
      end
  end.

(** [execute(line)]; [line = None] is the NULL pointer. [None] as a result
    means the fuel ran out. *)
Definition execute (fuel : nat) (line : option (list ascii)) (w : world)
  : option outcome :=
  match line with
  | None => Some (Returned w)
  | Some l => run fuel l w 0%nat []
  end.

(** The positions of the instructions the loop runs to completion, in
    order, over its first [fuel] turns. *)
Fixpoint visited (fuel : nat) (line : list ascii) (w : world) (c : nat)
  (stack : list nat) : list nat :=
  match fuel with
  | O => []
  | S k =>
      match step line w c stack with
      | Next w' c' stack' => c :: visited k line w' c' stack'
      | Stop _ => []
      end
  end.

(** The state [execute] leaves behind. *)
Definition outcome_world (o : outcome) : world :=
  match o with
  | Returned w | Reported _ w | Crashed w => w
  end.

(** The loop after its first [n] turns: where it stands, or how it ended. *)
Fixpoint turns (n : nat) (line : list ascii) (w : world) (c : nat)
  (stack : list nat) : trans :=
  match n with
  | O => Next w c stack
  | S k =>
      match step line w c stack with
      | Next w' c' stack' => turns k line w' c' stack'
      | Stop o => Stop o
      end
  end.

(** What an instruction other than a bracket does to the tape and the
    streams. *)
Definition effect (i : instr) (w : world) : option world :=
  match i with
  | IRight => advance w
  | ILeft => retreat w
  | IInc => increment w
  | IDec => decrement w
  | IOut => output w
  | IIn => input w
  | IOpen | IClose | IOther => Some w
  end.

Fixpoint effects (line : list ascii) (w : world) : option world :=
  match line with
  | [] => Some w
  | ch :: rest => w' ← effect (decode ch) w; effects rest w'
  end.

(** The state set up before the first call of [execute]: one chunk, the
    data pointer in its middle. *)
Definition init_world (input : list Z) : world :=
  let '(h, p) := alloc_memchunk [] in
  World h p (Z.quot chunklen 2) input [].

(** ** Well-formed tapes *)

(** The chunks form a doubly linked list: every block has [chunklen] bytes,
    and [next] and [prev] point at chunks of the heap and are inverse to
    each other. *)
Record wf_heap (h : list memchunk) : Prop := WfHeap {
  wf_mem : ∀ p ch, h !! p = Some ch → length (mem ch) = Z.to_nat chunklen;
  wf_next : ∀ p ch q, h !! p = Some ch → next ch = Some q →
            ∃ ch', h !! q = Some ch' ∧ prev ch' = Some p;
  wf_prev : ∀ p ch q, h !! p = Some ch → prev ch = Some q →
            ∃ ch', h !! q = Some ch' ∧ next ch' = Some p
}.

(** The state [execute] expects: [page] is a chunk of the heap and the
    offset of [data] in it is within the block. *)
Record wf (w : world) : Prop := Wf {
  wf_page : is_Some (heap w !! page w);
  wf_data : 0 <= data w < chunklen;
  wf_chunks : wf_heap (heap w)
}.

(** [grows h h']: every chunk of [h] is a chunk of [h'] with the same bytes,
    and the links it had are kept. *)
Definition grows (h h' : list memchunk) : Prop :=
  ∀ p ch, h !! p = Some ch →
    ∃ ch', h' !! p = Some ch' ∧ mem ch' = mem ch ∧
           (∀ q, next ch = Some q → next ch' = Some q) ∧
           (∀ q, prev ch = Some q → prev ch' = Some q).

End Engine.

(** The allocator of [calloc]: every byte of every block is 0. *)
Definition zeroed : nat → nat → Z := λ _ _, 0.

(** [chunklen] as computed at start-up from the page size: [margin] is 32 in
  bfin and 8 in bfvm. *)
Definition chunklen_of (margin pagesize : Z) : Z :=
let len := pagesize - margin in
if len <? 0 then len + margin else len.

Definition prog (s : string) : list ascii := list_ascii_of_string s.

(** The two programs. They share the text of [execute] and differ in the
  margin, in the text of the diagnostics and in how a chunk's block is
  obtained: [malloc] in bfin, [calloc] in bfvm. *)
Module Bfin.
Definition chunklen (pagesize : Z) : Z := chunklen_of 32 pagesize.
Definition init_bfin (pagesize : Z) (junk : nat → nat → Z) (input : list Z)
  : world := init_world (chunklen pagesize) junk input.
Definition execute (pagesize : Z) (junk : nat → nat → Z) :=
  execute (chunklen pagesize) junk.
Definition diagnostic (e : error) : string :=
  match e with
  | NoMatchingRight => "Input Error: '[' with no matching ']'"
  | NoMatchingLeft => "Input Error: ']' with no matching '['"
  end.
End Bfin.

Module Bfvm.
Definition chunklen (pagesize : Z) : Z := chunklen_of 8 pagesize.
Definition init (pagesize : Z) (input : list Z) : world :=
  init_world (chunklen pagesize) zeroed input.
Definition execute (pagesize : Z) := execute (chunklen pagesize) zeroed.
Definition diagnostic (e : error) : string :=
  match e with
  | NoMatchingRight => "Error: '[' with no matching ']'"
  | NoMatchingLeft => "Error: ']' with no matching '['"
  end.
End Bfvm.

(** ** Concrete inputs *)

(** An allocator whose first block happens to come back zeroed and whose
    later blocks still hold the byte 7 of an earlier use. *)
Definition stale (k i : nat) : Z :=
  match k with
  | O => 0
  | S _ => 7
  end.

(** With 4096-byte pages bfin has chunks of 4064 bytes and starts at offset
    2032: after 2032 moves to the right the cursor is on the first byte of
    a chunk allocated on the way; the last instruction prints it. *)
Definition walk_right_and_print : list ascii :=
  repeat ">"%char 2032 ++ ["."%char].

(** After 2044 moves to the right both programs, started on 4096-byte
    pages, stand in a chunk allocated on the way: bfvm (chunks of 4088
    bytes, start at offset 2044) on its first byte, bfin on its byte 12. *)
Definition cross_and_print : list ascii :=
  repeat ">"%char 2044 ++ ["."%char].

(** What a call has written to the output, if it ended. *)
Definition printed (r : option outcome) : option (list Z) :=
  o ← r; Some (stdout (outcome_world o)).

(** ** The turns of the loop, case by case *)

Section Cases.

Variable chunklen : Z.
Variable fill : nat → nat → Z.

(** A turn of the loop that does not end the call: an instruction that is
    no bracket; a '[' on a zero cell, which skips to its match; a '[' on a
    non-zero cell, pushed when it has a match and passed over otherwise; a
    ']' on a non-zero cell, which goes back to the top of the jump stack;
    a ']' on a zero cell, which pops it. *)
Inductive turn (line : list ascii) (w : world) (c : nat) (stack : list nat)
  : world → nat → list nat → Prop :=
| turn_plain w' :
    decode (char_at line c) ≠ IOpen → decode (char_at line c) ≠ IClose →
    effect chunklen fill (decode (char_at line c)) w = Some w' →
    turn line w c stack w' (S c) stack
| turn_skip r :
    char_at line c = "["%char → cell w = Some 0 →
    match_right line c = Some r →
    turn line w c stack w (S r) stack
| turn_enter v r :
    char_at line c = "["%char → cell w = Some v → v ≠ 0 →
    match_right line c = Some r →
    turn line w c stack w (S c) (c :: stack)
| turn_stray v :
    char_at line c = "["%char → cell w = Some v → v ≠ 0 →
    match_right line c = None →
    turn line w c stack w (S c) stack
| turn_again v l s :
    char_at line c = "]"%char → cell w = Some v → v ≠ 0 →
    stack = l :: s →
    turn line w c stack w (S l) stack
| turn_leave l s :
    char_at line c = "]"%char → cell w = Some 0 →
    stack = l :: s →
    turn line w c stack w (S c) s.

(** The call on [line] from [w] ends, with outcome [o]. *)
Definition ends (line : list ascii) (w : world) (o : outcome) : Prop :=
  ∃ fuel, execute chunklen fill fuel (Some line) w = Some o.

End Cases.

(** The jump stack below the instruction pointer [c]: every entry is the
    position of a '[' that has a match, and the entries decrease from the
    top, which is before [c]. *)
Fixpoint stack_ok (line : list ascii) (c : nat) (stack : list nat) : Prop :=
  match stack with
  | [] => True
  | l :: s =>
      (l < c)%nat ∧ char_at line l = "["%char ∧
      is_Some (match_right line l) ∧ stack_ok line l s
  end.


(** ** Counting brackets *)

(** A left bracket counts 1, a right bracket -1, anything else 0. *)
Definition weight (ch : ascii) : Z :=
  if Ascii.eqb ch "[" then 1 else if Ascii.eqb ch "]" then -1 else 0.

(** Left brackets minus right brackets. *)
Fixpoint balance (l : list ascii) : Z :=
  match l with
  | [] => 0
  | ch :: rest => weight ch + balance rest
  end.

(** The characters of [line] at the positions [a], ..., [b - 1]. *)
Definition seg (line : list ascii) (a b : nat) : list ascii :=
  take (b - a) (drop a line).

(** The jump stack as the chain of the loops around the instruction
    pointer [c]: the top entry [l] is a '[' whose match is at or after [c],
    with as many '[' as ']' between it and [c]; each lower entry stands to
    the one above it as that one stands to [c]. [base] is what is asked of
    the position below the last entry. *)
Fixpoint chain (base : nat → Prop) (line : list ascii) (c : nat)
  (stack : list nat) : Prop :=
  match stack with
  | [] => base c
  | l :: s =>
      (∃ r, match_right line l = Some r ∧ (l < c ≤ r)%nat) ∧
      balance (seg line (S l) c) = 0 ∧
      char_at line l = "["%char ∧
      chain base line l s
  end.

(** Every ']' of the string closes an earlier '[' and every '[' is closed. *)
Definition well_bracketed (line : list ascii) : Prop :=
  (∀ i, (i < strlen line)%nat → char_at line i = "]"%char →
        0 < balance (seg line 0 i)) ∧
  balance (seg line 0 (strlen line)) = 0.


(** ** What a call may change of the heap *)

(** [h'] has every chunk of [h] at its address, with a block of the same
    length and with the neighbours it had in [h]. *)
Definition extends (h h' : list memchunk) : Prop :=
  ∀ p ch, h !! p = Some ch →
    ∃ ch', h' !! p = Some ch' ∧ length (mem ch') = length (mem ch) ∧
           (∀ q, next ch = Some q → next ch' = Some q) ∧
           (∀ q, prev ch = Some q → prev ch' = Some q).


(** ** Comments *)

(** The characters the [switch] has a case for. *)
Definition instruction (ch : ascii) : bool :=
  match decode ch with
  | IOther => false
  | _ => true
  end.

Fixpoint keep (l : list ascii) : list ascii :=
  match l with
  | [] => []
  | ch :: rest => if instruction ch then ch :: keep rest else keep rest
  end.

(** The C string held in [line] with every character that is no
    instruction removed. *)
Definition strip (line : list ascii) : list ascii :=
  keep (take (strlen line) line).

(** Where position [c] of [l] lands in [keep l]. *)
Definition kept_before (l : list ascii) (c : nat) : nat :=
  length (keep (take c l)).


(** A turn with its positions renamed by [f]. *)
Definition move_trans (f : nat → nat) (t : trans) : trans :=
  match t with
  | Next w c stack => Next w (f c) (f <$> stack)
  | Stop o => Stop o
  end.


(** ** Structured programs *)

(** A program with its loops made explicit: nothing; an instruction that
    is no bracket, then the rest; a loop with its body, then the rest. *)
Inductive ast : Type :=
| AEnd
| AOp (ch : ascii) (rest : ast)
| ALoop (body : ast) (rest : ast).

(** The string a structured program is written as. *)
Fixpoint unparse (p : ast) : list ascii :=
  match p with
  | AEnd => []
  | AOp ch rest => ch :: unparse rest
  | ALoop body rest =>
      "["%char :: unparse body ++ "]"%char :: unparse rest
  end.

(** The instructions of a structured program are no brackets and no NUL. *)
Fixpoint proper (p : ast) : Prop :=
  match p with
  | AEnd => True
  | AOp ch rest => plain ch ∧ proper rest
  | ALoop body rest => proper body ∧ proper rest
  end.

(** A boolean check of [well_bracketed], for a string scanned at [depth]. *)
Fixpoint nested_ok (l : list ascii) (depth : Z) : bool :=
  match l with
  | [] => depth =? 0
  | ch :: rest =>
      if Ascii.eqb ch NUL then depth =? 0
      else if Ascii.eqb ch "]" then (0 <? depth) && nested_ok rest (depth - 1)
      else nested_ok rest (depth + weight ch)
  end.

(** One structured program after another. *)
Fixpoint aseq (p q : ast) : ast :=
  match p with
  | AEnd => q
  | AOp ch rest => AOp ch (aseq rest q)
  | ALoop body rest => ALoop body (aseq rest q)
  end.

Section Structured.

Variable chunklen : Z.
Variable fill : nat → nat → Z.

(** The meaning of a structured program: instructions in sequence, a loop
    run while the current cell is not zero. [None] when the fuel runs out
    or the tape is not well-formed. *)
Fixpoint sem (fuel : nat) (p : ast) (w : world) : option world :=
  match fuel with
  | O => None
  | S k =>
      match p with
      | AEnd => Some w
      | AOp ch rest =>
          w' ← effect chunklen fill (decode ch) w; sem k rest w'
      | ALoop body rest =>
          v ← cell w;
          if v =? 0 then sem k rest w
          else w' ← sem k body w; sem k (ALoop body rest) w'
      end
  end.

End Structured.


(** ** The tape as an unbounded row of cells *)

(** How a call ended, apart from the state it left. *)
Inductive ending : Set :=
| Normal
| Diagnosed (e : error)
| Died.

Definition ending_of (o : outcome) : ending :=
  match o with
  | Returned _ => Normal
  | Reported e _ => Diagnosed e
  | Crashed _ => Died
  end.

(** The machine the chunks are meant to implement: the loop of [execute]
    over a row of cells without ends, all of them 0 at the start. *)
Module Ideal.

(** The cells left of the cursor, nearest first; the cell under it; the
    cells right of it, nearest first. A cell beyond the end of a list
    holds 0. Then the input not read yet and the output so far. *)
Record tape : Type := Tape {
  lefts : list Z;
  cur : Z;
  rights : list Z;
  pending : list Z;
  written : list Z
}.

Definition init (input : list Z) : tape := Tape [] 0 [] input [].

Definition set_cur (v : Z) (t : tape) : tape :=
  Tape (lefts t) v (rights t) (pending t) (written t).

Definition advance (t : tape) : tape :=
  Tape (cur t :: lefts t) (hd 0 (rights t)) (tl (rights t))
       (pending t) (written t).

Definition retreat (t : tape) : tape :=
  Tape (tl (lefts t)) (hd 0 (lefts t)) (cur t :: rights t)
       (pending t) (written t).

Definition effect (i : instr) (t : tape) : tape :=
  match i with
  | IRight => advance t
  | ILeft => retreat t
  | IInc => set_cur (byte_wrap (cur t + 1)) t
  | IDec => set_cur (byte_wrap (cur t - 1)) t
  | IOut =>
      Tape (lefts t) (cur t) (rights t) (pending t)
           (written t ++ [byte_wrap (cur t)])
  | IIn =>
      match pending t with
      | [] => set_cur (byte_wrap EOF) t
      | b :: rest =>
          Tape (lefts t) (byte_wrap b) (rights t) rest (written t)
      end
  | IOpen | IClose | IOther => t
  end.

Inductive trans : Type :=
| Next (t : tape) (c : nat) (stack : list nat)
| Stop (e : ending) (t : tape).

(** The turn of the loop, with the brackets handled as [execute] does. *)
Definition step (line : list ascii) (t : tape) (c : nat) (stack : list nat)
  : trans :=
  let ch := char_at line c in
  if Ascii.eqb ch NUL then Stop Normal t
  else
    match decode ch with
    | IOpen =>
        if cur t =? 0 then
          match match_right line c with
          | None => Stop (Diagnosed NoMatchingRight) t
          | Some r => Next t (S r) stack
          end
        else
          match match_right line c with
          | Some _ => Next t (S c) (c :: stack)
          | None => Next t (S c) stack
          end
    | IClose =>
        if negb (cur t =? 0) then
          match stack with
          | [] => Stop (Diagnosed NoMatchingLeft) t
          | l :: _ => Next t (S l) stack
          end
        else
          match stack with
          | [] => Stop Died t
          | _ :: s => Next t (S c) s
          end
    | i => Next (effect i t) (S c) stack
    end.

Fixpoint run (fuel : nat) (line : list ascii) (t : tape) (c : nat)
  (stack : list nat) : option (ending * tape) :=
  match fuel with
  | O => None
  | S k =>
      match step line t c stack with
      | Next t' c' stack' => run k line t' c' stack'
      | Stop e t' => Some (e, t')
      end
  end.

Definition execute (fuel : nat) (line : list ascii) (t : tape)
  : option (ending * tape) :=
  run fuel line t 0%nat [].

End Ideal.

(** Two lists hold the same cells when read with 0 beyond their ends. *)
Definition same_cells (l l' : list Z) : Prop :=
  ∀ k, nth k l 0 = nth k l' 0.

(** The chunks met from [from] on by following [link], in order. *)
Inductive chunks_from (h : list memchunk) (link : memchunk → option nat)
  : option nat → list nat → Prop :=
| chunks_end : chunks_from h link None []
| chunks_more p ch ps :
    h !! p = Some ch → chunks_from h link (link ch) ps →
    chunks_from h link (Some p) (p :: ps).

(** The bytes of the chunks [ps], block after block, each block read
    through [f]. *)
Definition cells_of (h : list memchunk) (f : list Z → list Z)
  (ps : list nat) : list Z :=
  flat_map (λ p, match h !! p with
                 | Some ch => f (mem ch)
                 | None => []
                 end) ps.

(** The state [w] of the chunked tape holds the unbounded tape [t]: the
    chunks reached from the current one through [prev] and through [next]
    are all different; the bytes before [data] in the current block, read
    backwards, followed by the blocks of the chunks on the left, read
    backwards, are the cells left of the cursor; the bytes after [data],
    followed by the blocks of the chunks on the right, are the cells right
    of it; and the streams are the same. *)
Definition represents (chunklen : Z) (w : world) (t : Ideal.tape) : Prop :=
  wf chunklen w ∧
  ∃ ch ls rs,
    heap w !! page w = Some ch ∧
    chunks_from (heap w) prev (prev ch) ls ∧
    chunks_from (heap w) next (next ch) rs ∧
    NoDup (ls ++ page w :: rs) ∧
    same_cells (rev (take (Z.to_nat (data w)) (mem ch))
                ++ cells_of (heap w) (@rev Z) ls) (Ideal.lefts t) ∧
    mem ch !! Z.to_nat (data w) = Some (Ideal.cur t) ∧
    same_cells (drop (S (Z.to_nat (data w))) (mem ch)
                ++ cells_of (heap w) id rs) (Ideal.rights t) ∧
    stdin w = Ideal.pending t ∧ stdout w = Ideal.written t.

(** The two machines ended the same way, on states that correspond. *)
Definition agree (chunklen : Z) (r : option outcome)
  (r' : option (ending * Ideal.tape)) : Prop :=
  match r, r' with
  | Some o, Some (e, t) =>
      ending_of o = e ∧ represents chunklen (outcome_world o) t
  | None, None => True
  | _, _ => False
  end.



(** ** Reading the program text (bfin) *)

Definition newline : ascii := "010"%char.

(** A byte of a stream as the [char] it is stored as. *)
Definition char_of (b : Z) : ascii := ascii_of_N (Z.to_N (byte_wrap b)).

(** A [FILE] open for reading: the bytes that can still be read, the two
    indicators, and what lies after those bytes: the end of the file, or
    ([breaks]) a read error. *)
Record FILE : Type := File {
  unread : list ascii;
  feof : bool;
  ferror : bool;
  breaks : bool
}.

(** [fread(ptr, 1, n, file)]: the bytes delivered and the stream
    afterwards. When fewer than [n] bytes can be read, those are delivered
    and the read has met the end of the file, which sets the end-of-file
    indicator, or has failed, which sets the error indicator; a stream
    that has failed keeps failing. *)
Definition fread (n : nat) (f : FILE) : list ascii * FILE :=
  if (n <=? length (unread f))%nat
  then (take n (unread f),
        File (drop n (unread f)) (feof f) (ferror f) (breaks f))
  else if breaks f then (unread f, File [] (feof f) true true)
  else (unread f, File [] true (ferror f) false).

(** The chars [fgets] takes off the input: at most [k], up to and including
    the first newline. *)
Fixpoint upto_newline (k : nat) (input : list Z) : list ascii * list Z :=
  match k, input with
  | O, _ => ([], input)
  | S _, [] => ([], [])
  | S k', b :: rest =>
      if Ascii.eqb (char_of b) newline then ([newline], rest)
      else let '(l, r) := upto_newline k' rest in (char_of b :: l, r)
  end.

(** [fgets(s, n, stdin)]: the bytes stored at [s], terminator included,
    and the input left. Nothing is stored ([NULL] is returned) when [n] is
    not positive or the input is at its end. *)
Definition fgets (n : Z) (input : list Z) : option (list ascii) * list Z :=
  if n <=? 0 then (None, input)
  else
    match input with
    | [] => (None, [])
    | _ :: _ =>
        let '(l, r) := upto_newline (Z.to_nat (n - 1)) input in
        (Some (l ++ [NUL]), r)
    end.

(** A buffer obtained from [malloc] is the list of its bytes, as many as
    were asked for. [store_at buf off bytes] writes [bytes] from offset
    [off] on; [None] when that leaves the buffer. *)
Definition store_at (buf : list ascii) (off : Z) (bytes : list ascii)
  : option (list ascii) :=
  if (0 <=? off) && (off + Z.of_nat (length bytes) <=? Z.of_nat (length buf))
  then Some (take (Z.to_nat off) buf ++ bytes
             ++ drop (Z.to_nat off + length bytes) buf)
  else None.

(** [realloc(buf, len)]: the bytes kept, then bytes of which nothing is
    known ([junk i] at offset [i]). *)
Definition realloc (junk : nat → ascii) (buf : list ascii) (len : Z)
  : list ascii :=
  take (Z.to_nat len) buf
  ++ map junk (seq (length buf) (Z.to_nat len - length buf)).

(** [strchr(s, ch)] for [ch] other than NUL, over the bytes from offset
    [off] of a buffer on: the offset of the first [ch] before the
    terminator, [Some None] (the NULL pointer) when the terminator comes
    first, [None] when the scan runs off the buffer. *)
Fixpoint strchr (s : list ascii) (ch : ascii) (off : Z) : option (option Z) :=
  match s with
  | [] => None
  | x :: rest =>
      if Ascii.eqb x ch then Some (Some off)
      else if Ascii.eqb x NUL then Some None
      else strchr rest ch (off + 1)
  end.

Definition scan_from (buf : list ascii) (off : Z) (ch : ascii)
  : option (option Z) :=
  if off <? 0 then None else strchr (drop (Z.to_nat off) buf) ch off.

(** What a reading function hands back: the pointer it returns ([None] is
    NULL) and the stream as it leaves it, or an access outside the
    buffer. *)
Inductive reading (T : Type) : Type :=
| Got (line : option (list ascii)) (rest : T)
| Fault.

Arguments Got {T} line rest.
Arguments Fault {T}.

Section Reading.

Variable chunklen : Z.

(** The bytes [realloc] appends. *)
Variable junk : nat → ascii.

(** Whether [realloc], asked for that many bytes, fails and hands back
    NULL. *)
Variable fails : Z → bool.

(** The loop of [get_prog], with [end] and [len] as offsets and sizes in
    bytes; [start] is [None] once it is the NULL pointer. [None] as a
    result: the fuel ran out.

    After [temp = realloc(start, len)] the source tests [start], not
    [temp]. [start] is not NULL there, so the test never fires: when
    [realloc] has failed the loop goes on with [start = temp], which is
    NULL, and with [end] computed from it, and the next [fread] stores
    through that pointer. *)
Fixpoint get_prog_loop (fuel : nat) (file : FILE)
  (start : option (list ascii)) (end_ len : Z) : option (reading FILE) :=
  match fuel with
  | O => None
  | S k =>
      let '(bytes, file) := fread (Z.to_nat chunklen) file in
      match start with
      | None => Some Fault
      | Some buf =>
          match store_at buf end_ bytes with
          | None => Some Fault
          | Some buf =>
              (* end[read] = '\0' *)
              match store_at buf (end_ + Z.of_nat (length bytes)) [NUL] with
              | None => Some Fault
              | Some buf =>
                  if ferror file then Some (Got None file)
                  else if feof file then Some (Got (Some buf) file)
                  else
                    let len := len + chunklen in
                    let temp :=
                      if fails len then None
                      else Some (realloc junk buf len) in
                    get_prog_loop k file temp (len - chunklen - 1) len
              end
          end
      end
  end.

(** [get_prog(file, start)] of bfin, for a [start] that is not NULL. *)
Definition get_prog (fuel : nat) (file : FILE) (start : list ascii)
  : option (reading FILE) :=
  get_prog_loop fuel file (Some start) 0 (chunklen + 1).

(** The error indicator of [stdin]. *)
Variable stdin_error : bool.

(** The loop of [get_line], reading from the input of the process. *)
Fixpoint get_line_loop (fuel : nat) (input : list Z) (start : list ascii)
  (end_ len : Z) : option (reading (list Z)) :=
  match fuel with
  | O => None
  | S k =>
      let '(stored, input) := fgets chunklen input in
      match match stored with
            | Some bytes => store_at start end_ bytes
            | None => Some start
            end with
      | None => Some Fault
      | Some start =>
          if stdin_error then Some (Got None input)
          else
            match scan_from start end_ newline with
            | None => Some Fault
            | Some (Some temp) =>
                (* the newline is cleared *)
                match store_at start temp [NUL] with
                | None => Some Fault
                | Some start => Some (Got (Some start) input)
                end
            | Some None =>
                let len := len + chunklen in
                let start := realloc junk start len in
                get_line_loop k input start (len - chunklen - 1) len
            end
      end
  end.

(** [get_line(start)] of bfin. *)
Definition get_line (fuel : nat) (input : list Z) (start : list ascii)
  : option (reading (list Z)) :=
  get_line_loop fuel input start 0 chunklen.

End Reading.

(** The bytes of a line: none of them is a newline or NUL. *)
Definition line_bytes (l : list Z) : Prop :=
  Forall (λ b, char_of b ≠ newline ∧ char_of b ≠ NUL) l.


(** ** Reading the program text (bfvm) *)

Section BfvmReading.

Variable chunklen : Z.
Variable junk : nat → ascii.

(** Whether [realloc], asked for that many bytes, hands back another block
    than the one it was given (which it then has freed). *)
Variable moves : Z → bool.

(** The loop of [getline] of bfvm. [start] is block [blk], with its bytes;
    [end] keeps pointing into the block it was set in, [end_blk], and is
    moved on by [end += chunklen]. Reading or writing through [end] after
    [realloc] has freed its block is an access outside the buffer. *)
Fixpoint getline_loop (fuel : nat) (input : list Z) (blk : nat)
  (start : list ascii) (end_blk : nat) (end_ len : Z)
  : option (reading (list Z)) :=
  match fuel with
  | O => None
  | S k =>
      if negb (end_blk =? blk)%nat then Some Fault
      else
        let '(stored, input) := fgets chunklen input in
        match match stored with
              | Some bytes => store_at start end_ bytes
              | None => Some start
              end with
        | None => Some Fault
        | Some start =>
            match scan_from start end_ newline with
            | None => Some Fault
            | Some (Some _) => Some (Got (Some start) input)
            | Some None =>
                let len := len + chunklen in
                let blk := if moves len then S blk else blk in
                let start := realloc junk start len in
                getline_loop k input blk start end_blk (end_ + chunklen) len
            end
        end
  end.

(** [getline(start)] of bfvm. *)
Definition getline (fuel : nat) (input : list Z) (start : list ascii)
  : option (reading (list Z)) :=
  getline_loop fuel input 0 start 0 0 chunklen.

(** The loop of [getprog] of bfvm. *)
Fixpoint getprog_loop (fuel : nat) (file : FILE) (blk : nat)
  (start : list ascii) (end_blk : nat) (end_ len : Z)
  : option (reading FILE) :=
  match fuel with
  | O => None
  | S k =>
      if negb (end_blk =? blk)%nat then Some Fault
      else
        let '(bytes, file) := fread (Z.to_nat chunklen) file in
        match store_at start end_ bytes with
        | None => Some Fault
        | Some start =>
            if feof file then
              (* end[read] = '\0' *)
              match store_at start (end_ + Z.of_nat (length bytes)) [NUL] with
              | None => Some Fault
              | Some start => Some (Got (Some start) file)
              end
            else
              let len := len + chunklen in
              let blk := if moves len then S blk else blk in
              let start := realloc junk start len in
              getprog_loop k file blk start end_blk (end_ + chunklen) len
        end
  end.

(** [getprog(file, start)] of bfvm. *)
Definition getprog (fuel : nat) (file : FILE) (start : list ascii)
  : option (reading FILE) :=
  getprog_loop fuel file 0 start 0 0 chunklen.

End BfvmReading.


(** ** Brackets without a partner *)

(** Every loop opened before [c] is closed before [c]. *)
Definition outside (line : list ascii) (c : nat) : Prop :=
  ∀ l r, (l < c)%nat → char_at line l = "["%char →
         match_right line l = Some r → (r < c)%nat.

(** The ']' at [c] is the match of no '[' of the string. *)
Definition unmatched_close (line : list ascii) (c : nat) : Prop :=
  char_at line c = "]"%char ∧
  ∀ l, char_at line l = "["%char → match_right line l ≠ Some c.

(** The loop opened at [l] is around position [c]: [l] holds a '[' and
    its matching ']' lies at [c] or after it. *)
Definition encloses (line : list ascii) (l c : nat) : Prop :=
  char_at line l = "["%char ∧
  ∃ r, match_right line l = Some r ∧ (l < c ≤ r)%nat.

(** What the way a call ended says about the character at [c], where the
    loop stood when it ended, and about the current cell. *)
Definition justified (line : list ascii) (c : nat) (o : outcome) : Prop :=
  match o with
  | Returned _ => char_at line c = NUL
  | Reported NoMatchingRight w' =>
      char_at line c = "["%char ∧ match_right line c = None ∧
      cell w' = Some 0
  | Reported NoMatchingLeft w' =>
      unmatched_close line c ∧ ∃ v, cell w' = Some v ∧ v ≠ 0
  | Crashed w' =>
      unmatched_close line c ∧ cell w' = Some 0
  end.


(** ** Positions on the tape *)

(** The net movement of a string: its '>' minus its '<'. *)
Fixpoint shift (line : list ascii) : Z :=
  match line with
  | [] => 0
  | ch :: rest =>
      (if Ascii.eqb ch ">" then 1 else if Ascii.eqb ch "<" then -1 else 0)
      + shift rest
  end.

Section Positions.

Variable chunklen : Z.

(** A position is a chunk and an offset in its block. [right_step h a b]:
    [b] is the position next to [a] on the right, in the same block or at
    the start of the chunk [next] points to. *)
Definition right_step (h : list memchunk) (a b : nat * Z) : Prop :=
  (b.1 = a.1 ∧ 0 <= a.2 ∧ b.2 = a.2 + 1 ∧ b.2 < chunklen) ∨
  (a.2 + 1 = chunklen ∧ b.2 = 0 ∧
   ∃ ch, h !! a.1 = Some ch ∧ next ch = Some b.1).

(** [b] lies [k] cells right of [a]. *)
Inductive reach (h : list memchunk) (a : nat * Z) : nat * Z → nat → Prop :=
| reach_here : reach h a a 0
| reach_step b c k : reach h a b k → right_step h b c → reach h a c (S k).

(** [b] lies [z] cells right of [a], or [- z] cells left of it. *)
Definition displaced (h : list memchunk) (a b : nat * Z) (z : Z) : Prop :=
  if 0 <=? z then reach h a b (Z.to_nat z) else reach h b a (Z.to_nat (- z)).

End Positions.

(** Where the cursor of [w] is. *)
Definition cursor (w : world) : nat * Z := (page w, data w).


(** * The tape: well-formedness is kept, blocks are never rewritten *)

Section Tape.

Variable chunklen : Z.
Variable fill : nat → nat → Z.

Local Abbreviation wf_heap := (wf_heap chunklen).
Local Abbreviation wf := (wf chunklen).
Local Abbreviation wf_mem := (wf_mem chunklen).
Local Abbreviation wf_next := (wf_next chunklen).
Local Abbreviation wf_prev := (wf_prev chunklen).

Lemma block_length k : length (block chunklen fill k) = Z.to_nat chunklen.
Proof. unfold block. by rewrite length_map, length_seq. Qed.

Lemma overflow_right_lookup h p ch i :
  h !! p = Some ch →
  (overflow_right chunklen fill h p).1 !! i =
    if decide (i = length h)
    then Some (MemChunk None (Some p) (block chunklen fill (length h)))
    else if decide (i = p) then Some (set_next (Some (length h)) ch)
    else h !! i.
Proof.
  intros Hp. pose proof (lookup_lt_Some _ _ _ Hp) as Hlt.
  unfold overflow_right, alloc_memchunk. simpl.
  destruct (decide (i = length h)) as [->|Hi].
  - rewrite list_lookup_alter_eq, list_lookup_alter_ne by lia.
    rewrite lookup_app_r by lia. by rewrite Nat.sub_diag.
  - rewrite list_lookup_alter_ne by lia.
    destruct (decide (i = p)) as [->|Hip].
    + rewrite list_lookup_alter_eq, lookup_app_l by lia. by rewrite Hp.
    + rewrite list_lookup_alter_ne by lia.
      destruct (decide (i < length h)%nat).
      * by rewrite lookup_app_l by lia.
      * rewrite lookup_app_r by lia.
        rewrite (lookup_ge_None_2 h) by lia.
        apply lookup_ge_None_2. simpl. lia.
Qed.

Lemma overflow_left_lookup h p ch i :
  h !! p = Some ch →
  (overflow_left chunklen fill h p).1 !! i =
    if decide (i = length h)
    then Some (MemChunk (Some p) None (block chunklen fill (length h)))
    else if decide (i = p) then Some (set_prev (Some (length h)) ch)
    else h !! i.
Proof.
  intros Hp. pose proof (lookup_lt_Some _ _ _ Hp) as Hlt.
  unfold overflow_left, alloc_memchunk. simpl.
  destruct (decide (i = length h)) as [->|Hi].
  - rewrite list_lookup_alter_eq, list_lookup_alter_ne by lia.
    rewrite lookup_app_r by lia. by rewrite Nat.sub_diag.
  - rewrite list_lookup_alter_ne by lia.
    destruct (decide (i = p)) as [->|Hip].
    + rewrite list_lookup_alter_eq, lookup_app_l by lia. by rewrite Hp.
    + rewrite list_lookup_alter_ne by lia.
      destruct (decide (i < length h)%nat).
      * by rewrite lookup_app_l by lia.
      * rewrite lookup_app_r by lia.
        rewrite (lookup_ge_None_2 h) by lia.
        apply lookup_ge_None_2. simpl. lia.
Qed.

Lemma overflow_right_snd h p : (overflow_right chunklen fill h p).2 = length h.
Proof. reflexivity. Qed.

Lemma overflow_left_snd h p : (overflow_left chunklen fill h p).2 = length h.
Proof. reflexivity. Qed.

Lemma overflow_right_wf h p ch :
  wf_heap h → h !! p = Some ch → next ch = None →
  wf_heap (overflow_right chunklen fill h p).1.
Proof.
  intros [Hm Hn Hp] Hch Hnone.
  pose proof (overflow_right_lookup h p ch) as L.
  split.
  - intros i c'. rewrite (L i Hch).
    repeat case_decide; intros; simplify_eq; simpl; eauto using block_length.
  - intros i c' q. rewrite (L i Hch).
    repeat case_decide; intros Hi Hq; simplify_eq; simpl in *; simplify_eq.
    + eexists. rewrite (L _ Hch), decide_True by done. done.
    + destruct (Hn _ _ _ Hi Hq) as (c'' & Hc'' & Hpc'').
      pose proof (lookup_lt_Some _ _ _ Hc'').
      rewrite (L q Hch), decide_False by lia.
      case_decide; simplify_eq; eauto.
  - intros i c' q. rewrite (L i Hch).
    repeat case_decide; intros Hi Hq; simplify_eq; simpl in *; simplify_eq.
    + eexists. rewrite (L _ Hch), decide_False, decide_True; [done..|].
      apply lookup_lt_Some in Hch. lia.
    + destruct (Hp _ _ _ Hch Hq) as (c'' & Hc'' & Hpc'').
      pose proof (lookup_lt_Some _ _ _ Hc'').
      rewrite (L q Hch), decide_False by lia.
      case_decide; simplify_eq; eauto.
    + destruct (Hp _ _ _ Hi Hq) as (c'' & Hc'' & Hpc'').
      pose proof (lookup_lt_Some _ _ _ Hc'').
      rewrite (L q Hch), decide_False by lia.
      case_decide; simplify_eq; eauto.
Qed.

Lemma overflow_left_wf h p ch :
  wf_heap h → h !! p = Some ch → prev ch = None →
  wf_heap (overflow_left chunklen fill h p).1.
Proof.
  intros [Hm Hn Hp] Hch Hnone.
  pose proof (overflow_left_lookup h p ch) as L.
  split.
  - intros i c'. rewrite (L i Hch).
    repeat case_decide; intros; simplify_eq; simpl; eauto using block_length.
  - intros i c' q. rewrite (L i Hch).
    repeat case_decide; intros Hi Hq; simplify_eq; simpl in *; simplify_eq.
    + eexists. rewrite (L _ Hch), decide_False, decide_True; [done..|].
      apply lookup_lt_Some in Hch. lia.
    + destruct (Hn _ _ _ Hch Hq) as (c'' & Hc'' & Hpc'').
      pose proof (lookup_lt_Some _ _ _ Hc'').
      rewrite (L q Hch), decide_False by lia.
      case_decide; simplify_eq; eauto.
    + destruct (Hn _ _ _ Hi Hq) as (c'' & Hc'' & Hpc'').
      pose proof (lookup_lt_Some _ _ _ Hc'').
      rewrite (L q Hch), decide_False by lia.
      case_decide; simplify_eq; eauto.
  - intros i c' q. rewrite (L i Hch).
    repeat case_decide; intros Hi Hq; simplify_eq; simpl in *; simplify_eq.
    + eexists. rewrite (L _ Hch), decide_True by done. done.
    + destruct (Hp _ _ _ Hi Hq) as (c'' & Hc'' & Hpc'').
      pose proof (lookup_lt_Some _ _ _ Hc'').
      rewrite (L q Hch), decide_False by lia.
      case_decide; simplify_eq; eauto.
Qed.

(** ** Moving never rewrites a block *)

Lemma grows_refl h : grows h h.
Proof. intros p ch Hp. eauto 10. Qed.

Lemma grows_trans h1 h2 h3 : grows h1 h2 → grows h2 h3 → grows h1 h3.
Proof.
  intros H12 H23 p ch Hp.
  destruct (H12 _ _ Hp) as (ch2 & Hp2 & Hm2 & Hn2 & Hv2).
  destruct (H23 _ _ Hp2) as (ch3 & Hp3 & Hm3 & Hn3 & Hv3).
  exists ch3. repeat split; [done|congruence|auto..].
Qed.

Lemma grows_byte_at h h' p o v :
  grows h h' → byte_at h p o = Some v → byte_at h' p o = Some v.
Proof.
  unfold byte_at. intros G Hb.
  destruct (h !! p) as [ch|] eqn:Hp; [|done].
  destruct (G _ _ Hp) as (ch' & -> & Hm & _). simpl in *. by rewrite Hm.
Qed.

Lemma overflow_right_grows h p ch :
  h !! p = Some ch → next ch = None →
  grows h (overflow_right chunklen fill h p).1.
Proof.
  intros Hch Hnone i c' Hi. pose proof (lookup_lt_Some _ _ _ Hi).
  rewrite (overflow_right_lookup h p ch i Hch), decide_False by lia.
  case_decide; simplify_eq; eexists; (split; [done|]); simpl; [|done].
  repeat split; [congruence|done].
Qed.

Lemma overflow_left_grows h p ch :
  h !! p = Some ch → prev ch = None →
  grows h (overflow_left chunklen fill h p).1.
Proof.
  intros Hch Hnone i c' Hi. pose proof (lookup_lt_Some _ _ _ Hi).
  rewrite (overflow_left_lookup h p ch i Hch), decide_False by lia.
  case_decide; simplify_eq; eexists; (split; [done|]); simpl; [|done].
  repeat split; [done|congruence].
Qed.

(** ** The two movements *)

Lemma advance_inside w :
  data w + 1 < chunklen →
  advance chunklen fill w
  = Some (World (heap w) (page w) (data w + 1) (stdin w) (stdout w)).
Proof. intros H. unfold advance. by rewrite (proj2 (Z.leb_gt _ _)) by lia. Qed.

Lemma advance_neighbour w ch q :
  chunklen <= data w + 1 → heap w !! page w = Some ch → next ch = Some q →
  advance chunklen fill w = Some (World (heap w) q 0 (stdin w) (stdout w)).
Proof.
  intros H Hch Hq. unfold advance.
  rewrite (proj2 (Z.leb_le _ _)) by lia. rewrite Hch. simpl. by rewrite Hq.
Qed.

Lemma advance_grow w ch :
  chunklen <= data w + 1 → heap w !! page w = Some ch → next ch = None →
  advance chunklen fill w
  = Some (World (overflow_right chunklen fill (heap w) (page w)).1
                (length (heap w)) 0 (stdin w) (stdout w)).
Proof.
  intros H Hch Hq. unfold advance.
  rewrite (proj2 (Z.leb_le _ _)) by lia. rewrite Hch. simpl. by rewrite Hq.
Qed.

Lemma retreat_inside w :
  0 <= data w - 1 →
  retreat chunklen fill w
  = Some (World (heap w) (page w) (data w - 1) (stdin w) (stdout w)).
Proof. intros H. unfold retreat. by rewrite (proj2 (Z.ltb_ge _ _)) by lia. Qed.

Lemma retreat_neighbour w ch q :
  data w - 1 < 0 → heap w !! page w = Some ch → prev ch = Some q →
  retreat chunklen fill w
  = Some (World (heap w) q (chunklen - 1) (stdin w) (stdout w)).
Proof.
  intros H Hch Hq. unfold retreat.
  rewrite (proj2 (Z.ltb_lt _ _)) by lia. rewrite Hch. simpl. by rewrite Hq.
Qed.

Lemma retreat_grow w ch :
  data w - 1 < 0 → heap w !! page w = Some ch → prev ch = None →
  retreat chunklen fill w
  = Some (World (overflow_left chunklen fill (heap w) (page w)).1
                (length (heap w)) (chunklen - 1) (stdin w) (stdout w)).
Proof.
  intros H Hch Hq. unfold retreat.
  rewrite (proj2 (Z.ltb_lt _ _)) by lia. rewrite Hch. simpl. by rewrite Hq.
Qed.

Lemma advance_spec w :
  wf w →
  ∃ w', advance chunklen fill w = Some w' ∧ wf w' ∧
        grows (heap w) (heap w') ∧
        stdin w' = stdin w ∧ stdout w' = stdout w.
Proof.
  intros [[ch Hch] Hd Hh].
  destruct (decide (data w + 1 < chunklen)) as [Hin|Hout].
  - eexists. split; [by apply advance_inside|].
    split; [split; simpl; [by exists ch|lia|done]|].
    split; [apply grows_refl|done].
  - destruct (next ch) as [q|] eqn:Hq.
    + eexists. split; [by eapply advance_neighbour; [lia|..]|].
      split; [split; simpl; [|lia|done]|].
      * destruct (wf_next _ Hh _ _ _ Hch Hq) as (ch' & -> & _). eauto.
      * split; [apply grows_refl|done].
    + eexists. split; [by eapply advance_grow; [lia|..]|].
      split; [split; simpl; [|lia|by eapply overflow_right_wf]|].
      * rewrite (overflow_right_lookup _ _ _ _ Hch), decide_True by done.
        eauto.
      * split; [by eapply overflow_right_grows|done].
Qed.

Lemma retreat_spec w :
  wf w →
  ∃ w', retreat chunklen fill w = Some w' ∧ wf w' ∧
        grows (heap w) (heap w') ∧
        stdin w' = stdin w ∧ stdout w' = stdout w.
Proof.
  intros [[ch Hch] Hd Hh].
  destruct (decide (0 <= data w - 1)) as [Hin|Hout].
  - eexists. split; [by apply retreat_inside|].
    split; [split; simpl; [by exists ch|lia|done]|].
    split; [apply grows_refl|done].
  - destruct (prev ch) as [q|] eqn:Hq.
    + eexists. split; [by eapply retreat_neighbour; [lia|..]|].
      split; [split; simpl; [|lia|done]|].
      * destruct (wf_prev _ Hh _ _ _ Hch Hq) as (ch' & -> & _). eauto.
      * split; [apply grows_refl|done].
    + eexists. split; [by eapply retreat_grow; [lia|..]|].
      split; [split; simpl; [|lia|by eapply overflow_left_wf]|].
      * rewrite (overflow_left_lookup _ _ _ _ Hch), decide_True by done.
        eauto.
      * split; [by eapply overflow_left_grows|done].
Qed.

(** ** Reading and writing the current cell *)

Lemma wf_heap_alter f p h :
  (∀ ch, next (f ch) = next ch ∧ prev (f ch) = prev ch ∧
         length (mem (f ch)) = length (mem ch)) →
  wf_heap h → wf_heap (alter f p h).
Proof.
  intros Hf [Hm Hn Hp].
  assert (∀ i c', alter f p h !! i = Some c' →
            ∃ c0, h !! i = Some c0 ∧ next c' = next c0 ∧ prev c' = prev c0 ∧
                  length (mem c') = length (mem c0)) as Back.
  { intros i c'. rewrite list_lookup_alter. case_decide; subst.
    - intros (c0 & ? & ->)%fmap_Some. exists c0. by destruct (Hf c0) as (?&?&?).
    - intros ?. by exists c'. }
  assert (∀ i c0, h !! i = Some c0 →
            ∃ c', alter f p h !! i = Some c' ∧ next c' = next c0 ∧
                  prev c' = prev c0) as Forth.
  { intros i c0 Hi. rewrite list_lookup_alter. case_decide; subst.
    - rewrite Hi. exists (f c0). by destruct (Hf c0) as (?&?&?).
    - by exists c0. }
  split.
  - intros i c' (c0 & Hi & _ & _ & Hl)%Back. rewrite Hl. eauto.
  - intros i c' q (c0 & Hi & Hx & _)%Back Hq. rewrite Hx in Hq.
    destruct (Hn _ _ _ Hi Hq) as (c1 & Hc1 & Hp1).
    destruct (Forth _ _ Hc1) as (c2 & ? & _ & Hp2). exists c2.
    split; [done|congruence].
  - intros i c' q (c0 & Hi & _ & Hx & _)%Back Hq. rewrite Hx in Hq.
    destruct (Hp _ _ _ Hi Hq) as (c1 & Hc1 & Hp1).
    destruct (Forth _ _ Hc1) as (c2 & ? & Hn2 & _). exists c2.
    split; [done|congruence].
Qed.

Lemma cell_is_Some w : wf w → is_Some (cell w).
Proof.
  intros [[ch Hch] Hd Hh]. unfold cell, byte_at, block_at.
  rewrite Hch. simpl. rewrite (proj2 (Z.ltb_ge _ _)) by lia.
  apply lookup_lt_is_Some. rewrite (wf_mem _ Hh _ _ Hch). lia.
Qed.

Lemma poke_wf v w : wf w → wf (poke v w).
Proof.
  intros [[ch Hch] Hd Hh]. split; simpl; [|done|].
  - rewrite list_lookup_alter_eq, Hch. by eexists.
  - apply wf_heap_alter; [|done].
    intros c0. simpl. by rewrite length_insert.
Qed.

Lemma cell_poke v w : wf w → cell (poke v w) = Some v.
Proof.
  intros [[ch Hch] Hd Hh]. unfold cell, byte_at, block_at. simpl.
  rewrite list_lookup_alter_eq, Hch. simpl.
  rewrite (proj2 (Z.ltb_ge _ _)) by lia.
  apply list_lookup_insert_eq. rewrite (wf_mem _ Hh _ _ Hch). lia.
Qed.

Lemma poke_poke a b w : poke b (poke a w) = poke b w.
Proof.
  unfold poke. simpl. f_equal.
  rewrite list_alter_alter_eq. apply list_alter_ext; [|done].
  intros ch _. unfold set_mem. simpl. f_equal. apply list_insert_insert_eq.
Qed.

Lemma poke_same v w : cell w = Some v → poke v w = w.
Proof.
  destruct w as [h p d i o]. unfold cell, byte_at, block_at, poke. simpl.
  intros Hc. f_equal.
  destruct (h !! p) as [ch|] eqn:Hp; simpl in Hc; [|done].
  destruct (d <? 0); [done|].
  apply list_eq. intros j. rewrite list_lookup_alter.
  case_decide; [subst j|done]. rewrite Hp. simpl. f_equal.
  destruct ch as [n q m]. unfold set_mem. simpl in *. f_equal.
  by apply list_insert_id.
Qed.

(** A write leaves every other byte of the tape alone. *)
Lemma byte_at_poke_ne v w p o :
  (p, o) ≠ (page w, data w) → 0 <= o → 0 <= data w →
  byte_at (heap (poke v w)) p o = byte_at (heap w) p o.
Proof.
  intros Hne Ho Hd. unfold byte_at, poke. simpl.
  rewrite list_lookup_alter. case_decide as Hp; [subst p|done].
  destruct (heap w !! page w) as [ch|]; [simpl|done].
  unfold block_at. rewrite (proj2 (Z.ltb_ge _ _)) by lia.
  apply list_lookup_insert_ne. intros E. apply Hne. f_equal. lia.
Qed.

Lemma increment_spec w v :
  cell w = Some v → increment w = Some (poke (byte_wrap (v + 1)) w).
Proof. intros H. unfold increment. by rewrite H. Qed.

Lemma decrement_spec w v :
  cell w = Some v → decrement w = Some (poke (byte_wrap (v - 1)) w).
Proof. intros H. unfold decrement. by rewrite H. Qed.

Lemma output_spec w v : cell w = Some v → output w = Some (putchar v w).
Proof. intros H. unfold output. by rewrite H. Qed.

Lemma putchar_wf v w : wf w → wf (putchar v w).
Proof. intros [? ? ?]. by split. Qed.

Lemma getchar_wf w : wf w → wf (getchar w).2.
Proof.
  intros [? ? ?]. unfold getchar. destruct (stdin w); by split.
Qed.

Lemma input_spec w :
  wf w → input w = Some (poke (byte_wrap (getchar w).1) (getchar w).2).
Proof.
  intros Hw. unfold input. destruct (getchar w) as [b w'] eqn:Hg.
  pose proof (getchar_wf w Hw) as Hw'. rewrite Hg in Hw'. simpl in *.
  unfold store. by destruct (cell_is_Some _ Hw') as [x ->].
Qed.

End Tape.

(** * The execution loop *)

Section Exec.

Variable chunklen : Z.
Variable fill : nat → nat → Z.

Local Abbreviation wf := (wf chunklen).
Local Abbreviation step := (step chunklen fill).
Local Abbreviation run := (run chunklen fill).
Local Abbreviation turns := (turns chunklen fill).
Local Abbreviation visited := (visited chunklen fill).
Local Abbreviation execute := (execute chunklen fill).
Local Abbreviation effect := (effect chunklen fill).
Local Abbreviation effects := (effects chunklen fill).

Lemma step_nul line w c stack :
  char_at line c = NUL → step line w c stack = Stop (Returned w).
Proof. intros H. unfold step. by rewrite H. Qed.

Lemma step_plain line w c stack ch :
  char_at line c = ch → ch ≠ NUL →
  decode ch ≠ IOpen → decode ch ≠ IClose →
  step line w c stack = lift (S c) stack w (effect (decode ch) w).
Proof.
  intros H Hn Ho Hc. unfold step. rewrite H.
  rewrite (proj2 (Ascii.eqb_neq _ _) Hn).
  by destruct (decode ch).
Qed.

Lemma step_open line w c stack v :
  char_at line c = "["%char → cell w = Some v →
  step line w c stack =
    if v =? 0 then
      match match_right line c with
      | None => Stop (Reported NoMatchingRight w)
      | Some r => Next w (S r) stack
      end
    else
      match match_right line c with
      | Some _ => Next w (S c) (c :: stack)
      | None => Next w (S c) stack
      end.
Proof. intros H Hv. unfold step. rewrite H. simpl. by rewrite Hv. Qed.

Lemma step_close line w c stack v :
  char_at line c = "]"%char → cell w = Some v →
  step line w c stack =
    if negb (v =? 0) then
      match stack with
      | [] => Stop (Reported NoMatchingLeft w)
      | l :: _ => Next w (S l) stack
      end
    else
      match stack with
      | [] => Stop (Crashed w)
      | _ :: s => Next w (S c) s
      end.
Proof. intros H Hv. unfold step. rewrite H. simpl. by rewrite Hv. Qed.

Lemma turns_S n line w c stack :
  turns (S n) line w c stack =
    match turns n line w c stack with
    | Next w' c' stack' => step line w' c' stack'
    | Stop o => Stop o
    end.
Proof.
  revert w c stack. induction n as [|n IH]; intros w c stack.
  - simpl. by destruct (step line w c stack).
  - change (turns (S (S n)) line w c stack) with
      (match step line w c stack with
       | Next w' c' stack' => turns (S n) line w' c' stack'
       | Stop o => Stop o
       end).
    simpl. destruct (step line w c stack); [apply IH|done].
Qed.

(** [run] is [turns] with the fuel made visible. *)
Lemma run_turns fuel line w c stack :
  run fuel line w c stack =
    match turns fuel line w c stack with
    | Next _ _ _ => None
    | Stop o => Some o
    end.
Proof.
  revert w c stack. induction fuel as [|k IH]; intros w c stack; [done|].
  simpl. destruct (step line w c stack); [apply IH|done].
Qed.

Lemma run_after n k line w c stack w' c' stack' :
  turns n line w c stack = Next w' c' stack' →
  run (n + k) line w c stack = run k line w' c' stack'.
Proof.
  revert w c stack. induction n as [|n IH]; intros w c stack; simpl.
  - by intros [= -> -> ->].
  - destruct (step line w c stack); [apply IH|done].
Qed.

(** More fuel does not change a result. *)
Lemma run_mono fuel fuel' line w c stack o :
  run fuel line w c stack = Some o → (fuel ≤ fuel')%nat →
  run fuel' line w c stack = Some o.
Proof.
  revert fuel' w c stack. induction fuel as [|k IH]; intros fuel' w c stack;
    [done|].
  destruct fuel' as [|k']; [lia|]. simpl.
  destruct (step line w c stack); [|done]. intros. apply IH; [done|lia].
Qed.

Lemma run_S k line w c stack :
  run (S k) line w c stack =
    match step line w c stack with
    | Next w' c' stack' => run k line w' c' stack'
    | Stop o => Some o
    end.
Proof. reflexivity. Qed.

Lemma visited_S k line w c stack :
  visited (S k) line w c stack =
    match step line w c stack with
    | Next w' c' stack' => c :: visited k line w' c' stack'
    | Stop _ => []
    end.
Proof. reflexivity. Qed.

Lemma char_at_middle pre ch suf : char_at (pre ++ ch :: suf) (length pre) = ch.
Proof. unfold char_at. apply nth_middle. Qed.

Lemma char_at_end line : char_at line (length line) = NUL.
Proof. unfold char_at. by apply nth_overflow. Qed.

(** ** Straight-line code *)

Lemma run_plain suf pre w w' stack fuel :
  Forall plain suf → effects suf w = Some w' → (length suf < fuel)%nat →
  run fuel (pre ++ suf) w (length pre) stack = Some (Returned w').
Proof.
  revert pre w fuel.
  induction suf as [|ch suf IH]; intros pre w fuel Hp He Hf;
    (destruct fuel as [|k]; [simpl in Hf; lia|]); rewrite run_S.
  - simpl in He. injection He as ->.
    rewrite app_nil_r, step_nul; [done|apply char_at_end].
  - apply Forall_cons in Hp as [(Hn & Ho & Hc) Hp]. simpl in He.
    destruct (effect (decode ch) w) as [w1|] eqn:E1; [|done]. simpl in He.
    rewrite (step_plain _ _ _ _ ch) by (done || apply char_at_middle).
    rewrite E1. simpl.
    rewrite (cons_middle ch pre suf), app_assoc.
    replace (S (length pre)) with (length (pre ++ [ch]))
      by (rewrite length_app; simpl; lia).
    apply IH; [done|done|simpl in Hf; lia].
Qed.

Lemma execute_plain line w w' fuel :
  Forall plain line → effects line w = Some w' → (length line < fuel)%nat →
  execute fuel (Some line) w = Some (Returned w').
Proof. intros. by apply (run_plain line []). Qed.

Lemma plus_or_minus_plain ch : plus_or_minus ch → plain ch.
Proof. by intros [-> | ->]. Qed.

Lemma left_or_right_plain ch : left_or_right ch → plain ch.
Proof. by intros [-> | ->]. Qed.

Lemma byte_wrap_range z : 0 <= byte_wrap z < 256.
Proof. unfold byte_wrap. apply Z.mod_pos_bound. lia. Qed.

Lemma byte_wrap_small z : 0 <= z < 256 → byte_wrap z = z.
Proof. unfold byte_wrap. apply Z.mod_small. Qed.

Lemma effects_plus_minus line w v :
  Forall plus_or_minus line → wf w → cell w = Some v → 0 <= v < 256 →
  effects line w = Some (poke (byte_wrap (v + net line)) w).
Proof.
  revert w v. induction line as [|ch line IH]; intros w v Hl Hw Hc Hv.
  - simpl. rewrite Z.add_0_r, byte_wrap_small by done. by rewrite poke_same.
  - apply Forall_cons in Hl as [Hch Hl].
    assert (∀ d, wf (poke (byte_wrap (v + d)) w) ∧
                 cell (poke (byte_wrap (v + d)) w) = Some (byte_wrap (v + d)))
      as Hpoke by (intros d; eauto using poke_wf, cell_poke).
    assert (∀ d, byte_wrap (byte_wrap (v + d) + net line)
                 = byte_wrap (v + (d + net line))) as Hmod.
    { intros d. unfold byte_wrap.
      rewrite Z.add_mod_idemp_l by lia. f_equal. lia. }
    destruct Hch as [-> | ->]; simpl.
    + rewrite (increment_spec _ v) by done. simpl.
      destruct (Hpoke 1) as [Hw1 Hc1].
      rewrite (IH _ _ Hl Hw1 Hc1 (byte_wrap_range _)).
      by rewrite poke_poke, Hmod.
    + rewrite (decrement_spec _ v) by done. simpl.
      change (v - 1) with (v + -1).
      destruct (Hpoke (-1)) as [Hw1 Hc1].
      rewrite (IH _ _ Hl Hw1 Hc1 (byte_wrap_range _)).
      by rewrite poke_poke, Hmod.
Qed.

Lemma effects_moves line w :
  Forall left_or_right line → wf w →
  ∃ w', effects line w = Some w' ∧ wf w' ∧ grows (heap w) (heap w') ∧
        stdin w' = stdin w ∧ stdout w' = stdout w.
Proof.
  revert w. induction line as [|ch line IH]; intros w Hl Hw.
  - exists w. simpl. eauto using grows_refl.
  - apply Forall_cons in Hl as [Hch Hl].
    assert (∃ w1, effect (decode ch) w = Some w1 ∧ wf w1 ∧
                  grows (heap w) (heap w1) ∧
                  stdin w1 = stdin w ∧ stdout w1 = stdout w)
      as (w1 & E1 & Hw1 & G1 & I1 & O1).
    { destruct Hch as [-> | ->]; simpl;
        [by apply advance_spec | by apply retreat_spec]. }
    destruct (IH w1 Hl Hw1) as (w' & E & Hw' & G & I & O).
    exists w'. simpl. rewrite E1. simpl.
    split; [done|]. split; [done|]. split; [by eapply grows_trans|].
    split; congruence.
Qed.

(** ** The invariant of the loop *)

Lemma init_world_wf input :
  0 < chunklen → wf (init_world chunklen fill input).
Proof.
  intros Hpos. unfold init_world. simpl. split; simpl.
  - by eexists.
  - split; [by apply Z.quot_pos; lia|by apply Z.quot_lt; lia].
  - split.
    + intros [|p] ch Hp; simplify_eq/=. apply block_length.
    + intros [|p] ch q Hp Hq; simplify_eq/=.
    + intros [|p] ch q Hp Hq; simplify_eq/=.
Qed.

Lemma effect_wf i w :
  wf w → ∃ w', effect i w = Some w' ∧ wf w'.
Proof.
  intros Hw. destruct (cell_is_Some _ _ Hw) as [v Hv].
  destruct i; simpl.
  - destruct (advance_spec chunklen fill w Hw) as (w' & ? & ? & _). eauto.
  - destruct (retreat_spec chunklen fill w Hw) as (w' & ? & ? & _). eauto.
  - rewrite (increment_spec _ v) by done. eauto using poke_wf.
  - rewrite (decrement_spec _ v) by done. eauto using poke_wf.
  - rewrite (output_spec _ v) by done. eauto using putchar_wf.
  - rewrite (input_spec chunklen) by done.
    eauto using poke_wf, getchar_wf.
  - eauto.
  - eauto.
  - eauto.
Qed.

Lemma step_wf line w c stack :
  wf w →
  match step line w c stack with
  | Next w' _ _ => wf w'
  | Stop o => wf (outcome_world o)
  end.
Proof.
  intros Hw. destruct (cell_is_Some _ _ Hw) as [v Hv].
  destruct (Ascii.eqb_spec (char_at line c) NUL) as [Hn|Hn];
    [by rewrite step_nul|].
  destruct (decode (char_at line c)) eqn:Hd;
    try (rewrite (step_plain _ _ _ _ _ eq_refl Hn) by congruence;
         destruct (effect_wf (decode (char_at line c)) w Hw) as (w' & -> & ?);
         done).
  - unfold step. rewrite (proj2 (Ascii.eqb_neq _ _) Hn), Hd, Hv.
    repeat case_match; by simplify_eq/=.
  - unfold step. rewrite (proj2 (Ascii.eqb_neq _ _) Hn), Hd, Hv.
    repeat case_match; by simplify_eq/=.
Qed.

Lemma turns_wf n line w c stack :
  wf w →
  match turns n line w c stack with
  | Next w' _ _ => wf w'
  | Stop o => wf (outcome_world o)
  end.
Proof.
  revert w c stack. induction n as [|n IH]; intros w c stack Hw; [done|].
  simpl. pose proof (step_wf line w c stack Hw) as Hs.
  destruct (step line w c stack); [by apply IH|done].
Qed.

(** ** Claims about straight-line code *)

(** C10. Calling execute with a null program returns at once: whatever the
    fuel, the call returns normally in the very state it was given (heap,
    page, data pointer and both streams), so no byte is written and no
    diagnostic is reported. *)
Theorem execute_null_is_noop fuel w :
  execute fuel None w = Some (Returned w).
Proof. reflexivity. Qed.

(** C5. A string made of '+' and '-' only, run on a cell holding the byte v,
    returns normally (wrap-around is no error) and leaves in that cell
    v plus the net number of increments, modulo 256; nothing else of the
    state changes. In particular an increment of 255 gives 0 and a decrement
    of 0 gives 255. *)
Theorem plus_minus_wraps line w v fuel :
  Forall plus_or_minus line → wf w → cell w = Some v → 0 <= v < 256 →
  (length line < fuel)%nat →
  (∃ w', execute fuel (Some line) w = Some (Returned w') ∧
         cell w' = Some ((v + net line) mod 256) ∧
         w' = poke ((v + net line) mod 256) w) ∧
  (v = 255 → increment w = Some (poke 0 w)) ∧
  (v = 0 → decrement w = Some (poke 255 w)).
Proof.
  intros Hl Hw Hc Hv Hf. split; [|split].
  - eexists. split; [|split; [|reflexivity]].
    + apply execute_plain; [|by apply effects_plus_minus|done].
      eapply Forall_impl; [done|]. apply plus_or_minus_plain.
    + by apply (cell_poke chunklen).
  - intros ->. by rewrite (increment_spec _ _ Hc).
  - intros ->. by rewrite (decrement_spec _ _ Hc).
Qed.

(** C9. On a well-formed tape every tape operation (advance, retreat,
    increment, decrement, read for output, write of an input byte) completes
    and leaves the offset o of the cursor within its chunk, 0 <= o <
    chunklen, the tape well-formed again. An advance from the last byte of a
    block moves to offset 0 of the right neighbour, which is the existing
    one or else a chunk allocated and linked in just then; a retreat from
    the first byte moves to offset chunklen - 1 of the left neighbour in
    the same way; any other move stays in the chunk. The bound holds
    throughout every run of the loop of execute. *)
Theorem cursor_offset_invariant w :
  wf w →
  (∀ i, ∃ w', effect i w = Some w' ∧ 0 <= data w' < chunklen ∧ wf w') ∧
  (∃ ch, heap w !! page w = Some ch ∧
     (∀ w', advance chunklen fill w = Some w' →
        if decide (data w + 1 < chunklen)
        then page w' = page w ∧ data w' = data w + 1 ∧ heap w' = heap w
        else data w' = 0 ∧
             match next ch with
             | Some q => page w' = q ∧ heap w' = heap w
             | None =>
                 page w' = length (heap w) ∧
                 heap w' !! page w' =
                   Some (MemChunk None (Some (page w))
                           (block chunklen fill (length (heap w)))) ∧
                 heap w' !! page w = Some (set_next (Some (page w')) ch)
             end) ∧
     (∀ w', retreat chunklen fill w = Some w' →
        if decide (0 <= data w - 1)
        then page w' = page w ∧ data w' = data w - 1 ∧ heap w' = heap w
        else data w' = chunklen - 1 ∧
             match prev ch with
             | Some q => page w' = q ∧ heap w' = heap w
             | None =>
                 page w' = length (heap w) ∧
                 heap w' !! page w' =
                   Some (MemChunk (Some (page w)) None
                           (block chunklen fill (length (heap w)))) ∧
                 heap w' !! page w = Some (set_prev (Some (page w')) ch)
             end)) ∧
  (∀ n line c stack,
     match turns n line w c stack with
     | Next w' _ _ => 0 <= data w' < chunklen
     | Stop o => 0 <= data (outcome_world o) < chunklen
     end).
Proof.
  intros Hw. split; [|split].
  - intros i. destruct (effect_wf i w Hw) as (w' & E & Hw').
    exists w'. split; [done|]. split; [apply Hw'|done].
  - destruct Hw as [[ch Hch] Hd Hh]. exists ch. split; [done|].
    pose proof (lookup_lt_Some _ _ _ Hch) as Hlt. split; intros w'.
    + case_decide as Hin.
      * rewrite advance_inside by done. by intros [= <-].
      * destruct (next ch) as [q|] eqn:Hq.
        -- rewrite (advance_neighbour _ _ _ ch q) by (done || lia).
           by intros [= <-].
        -- rewrite (advance_grow _ _ _ ch) by (done || lia).
           remember (overflow_right chunklen fill (heap w) (page w)).1
             as h' eqn:Eh'.
           intros [= <-]. cbn [heap page data]. subst h'.
           split; [reflexivity|]. split; [reflexivity|].
           rewrite !(overflow_right_lookup _ _ _ _ ch) by done.
           rewrite decide_True by done.
           rewrite decide_False, decide_True by (done || lia). done.
    + case_decide as Hin.
      * rewrite retreat_inside by done. by intros [= <-].
      * destruct (prev ch) as [q|] eqn:Hq.
        -- rewrite (retreat_neighbour _ _ _ ch q) by (done || lia).
           by intros [= <-].
        -- rewrite (retreat_grow _ _ _ ch) by (done || lia).
           remember (overflow_left chunklen fill (heap w) (page w)).1
             as h' eqn:Eh'.
           intros [= <-]. cbn [heap page data]. subst h'.
           split; [reflexivity|]. split; [reflexivity|].
           rewrite !(overflow_left_lookup _ _ _ _ ch) by done.
           rewrite decide_True by done.
           rewrite decide_False, decide_True by (done || lia). done.
  - intros n line c stack. pose proof (turns_wf n line w c stack Hw) as H.
    destruct (turns n line w c stack); apply H.
Qed.

End Exec.

Lemma Forall_repeat_char (P : ascii → Prop) ch n :
  P ch → Forall P (repeat ch n).
Proof. intros H. induction n; simpl; by constructor. Qed.

(** * Walking away and back *)

Section Walks.

Variable chunklen : Z.
Variable fill : nat → nat → Z.

Local Abbreviation wf := (wf chunklen).
Local Abbreviation wf_next := (wf_next chunklen).
Local Abbreviation wf_prev := (wf_prev chunklen).
Local Abbreviation advance := (advance chunklen fill).
Local Abbreviation retreat := (retreat chunklen fill).
Local Abbreviation effects := (effects chunklen fill).
Local Abbreviation execute := (execute chunklen fill).

Lemma effects_app l1 l2 w :
  effects (l1 ++ l2) w = effects l1 w ≫= effects l2.
Proof.
  revert w. induction l1 as [|ch l1 IH]; intros w; [done|].
  simpl. destruct (effect chunklen fill (decode ch) w); [apply IH|done].
Qed.

(** One step right, any amount of growth of the heap, one step left: the
    cursor is back where it was. *)
Lemma retreat_back w w1 w1' :
  wf w → advance w = Some w1 →
  grows (heap w1) (heap w1') → page w1' = page w1 → data w1' = data w1 →
  retreat w1'
  = Some (World (heap w1') (page w) (data w) (stdin w1') (stdout w1')).
Proof.
  intros [[ch Hch] Hd Hh] Hadv G Ep Ed.
  destruct (decide (data w + 1 < chunklen)) as [Hin|Hout].
  - rewrite advance_inside in Hadv by done. injection Hadv as <-.
    simpl in *. rewrite retreat_inside by lia. rewrite Ep, Ed.
    f_equal. f_equal. lia.
  - assert (∃ c1, heap w1 !! page w1 = Some c1 ∧ prev c1 = Some (page w) ∧
                  data w1 = 0) as (c1 & Hc1 & Hp1 & Hd1).
    { destruct (next ch) as [q|] eqn:Hq.
      - rewrite (advance_neighbour _ _ _ ch q) in Hadv by (done || lia).
        injection Hadv as <-. simpl.
        destruct (wf_next _ Hh _ _ _ Hch Hq) as (c1 & ? & ?). eauto.
      - rewrite (advance_grow _ _ _ ch) in Hadv by (done || lia).
        remember (overflow_right chunklen fill (heap w) (page w)).1
          as h' eqn:Eh'.
        injection Hadv as <-. cbn [heap page data]. subst h'.
        rewrite (overflow_right_lookup _ _ _ _ ch), decide_True by done.
        eauto. }
    destruct (G _ _ Hc1) as (c1' & Hc1' & _ & _ & Hprev).
    rewrite <- Ep in Hc1'.
    rewrite (retreat_neighbour _ _ _ c1' (page w)) by (auto || lia).
    f_equal. f_equal. lia.
Qed.

(** The mirror image. *)
Lemma advance_back w w1 w1' :
  wf w → retreat w = Some w1 →
  grows (heap w1) (heap w1') → page w1' = page w1 → data w1' = data w1 →
  advance w1'
  = Some (World (heap w1') (page w) (data w) (stdin w1') (stdout w1')).
Proof.
  intros [[ch Hch] Hd Hh] Hret G Ep Ed.
  destruct (decide (0 <= data w - 1)) as [Hin|Hout].
  - rewrite retreat_inside in Hret by done. injection Hret as <-.
    simpl in *. rewrite advance_inside by lia. rewrite Ep, Ed.
    f_equal. f_equal. lia.
  - assert (∃ c1, heap w1 !! page w1 = Some c1 ∧ next c1 = Some (page w) ∧
                  data w1 = chunklen - 1) as (c1 & Hc1 & Hp1 & Hd1).
    { destruct (prev ch) as [q|] eqn:Hq.
      - rewrite (retreat_neighbour _ _ _ ch q) in Hret by (done || lia).
        injection Hret as <-. simpl.
        destruct (wf_prev _ Hh _ _ _ Hch Hq) as (c1 & ? & ?). eauto.
      - rewrite (retreat_grow _ _ _ ch) in Hret by (done || lia).
        remember (overflow_left chunklen fill (heap w) (page w)).1
          as h' eqn:Eh'.
        injection Hret as <-. cbn [heap page data]. subst h'.
        rewrite (overflow_left_lookup _ _ _ _ ch), decide_True by done.
        eauto. }
    destruct (G _ _ Hc1) as (c1' & Hc1' & _ & Hnext & _).
    rewrite <- Ep in Hc1'.
    rewrite (advance_neighbour _ _ _ c1' (page w)) by (auto || lia).
    f_equal. f_equal. lia.
Qed.

(** [n] steps one way and [n] steps back, across any number of chunk
    boundaries and allocating whatever is missing, end on the chunk and
    offset they started from. *)
Lemma there_and_back (fwd bwd : ascii) n w :
  (fwd = ">"%char ∧ bwd = "<"%char) ∨ (fwd = "<"%char ∧ bwd = ">"%char) →
  wf w →
  ∃ w', effects (repeat fwd n ++ repeat bwd n) w = Some w' ∧
        page w' = page w ∧ data w' = data w ∧ wf w' ∧
        grows (heap w) (heap w').
Proof.
  intros Hdir. revert w. induction n as [|n IH]; intros w Hw.
  - exists w. simpl. eauto using grows_refl.
  - simpl repeat. rewrite (repeat_cons n bwd).
    rewrite <- app_comm_cons, app_assoc. simpl effects.
    destruct Hdir as [[-> ->]|[-> ->]]; simpl decode; simpl effect.
    + destruct (advance_spec chunklen fill w Hw) as (w1 & E1 & Hw1 & G1 & _).
      rewrite E1. simpl. rewrite effects_app.
      destruct (IH w1 Hw1) as (w1' & E & Ep & Ed & Hw1' & G).
      rewrite E. simpl.
      rewrite (retreat_back w w1 w1') by done.
      destruct (retreat_spec chunklen fill w1' Hw1') as (w2 & E2 & Hw2 & G2 & _).
      rewrite (retreat_back w w1 w1') in E2 by done. injection E2 as <-.
      eexists. split; [done|]. simpl in *.
      repeat split; try apply Hw2; eauto using grows_trans.
    + destruct (retreat_spec chunklen fill w Hw) as (w1 & E1 & Hw1 & G1 & _).
      rewrite E1. simpl. rewrite effects_app.
      destruct (IH w1 Hw1) as (w1' & E & Ep & Ed & Hw1' & G).
      rewrite E. simpl.
      rewrite (advance_back w w1 w1') by done.
      destruct (advance_spec chunklen fill w1' Hw1') as (w2 & E2 & Hw2 & G2 & _).
      rewrite (advance_back w w1 w1') in E2 by done. injection E2 as <-.
      eexists. split; [done|]. simpl in *.
      repeat split; try apply Hw2; eauto using grows_trans.
Qed.

(** X22. Crossing chunk boundaries loses nothing, whatever the allocator
    hands out: a byte written, left behind by [n] steps either way and
    come back to by [n] steps the other way, is read back, and the cursor
    is on the chunk and offset it started from. *)
Lemma written_byte_survives_walk (fwd bwd : ascii) n w b fuel :
  (fwd = ">"%char ∧ bwd = "<"%char) ∨ (fwd = "<"%char ∧ bwd = ">"%char) →
  wf w → (n + n < fuel)%nat →
  ∃ w', execute fuel (Some (repeat fwd n ++ repeat bwd n)) (poke b w)
        = Some (Returned w') ∧
        page w' = page w ∧ data w' = data w ∧ cell w' = Some b.
Proof.
  intros Hdir Hw Hf.
  pose proof (poke_wf chunklen b w Hw) as Hwb.
  destruct (there_and_back fwd bwd n _ Hdir Hwb) as (w' & E & Ep & Ed & _ & G).
  exists w'. split; [|split; [done|split; [done|]]].
  - apply execute_plain; [|done|by rewrite length_app, !repeat_length].
    apply Forall_app.
    destruct Hdir as [[-> ->]|[-> ->]]; split; by apply Forall_repeat_char.
  - unfold cell. rewrite Ep, Ed.
    apply (grows_byte_at (heap (poke b w))); [done|].
    by apply (cell_poke chunklen).
Qed.

End Walks.

(** * Coming back *)

Section Returning.

Variable chunklen : Z.
Variable fill : nat → nat → Z.

Local Abbreviation wf := (wf chunklen).
Local Abbreviation wf_heap := (wf_heap chunklen).
Local Abbreviation wf_next := (wf_next chunklen).
Local Abbreviation wf_prev := (wf_prev chunklen).
Local Abbreviation advance := (advance chunklen fill).
Local Abbreviation retreat := (retreat chunklen fill).
Local Abbreviation effects := (effects chunklen fill).
Local Abbreviation execute := (execute chunklen fill).
Local Abbreviation right_step := (right_step chunklen).
Local Abbreviation reach := (reach chunklen).
Local Abbreviation displaced := (displaced chunklen).

Lemma right_step_grows h h' a b :
  grows h h' → right_step h a b → right_step h' a b.
Proof.
  intros G [H|(Hd & Hz & ch & Hch & Hn)]; [by left|right].
  destruct (G _ _ Hch) as (ch' & Hch' & _ & Hn' & _). eauto 10.
Qed.

Lemma reach_grows h h' a b k : grows h h' → reach h a b k → reach h' a b k.
Proof.
  intros G R. induction R as [|b c k R IH St]; [constructor|].
  eapply reach_step; [done|]. by eapply right_step_grows.
Qed.

Lemma displaced_grows h h' a b z :
  grows h h' → displaced h a b z → displaced h' a b z.
Proof.
  unfold displaced. intros G. destruct (0 <=? z); by apply reach_grows.
Qed.

Lemma right_step_fun h a b b' :
  right_step h a b → right_step h a b' → b = b'.
Proof.
  destruct a as [p d], b as [q e], b' as [q' e']. unfold right_step. simpl.
  intros [(-> & ? & -> & ?)|(? & -> & ch & Hch & Hn)]
         [(-> & ? & -> & ?)|(? & -> & ch' & Hch' & Hn')];
    try done; try lia.
  rewrite Hch in Hch'. injection Hch' as <-. congruence.
Qed.

Lemma right_step_inj h a a' c :
  wf_heap h → right_step h a c → right_step h a' c → a = a'.
Proof.
  destruct a as [p d], a' as [p' d'], c as [q e]. unfold right_step. simpl.
  intros Hh [(-> & ? & -> & ?)|(? & -> & ch & Hch & Hn)]
         [(E & ? & E' & ?)|(? & E' & ch' & Hch' & Hn')];
    try lia.
  - subst. f_equal. lia.
  - destruct (wf_next _ Hh _ _ _ Hch Hn) as (c1 & Hc1 & Hp1).
    destruct (wf_next _ Hh _ _ _ Hch' Hn') as (c2 & Hc2 & Hp2).
    rewrite Hc1 in Hc2. injection Hc2 as <-.
    f_equal; [congruence|lia].
Qed.

Lemma reach_0 h a b : reach h a b 0 → b = a.
Proof. by inversion 1. Qed.

Lemma reach_cons h a b c k :
  right_step h a b → reach h b c k → reach h a c (S k).
Proof.
  intros St R. induction R as [|c d k R IH St'].
  - eapply reach_step; [constructor|done].
  - eapply reach_step; [exact IH|done].
Qed.

Lemma reach_uncons h a c k :
  reach h a c (S k) → ∃ b, right_step h a b ∧ reach h b c k.
Proof.
  revert c. induction k as [|k IH]; intros c R.
  - inversion R as [|b c' k' R' St]; subst. inversion R'; subst.
    exists c. split; [done|constructor].
  - inversion R as [|b c' k' R' St]; subst.
    destruct (IH _ R') as (b' & St' & R'').
    exists b'. split; [done|]. by eapply reach_step.
Qed.

Lemma displaced_right h a b c z :
  right_step h b c → displaced h a b z → displaced h a c (z + 1).
Proof.
  unfold displaced. intros St.
  destruct (Z.leb_spec 0 z) as [Hz|Hz].
  - rewrite (proj2 (Z.leb_le 0 (z + 1))) by lia.
    replace (Z.to_nat (z + 1)) with (S (Z.to_nat z)) by lia.
    intros R. by eapply reach_step.
  - replace (Z.to_nat (- z)) with (S (Z.to_nat (- (z + 1)))) by lia.
    intros (b' & St' & R)%reach_uncons.
    assert (b' = c) as -> by (by eapply right_step_fun).
    destruct (Z.leb_spec 0 (z + 1)) as [Hz'|Hz']; [|done].
    replace (Z.to_nat (- (z + 1))) with 0%nat in R by lia.
    replace (Z.to_nat (z + 1)) with 0%nat by lia.
    inversion R; subst. constructor.
Qed.

Lemma displaced_left h a b c z :
  wf_heap h → right_step h c b → displaced h a b z →
  displaced h a c (z - 1).
Proof.
  unfold displaced. intros Hh St.
  destruct (Z.leb_spec 0 z) as [Hz|Hz].
  - destruct (Z.leb_spec 0 (z - 1)) as [Hz'|Hz'].
    + replace (Z.to_nat z) with (S (Z.to_nat (z - 1))) by lia.
      intros R. inversion R as [|b' c' k R' St']; subst.
      assert (b' = c) as -> by (by eapply right_step_inj).
      done.
    + replace (Z.to_nat z) with 0%nat by lia.
      replace (Z.to_nat (- (z - 1))) with 1%nat by lia.
      intros R. inversion R; subst.
      eapply reach_step; [constructor|done].
  - rewrite (proj2 (Z.leb_gt 0 (z - 1))) by lia.
    replace (Z.to_nat (- (z - 1))) with (S (Z.to_nat (- z))) by lia.
    intros R. by eapply reach_cons.
Qed.

(** A move to the right goes to the right neighbour, a move to the left
    to the position whose right neighbour the cursor was on. *)
Lemma advance_right_step w w' :
  wf w → advance w = Some w' →
  right_step (heap w') (cursor w) (cursor w').
Proof.
  intros [[ch Hch] Hd Hh] Hadv. unfold cursor, right_step.
  destruct (decide (data w + 1 < chunklen)) as [Hin|Hout].
  - rewrite advance_inside in Hadv by done. injection Hadv as <-.
    left. simpl. repeat split; lia.
  - destruct (next ch) as [q|] eqn:Hq.
    + rewrite (advance_neighbour chunklen fill w ch q) in Hadv
        by (done || lia).
      injection Hadv as <-. right. simpl.
      split; [lia|]. split; [done|]. eauto.
    + rewrite (advance_grow chunklen fill w ch) in Hadv by (done || lia).
      pose proof (overflow_right_lookup chunklen fill (heap w) (page w) ch
                    (page w) Hch) as L.
      pose proof (lookup_lt_Some _ _ _ Hch) as Hp.
      rewrite decide_False, decide_True in L by (done || lia).
      set (h' := (overflow_right chunklen fill (heap w) (page w)).1) in *.
      clearbody h'. injection Hadv as <-. right. simpl.
      split; [lia|]. split; [done|]. eauto.
Qed.

Lemma retreat_right_step w w' :
  wf w → retreat w = Some w' →
  right_step (heap w') (cursor w') (cursor w).
Proof.
  intros [[ch Hch] Hd Hh] Hret. unfold cursor, right_step.
  destruct (decide (0 <= data w - 1)) as [Hin|Hout].
  - rewrite retreat_inside in Hret by done. injection Hret as <-.
    left. simpl. repeat split; lia.
  - destruct (prev ch) as [q|] eqn:Hq.
    + rewrite (retreat_neighbour chunklen fill w ch q) in Hret
        by (done || lia).
      injection Hret as <-. right. simpl.
      split; [lia|]. split; [lia|].
      destruct (wf_prev _ Hh _ _ _ Hch Hq) as (chq & Hchq & Hn). eauto.
    + rewrite (retreat_grow chunklen fill w ch) in Hret by (done || lia).
      pose proof (overflow_left_lookup chunklen fill (heap w) (page w) ch
                    (length (heap w)) Hch) as L.
      rewrite decide_True in L by done.
      set (h' := (overflow_left chunklen fill (heap w) (page w)).1) in *.
      clearbody h'. injection Hret as <-. right. simpl.
      split; [lia|]. split; [lia|]. eauto.
Qed.

(** A string of moves takes the cursor as far to the right as it has more
    '>' than '<'. *)
Lemma effects_displaced line : ∀ w a z,
  Forall left_or_right line → wf w →
  displaced (heap w) a (cursor w) z →
  ∃ w', effects line w = Some w' ∧ wf w' ∧ grows (heap w) (heap w') ∧
        displaced (heap w') a (cursor w') (z + shift line).
Proof.
  induction line as [|ch line IH]; intros w a z Hl Hw Hz.
  - exists w. simpl. rewrite Z.add_0_r. eauto using grows_refl.
  - apply Forall_cons in Hl as [[-> | ->] Hl]; simpl.
    + destruct (advance_spec chunklen fill w Hw) as (w1 & E1 & Hw1 & G1 & _).
      rewrite E1. simpl.
      destruct (IH w1 a (z + 1) Hl Hw1) as (w' & E & Hw' & G & Hz').
      { eapply displaced_right; [exact (advance_right_step w w1 Hw E1)|].
        by eapply displaced_grows. }
      exists w'. split; [done|]. split; [done|].
      split; [by eapply grows_trans|]. by rewrite Z.add_assoc.
    + destruct (retreat_spec chunklen fill w Hw) as (w1 & E1 & Hw1 & G1 & _).
      rewrite E1. simpl.
      destruct (IH w1 a (z - 1) Hl Hw1) as (w' & E & Hw' & G & Hz').
      { eapply displaced_left;
          [apply Hw1|exact (retreat_right_step w w1 Hw E1)|].
        by eapply displaced_grows. }
      exists w'. split; [done|]. split; [done|].
      split; [by eapply grows_trans|].
      by replace (z + (-1 + shift line)) with (z - 1 + shift line) by lia.
Qed.

(** The walk from a well-formed state: it returns, rewrites no byte, and
    when the string has as many '<' as '>' the cursor is back where it
    was. *)
Lemma walk_back line w fuel :
  Forall left_or_right line → wf w → (length line < fuel)%nat →
  ∃ w', execute fuel (Some line) w = Some (Returned w') ∧
        (∀ p o v, byte_at (heap w) p o = Some v →
                  byte_at (heap w') p o = Some v) ∧
        (page w' = page w → data w' = data w → cell w' = cell w) ∧
        (shift line = 0 → page w' = page w ∧ data w' = data w).
Proof.
  intros Hl Hw Hf.
  destruct (effects_displaced line w (cursor w) 0 Hl Hw)
    as (w' & E & Hw' & G & Hz); [constructor|].
  exists w'. split.
  { apply execute_plain; [|done..].
    eapply Forall_impl; [done|apply left_or_right_plain]. }
  split; [intros p o v; by apply grows_byte_at|].
  split.
  - intros Epage Edata. destruct (cell_is_Some _ _ Hw) as [v Hv].
    rewrite Hv. unfold cell in *. rewrite Epage, Edata.
    by apply (grows_byte_at (heap w)).
  - intros Hs. rewrite Hs in Hz. unfold displaced in Hz. simpl in Hz.
    apply reach_0 in Hz. unfold cursor in Hz. by injection Hz.
Qed.

(** C8. A string made of '>' and '<' only returns normally and rewrites no
    byte of the tape: every byte a chunk held before is still there after.
    So when the string brings the cursor back to the chunk and offset it
    started from, the cell under the cursor reads as before; and a byte b
    written there before the walk is read back as b after it. The cursor
    does come back whenever the string has as many '<' as '>', in any
    order and however many chunk boundaries are crossed or chunks
    allocated on the way. *)
Theorem moves_round_trip line w fuel :
  Forall left_or_right line → wf w → (length line < fuel)%nat →
  ∃ w', execute fuel (Some line) w = Some (Returned w') ∧
        (∀ p o v, byte_at (heap w) p o = Some v →
                  byte_at (heap w') p o = Some v) ∧
        (page w' = page w → data w' = data w → cell w' = cell w) ∧
        (shift line = 0 →
         page w' = page w ∧ data w' = data w ∧ cell w' = cell w) ∧
        ∀ b, ∃ w'', execute fuel (Some line) (poke b w) = Some (Returned w'') ∧
                    (page w'' = page w → data w'' = data w →
                     cell w'' = Some b) ∧
                    (shift line = 0 →
                     page w'' = page w ∧ data w'' = data w ∧
                     cell w'' = Some b).
Proof.
  intros Hl Hw Hf.
  destruct (walk_back line w fuel Hl Hw Hf) as (w' & E & Hkeep & Hcell & Hret).
  exists w'. split; [done|]. split; [done|]. split; [done|].
  split.
  { intros Hs. destruct (Hret Hs) as [Ep Ed]. auto. }
  intros b.
  destruct (walk_back line (poke b w) fuel Hl (poke_wf _ b w Hw) Hf)
    as (w'' & E' & _ & Hcell' & Hret').
  assert (page w'' = page w → data w'' = data w → cell w'' = Some b) as Hb.
  { intros Epage Edata. rewrite <- (cell_poke chunklen b w Hw).
    by apply Hcell'. }
  exists w''. split; [done|]. split; [done|].
  intros Hs. destruct (Hret' Hs) as [Ep Ed]. simpl in Ep, Ed. auto.
Qed.

End Returning.

(** * The forward scan for the matching bracket *)

Section Match.

Lemma int_wrap_small z : - 2 ^ 31 <= z <= INT_MAX → int_wrap z = z.
Proof.
  unfold int_wrap, INT_MAX. intros H. rewrite Z.mod_small by lia. lia.
Qed.

Lemma strlen_cons ch rest :
  ch ≠ NUL → strlen (ch :: rest) = S (strlen rest).
Proof. intros H. simpl. by rewrite (proj2 (Ascii.eqb_neq _ _) H). Qed.

Lemma strlen_le line : (strlen line ≤ length line)%nat.
Proof.
  induction line as [|ch line IH]; simpl; [lia|].
  destruct (Ascii.eqb ch NUL); lia.
Qed.

Lemma nth_drop (l : list ascii) n j d : nth j (drop n l) d = nth (n + j) l d.
Proof.
  revert l. induction n as [|n IH]; intros [|x l]; simpl; try done.
  by destruct j.
Qed.

Lemma scan_post_cons ch rest c0 count res :
  ch ≠ NUL → ¬ (ch = "]"%char ∧ count = O) →
  scan_post rest (S c0) (bump count ch) res →
  scan_post (ch :: rest) c0 count res.
Proof.
  intros Hn Hfirst. unfold scan_post. rewrite strlen_cons by done.
  destruct res as [r|].
  - intros (j & -> & Hj & Hc & Hd & Hmin). exists (S j).
    split; [lia|]. split; [lia|]. split; [done|]. split; [done|].
    intros [|i] Hi; [done|]. apply Hmin. lia.
  - intros Hnone [|i] Hi; [done|]. apply Hnone. lia.
Qed.

Lemma scan_right_spec rest c0 count :
  Z.of_nat count + Z.of_nat (length rest) <= INT_MAX →
  scan_post rest c0 count (scan_right rest c0 (Z.of_nat count)).
Proof.
  revert c0 count. induction rest as [|ch rest IH]; intros c0 count Hb.
  - intros i Hi. simpl in Hi. lia.
  - simpl in Hb. simpl scan_right.
    destruct (Ascii.eqb_spec ch NUL) as [->|Hn].
    { intros i Hi. simpl in Hi. lia. }
    destruct (Ascii.eqb_spec ch "[") as [->|Ho].
    { rewrite int_wrap_small by (unfold INT_MAX in *; lia).
      replace (Z.of_nat count + 1) with (Z.of_nat (S count)) by lia.
      apply scan_post_cons; [done|by intros [? _]|].
      apply IH. lia. }
    destruct (Ascii.eqb_spec ch "]") as [->|Hc].
    { destruct count as [|m].
      - simpl. exists O.
        split; [lia|]. split; [lia|]. split; [done|]. split; [done|].
        intros i Hi. lia.
      - replace (negb (Z.of_nat (S m) =? 0)) with true
          by (symmetry; apply negb_true_iff, Z.eqb_neq; lia).
        rewrite int_wrap_small by (unfold INT_MAX in *; lia).
        replace (Z.of_nat (S m) - 1) with (Z.of_nat m) by lia.
        apply scan_post_cons; [done|by intros [_ ?]|].
        apply IH. lia. }
    apply scan_post_cons; [done|by intros [? _]|].
    replace (bump count ch) with count; [apply IH; lia|].
    unfold bump.
    by rewrite (proj2 (Ascii.eqb_neq _ _) Ho), (proj2 (Ascii.eqb_neq _ _) Hc).
Qed.

(** C7. For a position c holding a '[' (in a string that an int can
    count), match_right answers the first position after c, before the
    terminator, that holds a ']' met while the nesting counter is zero -
    the counter going up at each further '[' and down at each ']' met at a
    non-zero count; it answers NULL exactly when there is no such
    position. *)
Theorem match_right_first_close line c :
  char_at line c = "["%char → Z.of_nat (length line) <= INT_MAX →
  match match_right line c with
  | Some r =>
      (c < r < terminator line c)%nat ∧ closes_at line c r ∧
      ∀ i, (c < i < r)%nat → ¬ closes_at line c i
  | None => ∀ i, (c < i < terminator line c)%nat → ¬ closes_at line c i
  end.
Proof.
  intros _ Hlen.
  assert (Z.of_nat O + Z.of_nat (length (drop (S c) line)) <= INT_MAX) as Hb.
  { rewrite length_drop. lia. }
  pose proof (scan_right_spec (drop (S c) line) (S c) O Hb) as Hs.
  assert (∀ i, (c < i)%nat →
            closes_at line c i ↔
            nth (i - S c) (drop (S c) line) NUL = "]"%char ∧
            depth_from O (drop (S c) line) (i - S c) = O) as Hcl.
  { intros i Hi. unfold closes_at, nesting, char_at. rewrite nth_drop.
    by replace (S c + (i - S c))%nat with i by lia. }
  unfold match_right, terminator. change (Z.of_nat O) with 0 in Hs.
  destruct (scan_right (drop (S c) line) (S c) 0) as [r|]; simpl in Hs.
  - destruct Hs as (j & -> & Hj & Hc & Hd & Hmin).
    split; [lia|]. split.
    + apply Hcl; [lia|].
      by replace (S (c + j) - S c)%nat with j by lia.
    + intros i Hi. rewrite Hcl by lia. apply Hmin. lia.
  - intros i Hi. rewrite Hcl by lia. apply Hs. lia.
Qed.

End Match.

(** * Brackets *)

Section Brackets.

Variable chunklen : Z.
Variable fill : nat → nat → Z.

Local Abbreviation wf := (wf chunklen).
Local Abbreviation step := (step chunklen fill).
Local Abbreviation run := (run chunklen fill).
Local Abbreviation turns := (turns chunklen fill).
Local Abbreviation visited := (visited chunklen fill).
Local Abbreviation execute := (execute chunklen fill).

(** Once the loop has stopped, it has stopped for every larger number of
    turns, and [run] returns that outcome. *)
Lemma turns_stop_run n line w c stack o fuel :
  turns n line w c stack = Stop o → (n ≤ fuel)%nat →
  run fuel line w c stack = Some o.
Proof.
  intros Ht Hf. apply (run_mono _ _ n); [|done].
  by rewrite run_turns, Ht.
Qed.

(** C1, as the code has it. When the loop reaches a '[' on a non-zero cell,
    no diagnostic is reported whether or not a matching ']' exists: the loop
    goes on with the instruction after the '[', having pushed the position
    of the '[' when a match exists and nothing when none exists. The
    unmatched '[' is reported, and the call abandoned in the state reached,
    only when the cell is zero. *)
Theorem open_bracket_without_match line w0 n w c stack v :
  turns n line w0 0%nat [] = Next w c stack →
  char_at line c = "["%char → cell w = Some v →
  (v ≠ 0 →
   turns (S n) line w0 0%nat [] =
     Next w (S c) (match match_right line c with
                   | Some _ => c :: stack
                   | None => stack
                   end)) ∧
  (v = 0 → match_right line c = None →
   ∀ fuel, (n < fuel)%nat →
     execute fuel (Some line) w0 = Some (Reported NoMatchingRight w)).
Proof.
  intros Ht Hch Hv. split.
  - intros Hnz. rewrite turns_S, Ht, (step_open _ _ _ _ _ _ v) by done.
    rewrite (proj2 (Z.eqb_neq _ _) Hnz). by destruct (match_right line c).
  - intros -> Hnone fuel Hf. apply (turns_stop_run (S n)); [|lia].
    rewrite turns_S, Ht, (step_open _ _ _ _ _ _ 0) by done.
    by rewrite Hnone.
Qed.

(** A ']' reached on a non-zero cell with an empty jump stack is reported
    and the call abandoned in the state reached. *)
Lemma close_bracket_nonzero_unmatched line w0 n w c v fuel :
  turns n line w0 0%nat [] = Next w c [] →
  char_at line c = "]"%char → cell w = Some v → v ≠ 0 → (n < fuel)%nat →
  execute fuel (Some line) w0 = Some (Reported NoMatchingLeft w).
Proof.
  intros Ht Hch Hv Hnz Hf. apply (turns_stop_run (S n)); [|lia].
  rewrite turns_S, Ht, (step_close _ _ _ _ _ _ v) by done.
  by rewrite (proj2 (Z.eqb_neq _ _) Hnz).
Qed.

(** On a zero cell the same ']' pops the empty stack. *)
Lemma close_bracket_zero_unmatched line w0 n w c fuel :
  turns n line w0 0%nat [] = Next w c [] →
  char_at line c = "]"%char → cell w = Some 0 → (n < fuel)%nat →
  execute fuel (Some line) w0 = Some (Crashed w).
Proof.
  intros Ht Hch Hv Hf. apply (turns_stop_run (S n)); [|lia].
  by rewrite turns_S, Ht, (step_close _ _ _ _ _ _ 0) by done.
Qed.

(** ** The loop that clears a cell *)

Lemma clear_body n w k :
  wf w → cell w = Some (Z.of_nat (S n)) → Z.of_nat (S n) < 256 →
  run (2 * S n + 1 + k) (prog "[-]") w 1%nat [0%nat]
  = Some (Returned (poke 0 w)).
Proof.
  revert w. induction n as [|n IH]; intros w Hw Hc Hlt.
  - replace (2 * 1 + 1 + k)%nat with (S (S (S k))) by lia.
    rewrite run_S, (step_plain _ _ _ _ _ _ "-"%char) by done.
    simpl effect. rewrite (decrement_spec _ _ Hc). simpl lift. cbv iota.
    change (byte_wrap (Z.of_nat 1 - 1)) with 0.
    pose proof (cell_poke chunklen 0 w Hw) as Hc1.
    rewrite run_S, (step_close _ _ _ _ _ _ 0) by done.
    change (negb (0 =? 0)) with false. cbv iota.
    by rewrite run_S, step_nul.
  - replace (2 * S (S n) + 1 + k)%nat with (S (S (2 * S n + 1 + k))) by lia.
    rewrite run_S, (step_plain _ _ _ _ _ _ "-"%char) by done.
    simpl effect. rewrite (decrement_spec _ _ Hc). simpl lift. cbv iota.
    replace (byte_wrap (Z.of_nat (S (S n)) - 1)) with (Z.of_nat (S n))
      by (rewrite byte_wrap_small; lia).
    pose proof (cell_poke chunklen (Z.of_nat (S n)) w Hw) as Hc1.
    pose proof (poke_wf chunklen (Z.of_nat (S n)) w Hw) as Hw1.
    rewrite run_S, (step_close _ _ _ _ _ _ (Z.of_nat (S n))) by done.
    replace (negb (Z.of_nat (S n) =? 0)) with true
      by (symmetry; apply negb_true_iff, Z.eqb_neq; lia).
    rewrite IH by (done || lia). by rewrite poke_poke.
Qed.

(** C6. The program [-] run on a cell holding any byte v returns normally
    (2v + 2 turns of the loop are enough) and leaves that cell at 0, all
    else unchanged. When the cell holds 0 already nothing changes at all,
    and the only instruction run is the '[' at position 0: the '-' is
    never reached. *)
Theorem clear_loop_terminates w v fuel :
  wf w → cell w = Some v → 0 <= v < 256 →
  (2 * Z.to_nat v + 2 ≤ fuel)%nat →
  ∃ w', execute fuel (Some (prog "[-]")) w = Some (Returned w') ∧
        cell w' = Some 0 ∧ w' = poke 0 w ∧
        (v = 0 → w' = w ∧ visited fuel (prog "[-]") w 0%nat [] = [0%nat]).
Proof.
  intros Hw Hc Hv Hf. exists (poke 0 w).
  split; [|split; [by apply (cell_poke chunklen)|split; [done|]]].
  - destruct (decide (v = 0)) as [->|Hnz].
    + destruct fuel as [|[|k]]; [lia..|]. unfold execute.
      rewrite run_S, (step_open _ _ _ _ _ _ 0) by done.
      change (0 =? 0) with true.
      change (match_right (prog "[-]") 0) with (Some 2%nat). cbv iota.
      rewrite run_S, step_nul by done. by rewrite poke_same.
    + destruct (Z.to_nat v) as [|n] eqn:En; [lia|].
      assert (v = Z.of_nat (S n)) as -> by lia.
      replace fuel with (S (2 * S n + 1 + (fuel - (2 * S n + 2))))%nat by lia.
      unfold execute.
      rewrite run_S, (step_open _ _ _ _ _ _ (Z.of_nat (S n))) by done.
      rewrite (proj2 (Z.eqb_neq _ _) Hnz).
      change (match_right (prog "[-]") 0) with (Some 2%nat). cbv iota.
      apply clear_body; [done|done|lia].
  - intros ->. split; [by apply poke_same|].
    destruct fuel as [|[|k]]; [lia..|].
    rewrite visited_S, (step_open _ _ _ _ _ _ 0) by done.
    change (0 =? 0) with true.
    change (match_right (prog "[-]") 0) with (Some 2%nat). cbv iota.
    by rewrite visited_S, step_nul.
Qed.

End Brackets.

(** * What every run keeps *)

Section Runs.

Variable chunklen : Z.
Variable fill : nat → nat → Z.

Local Abbreviation step := (step chunklen fill).
Local Abbreviation run := (run chunklen fill).
Local Abbreviation turns := (turns chunklen fill).
Local Abbreviation execute := (execute chunklen fill).
Local Abbreviation turn := (turn chunklen fill).

Lemma decode_open ch : decode ch = IOpen → ch = "["%char.
Proof.
  unfold decode.
  repeat match goal with
         | |- context [Ascii.eqb ?a ?b] =>
             destruct (Ascii.eqb_spec a b); try done
         end.
Qed.

Lemma decode_close ch : decode ch = IClose → ch = "]"%char.
Proof.
  unfold decode.
  repeat match goal with
         | |- context [Ascii.eqb ?a ?b] =>
             destruct (Ascii.eqb_spec a b); try done
         end.
Qed.

(** [step] and [turn] say the same. *)
Lemma step_Next line w c stack w' c' stack' :
  step line w c stack = Next w' c' stack' ↔
  char_at line c ≠ NUL ∧ turn line w c stack w' c' stack'.
Proof.
  split.
  - unfold step. destruct (Ascii.eqb_spec (char_at line c) NUL); [done|].
    intros H. split; [done|].
    destruct (decode (char_at line c)) eqn:Hd;
      try (unfold lift in H;
           destruct (effect chunklen fill (decode (char_at line c)) w)
             as [w1|] eqn:He; rewrite Hd in He; simpl in He;
           rewrite He in H; [|done]; injection H as <- <- <-;
           apply turn_plain; [congruence..|by rewrite Hd]).
    + apply decode_open in Hd.
      destruct (cell w) as [v|] eqn:Hv; [|done].
      destruct (Z.eqb_spec v 0) as [->|Hnz];
        destruct (match_right line c) as [r|] eqn:Hr; try done;
        injection H as <- <- <-.
      * by eapply turn_skip.
      * by eapply turn_enter.
      * by eapply turn_stray.
    + apply decode_close in Hd.
      destruct (cell w) as [v|] eqn:Hv; [|done].
      destruct (Z.eqb_spec v 0) as [->|Hnz]; simpl in H;
        destruct stack as [|l s]; try done; injection H as <- <- <-.
      * by eapply turn_leave.
      * by eapply turn_again.
    + injection H as <- <- <-. apply turn_plain; [congruence..|].
      by rewrite Hd.
  - intros [Hn Ht]. unfold step.
    rewrite (proj2 (Ascii.eqb_neq _ _) Hn).
    destruct Ht as [w' Ho Hc He|r Hch Hv Hr|v r Hch Hv Hnz Hr|v Hch Hv Hnz Hr
                   |v l s Hch Hv Hnz ->|l s Hch Hv ->].
    + destruct (decode (char_at line c)); try done;
        simpl in He; unfold lift;
        first [by rewrite He | by injection He as <-].
    + by rewrite Hch, Hv, Hr.
    + rewrite Hch, Hv, Hr. simpl. by rewrite (proj2 (Z.eqb_neq _ _) Hnz).
    + rewrite Hch, Hv, Hr. simpl. by rewrite (proj2 (Z.eqb_neq _ _) Hnz).
    + rewrite Hch, Hv. simpl. by rewrite (proj2 (Z.eqb_neq _ _) Hnz).
    + by rewrite Hch, Hv.
Qed.

(** What holds at the start and is kept by every turn holds throughout. *)
Lemma turns_invariant (P : world → nat → list nat → Prop) line :
  (∀ w c s w' c' s',
     P w c s → char_at line c ≠ NUL → turn line w c s w' c' s' →
     P w' c' s') →
  ∀ n w c s w' c' s',
    P w c s → turns n line w c s = Next w' c' s' → P w' c' s'.
Proof.
  intros Hkeep. induction n as [|n IH]; intros w c s w' c' s' HP.
  - by intros [= <- <- <-].
  - simpl. destruct (step line w c s) as [w1 c1 s1|] eqn:Hs; [|done].
    apply step_Next in Hs as [Hn Ht]. apply IH. by eapply Hkeep.
Qed.

(** ** The instruction pointer stays in the string *)

Lemma char_at_strlen line : char_at line (strlen line) = NUL.
Proof.
  unfold char_at. induction line as [|ch line IH]; [done|]. simpl.
  destruct (Ascii.eqb_spec ch NUL); [done|]. apply IH.
Qed.

Lemma char_at_before line i : (i < strlen line)%nat → char_at line i ≠ NUL.
Proof.
  unfold char_at. revert i. induction line as [|ch line IH]; intros i.
  - simpl. lia.
  - simpl. destruct (Ascii.eqb_spec ch NUL); [lia|].
    destruct i as [|i]; [done|]. intros. apply IH. lia.
Qed.

Lemma before_strlen line c :
  (c ≤ strlen line)%nat → char_at line c ≠ NUL → (c < strlen line)%nat.
Proof.
  intros Hle Hn. destruct (decide (c = strlen line)) as [->|]; [|lia].
  by rewrite char_at_strlen in Hn.
Qed.

Lemma strlen_drop line n :
  (n ≤ strlen line)%nat → strlen (drop n line) = (strlen line - n)%nat.
Proof.
  revert line. induction n as [|n IH]; intros line Hn.
  - rewrite drop_0. lia.
  - destruct line as [|ch line]; [simpl in Hn; lia|]. simpl in *.
    destruct (Ascii.eqb ch NUL); [lia|]. apply IH. lia.
Qed.

Lemma scan_right_bound rest c0 count r :
  scan_right rest c0 count = Some r →
  (c0 ≤ r < c0 + strlen rest)%nat ∧ nth (r - c0) rest NUL = "]"%char.
Proof.
  revert c0 count. induction rest as [|ch rest IH]; intros c0 count; [done|].
  simpl. destruct (Ascii.eqb_spec ch NUL); [done|].
  assert (∀ k, scan_right rest (S c0) k = Some r →
            (c0 ≤ r < c0 + S (strlen rest))%nat ∧
            nth (r - c0) (ch :: rest) NUL = "]"%char) as Rec.
  { intros k Hk. destruct (IH _ _ Hk) as [Hb Hc]. split; [lia|].
    replace (r - c0)%nat with (S (r - S c0)) by lia. done. }
  destruct (Ascii.eqb_spec ch "["); [by apply Rec|].
  destruct (Ascii.eqb_spec ch "]") as [->|]; [|by apply Rec].
  destruct (negb (count =? 0)); [by apply Rec|].
  intros [= <-]. split; [lia|]. by rewrite Nat.sub_diag.
Qed.

Lemma match_right_bound line c r :
  (c < strlen line)%nat → match_right line c = Some r →
  (c < r < strlen line)%nat ∧ char_at line r = "]"%char.
Proof.
  intros Hc Hr. unfold match_right in Hr.
  apply scan_right_bound in Hr as [Hb Hch].
  rewrite strlen_drop in Hb by lia. split; [lia|].
  rewrite nth_drop in Hch. unfold char_at.
  by replace (S c + (r - S c))%nat with r in Hch by lia.
Qed.

Lemma stack_ok_later line c c' stack :
  (c ≤ c')%nat → stack_ok line c stack → stack_ok line c' stack.
Proof.
  destruct stack as [|l s]; [done|]. simpl. intros ? (? & ? & ? & ?).
  repeat split; (done || lia).
Qed.

Lemma ip_ok_turn line w c s w' c' s' :
  (c ≤ strlen line)%nat ∧ stack_ok line c s →
  char_at line c ≠ NUL → turn line w c s w' c' s' →
  (c' ≤ strlen line)%nat ∧ stack_ok line c' s'.
Proof.
  intros [Hc Hs] Hn Ht.
  pose proof (before_strlen _ _ Hc Hn) as Hlt.
  destruct Ht as [w' Ho Hcl He|r Hch Hv Hr|v r Hch Hv Hnz Hr|v Hch Hv Hnz Hr
                 |v l t Hch Hv Hnz ->|l t Hch Hv ->].
  - split; [lia|]. eapply stack_ok_later; [|done]. lia.
  - destruct (match_right_bound _ _ _ Hlt Hr) as [Hb _].
    split; [lia|]. eapply stack_ok_later; [|done]. lia.
  - split; [lia|]. simpl. rewrite Hr. repeat split; eauto.
  - split; [lia|]. eapply stack_ok_later; [|done]. lia.
  - destruct Hs as (Hl & ? & ? & ?). split; [lia|]. simpl.
    repeat split; (done || lia).
  - destruct Hs as (Hl & ? & ? & ?). split; [lia|].
    eapply stack_ok_later; [|done]. lia.
Qed.

(** X1. Along a run of execute the instruction pointer never passes the
    terminator of the string; the jump stack holds positions of '[' that
    have a matching ']', the top one before the instruction pointer and
    each lower one before the one above it. *)
Theorem ip_stays_in_string n line w0 w c stack :
  turns n line w0 0%nat [] = Next w c stack →
  (c ≤ strlen line)%nat ∧ stack_ok line c stack.
Proof.
  apply (turns_invariant
           (λ _ c s, (c ≤ strlen line)%nat ∧ stack_ok line c s)).
  - intros. by eapply ip_ok_turn.
  - split; [lia|done].
Qed.

(** ** Nothing after the terminator is read *)

Lemma char_at_take line n i :
  char_at (take n line) i = if (i <? n)%nat then char_at line i else NUL.
Proof.
  unfold char_at. revert n i. induction line as [|ch line IH]; intros n i.
  - rewrite take_nil. destruct i; by destruct (_ <? _)%nat.
  - destruct n as [|n]; [by destruct i|]. destruct i as [|i]; [done|].
    simpl. rewrite IH. done.
Qed.

Lemma char_at_cut line c :
  (c ≤ strlen line)%nat →
  char_at (take (strlen line) line) c = char_at line c.
Proof.
  intros Hc. rewrite char_at_take.
  destruct (Nat.ltb_spec c (strlen line)); [done|].
  replace c with (strlen line) by lia. by rewrite char_at_strlen.
Qed.

Lemma scan_right_cut rest c0 count :
  scan_right (take (strlen rest) rest) c0 count = scan_right rest c0 count.
Proof.
  revert c0 count. induction rest as [|ch rest IH]; intros c0 count; [done|].
  simpl. destruct (Ascii.eqb_spec ch NUL) as [|Hn]; [done|]. simpl.
  rewrite (proj2 (Ascii.eqb_neq _ _) Hn). by rewrite !IH.
Qed.

Lemma match_right_cut line c :
  (c < strlen line)%nat →
  match_right (take (strlen line) line) c = match_right line c.
Proof.
  intros Hc. unfold match_right.
  rewrite <- (scan_right_cut (drop (S c) line)).
  rewrite strlen_drop, take_drop_commute by lia.
  by replace (S c + (strlen line - S c))%nat with (strlen line) by lia.
Qed.

Lemma step_cut line w c stack :
  (c ≤ strlen line)%nat →
  step (take (strlen line) line) w c stack = step line w c stack.
Proof.
  intros Hc. unfold step. rewrite char_at_cut by done.
  destruct (Ascii.eqb_spec (char_at line c) NUL) as [|Hn]; [done|].
  by rewrite match_right_cut by by apply before_strlen.
Qed.

Lemma run_cut fuel line w c stack :
  (c ≤ strlen line)%nat → stack_ok line c stack →
  run fuel (take (strlen line) line) w c stack = run fuel line w c stack.
Proof.
  revert w c stack. induction fuel as [|k IH]; intros w c stack Hc Hs; [done|].
  rewrite !run_S, step_cut by done.
  destruct (step line w c stack) as [w' c' s'|] eqn:Hstep; [|done].
  apply step_Next in Hstep as [Hn Ht].
  destruct (ip_ok_turn _ _ _ _ _ _ _ (conj Hc Hs) Hn Ht). by apply IH.
Qed.

Lemma execute_cut fuel line w :
  execute fuel (Some line) w
  = execute fuel (Some (take (strlen line) line)) w.
Proof. symmetry. apply run_cut; [lia|done]. Qed.

(** X2. execute depends on the C string only: the characters that follow
    the first NUL of the buffer are never read, so the call does the same
    as on the buffer cut at that NUL. *)
Theorem execute_reads_c_string fuel line w :
  execute fuel (Some line) w
  = execute fuel (Some (take (strlen line) line)) w.
Proof. unfold execute. symmetry. apply run_cut; [lia|done]. Qed.

(** ** The jump stack is the chain of the open loops *)

Lemma balance_app l1 l2 : balance (l1 ++ l2) = balance l1 + balance l2.
Proof. induction l1 as [|ch l1 IH]; simpl; lia. Qed.

Lemma seg_split line a b c :
  (a ≤ b ≤ c)%nat → seg line a c = seg line a b ++ seg line b c.
Proof.
  intros H. unfold seg.
  replace (c - a)%nat with ((b - a) + (c - b))%nat by lia.
  rewrite <- take_take_drop, drop_drop.
  by replace (a + (b - a))%nat with b by lia.
Qed.

Lemma seg_one line a : balance (seg line a (S a)) = weight (char_at line a).
Proof.
  unfold seg, char_at. replace (S a - a)%nat with 1%nat by lia.
  rewrite <- (Nat.add_0_r a) at 2. rewrite <- nth_drop.
  destruct (drop a line) as [|ch rest]; [done|]. simpl. lia.
Qed.

Lemma seg_empty line a : seg line a a = [].
Proof. unfold seg. by rewrite Nat.sub_diag. Qed.

Lemma bal_split line a b c :
  (a ≤ b ≤ c)%nat →
  balance (seg line a c) = balance (seg line a b) + balance (seg line b c).
Proof. intros H. by rewrite (seg_split line a b c), balance_app. Qed.

Lemma bal_step line a b :
  (a ≤ b)%nat →
  balance (seg line a (S b))
  = balance (seg line a b) + weight (char_at line b).
Proof. intros H. rewrite (bal_split line a b (S b)), seg_one by lia. done. Qed.

Lemma weight_open : weight "[" = 1.
Proof. reflexivity. Qed.

Lemma weight_close : weight "]" = -1.
Proof. reflexivity. Qed.

Lemma weight_plain ch :
  ch ≠ "["%char → ch ≠ "]"%char → weight ch = 0.
Proof.
  intros Ho Hc. unfold weight.
  by rewrite (proj2 (Ascii.eqb_neq _ _) Ho), (proj2 (Ascii.eqb_neq _ _) Hc).
Qed.

Lemma weight_ge ch : ch ≠ "]"%char → 0 <= weight ch.
Proof.
  intros Hc. unfold weight. rewrite (proj2 (Ascii.eqb_neq _ _) Hc).
  destruct (Ascii.eqb ch "["); lia.
Qed.

(** What the scan answers, in terms of the balance of what it has passed. *)
Lemma scan_right_balance rest c0 k :
  0 <= k → k + Z.of_nat (length rest) <= INT_MAX →
  match scan_right rest c0 k with
  | Some r =>
      ∃ j, r = (c0 + j)%nat ∧ (j < strlen rest)%nat ∧
           nth j rest NUL = "]"%char ∧ k + balance (take j rest) = 0 ∧
           ∀ i, (i < j)%nat → nth i rest NUL = "]"%char →
                0 < k + balance (take i rest)
  | None =>
      ∀ i, (i < strlen rest)%nat → nth i rest NUL = "]"%char →
           0 < k + balance (take i rest)
  end.
Proof.
  revert c0 k. induction rest as [|ch rest IH]; intros c0 k Hk Hb.
  - intros i Hi. simpl in Hi. lia.
  - simpl in Hb. simpl scan_right.
    destruct (Ascii.eqb_spec ch NUL) as [->|Hn].
    { intros i Hi. simpl in Hi. lia. }
    assert (∀ k', 0 <= k' → k' = k + weight ch →
              (ch = "]"%char → 0 < k) →
              match scan_right rest (S c0) k' with
              | Some r =>
                  ∃ j, r = (c0 + j)%nat ∧ (j < strlen (ch :: rest))%nat ∧
                       nth j (ch :: rest) NUL = "]"%char ∧
                       k + balance (take j (ch :: rest)) = 0 ∧
                       ∀ i, (i < j)%nat → nth i (ch :: rest) NUL = "]"%char →
                            0 < k + balance (take i (ch :: rest))
              | None =>
                  ∀ i, (i < strlen (ch :: rest))%nat →
                       nth i (ch :: rest) NUL = "]"%char →
                       0 < k + balance (take i (ch :: rest))
              end) as Rec.
    { intros k' Hk' Ek' Hfirst. rewrite strlen_cons by done.
      specialize (IH (S c0) k' Hk' ltac:(unfold weight in Ek';
        destruct (Ascii.eqb ch "["), (Ascii.eqb ch "]"); lia)).
      destruct (scan_right rest (S c0) k') as [r|].
      - destruct IH as (j & -> & Hj & Hc & Hbal & Hmin). exists (S j).
        split; [lia|]. split; [lia|]. split; [done|]. simpl.
        split; [lia|]. intros [|i] Hi Hci; simpl in Hci |- *;
          [specialize (Hfirst Hci); lia|].
        specialize (Hmin i ltac:(lia) Hci). lia.
      - intros [|i] Hi Hci; simpl in Hci |- *;
          [specialize (Hfirst Hci); lia|].
        specialize (IH i ltac:(lia) Hci). lia. }
    destruct (Ascii.eqb_spec ch "[") as [->|Ho].
    { rewrite int_wrap_small by (unfold INT_MAX in *; lia).
      apply Rec; [lia|by rewrite weight_open|done]. }
    destruct (Ascii.eqb_spec ch "]") as [->|Hc].
    { destruct (Z.eqb_spec k 0) as [->|Hnz]; simpl.
      - exists O. split; [lia|]. split; [lia|]. split; [done|].
        split; [done|]. intros i Hi. lia.
      - rewrite int_wrap_small by (unfold INT_MAX in *; lia).
        apply Rec; [lia|by rewrite weight_close|lia]. }
    apply Rec; [done|by rewrite weight_plain; [lia|..]|done].
Qed.

(** The same for [match_right], in positions of the string. *)
Lemma match_right_balance line c :
  Z.of_nat (length line) <= INT_MAX →
  match match_right line c with
  | Some r =>
      (c < r < terminator line c)%nat ∧ char_at line r = "]"%char ∧
      balance (seg line (S c) r) = 0 ∧
      ∀ i, (c < i < r)%nat → char_at line i = "]"%char →
           0 < balance (seg line (S c) i)
  | None =>
      ∀ i, (c < i < terminator line c)%nat → char_at line i = "]"%char →
           0 < balance (seg line (S c) i)
  end.
Proof.
  intros Hlen.
  assert (0 + Z.of_nat (length (drop (S c) line)) <= INT_MAX) as Hb.
  { rewrite length_drop. lia. }
  pose proof (scan_right_balance (drop (S c) line) (S c) 0 ltac:(lia) Hb) as Hs.
  assert (∀ i, (c < i)%nat →
            nth (i - S c) (drop (S c) line) NUL = char_at line i) as Hch.
  { intros i Hi. unfold char_at. rewrite nth_drop.
    by replace (S c + (i - S c))%nat with i by lia. }
  unfold match_right, terminator, seg.
  destruct (scan_right (drop (S c) line) (S c) 0) as [r|].
  - destruct Hs as (j & -> & Hj & Hc & Hbal & Hmin).
    replace (S c + j - S c)%nat with j by lia.
    split; [lia|]. split; [rewrite <- Hch by lia;
      by replace (S c + j - S c)%nat with j by lia|].
    split; [lia|]. intros i Hi Hci.
    specialize (Hmin (i - S c)%nat ltac:(lia)). rewrite Hch in Hmin by lia.
    specialize (Hmin Hci). lia.
  - intros i Hi Hci. specialize (Hs (i - S c)%nat ltac:(lia)).
    rewrite Hch in Hs by lia. specialize (Hs Hci). lia.
Qed.

Lemma terminator_strlen line c :
  (c < strlen line)%nat → terminator line c = strlen line.
Proof. intros H. unfold terminator. rewrite strlen_drop by lia. lia. Qed.

(** Where no ']' is met at balance zero, the balance stays non-negative. *)
Lemma bal_nonneg line a e :
  (a ≤ e)%nat →
  (∀ i, (a ≤ i < e)%nat → char_at line i = "]"%char →
        0 < balance (seg line a i)) →
  0 <= balance (seg line a e).
Proof.
  induction e as [|e IH]; intros Hae Hpos.
  - replace a with O by lia. by rewrite seg_empty.
  - destruct (decide (a = S e)) as [->|Hne]; [by rewrite seg_empty|].
    rewrite bal_step by lia.
    assert (0 <= balance (seg line a e)) as Hprev
      by (apply IH; [lia|]; intros i Hi; apply Hpos; lia).
    destruct (Ascii.eqb_spec (char_at line e) "]") as [Hc|Hc].
    + specialize (Hpos e ltac:(lia) Hc). rewrite Hc, weight_close. lia.
    + pose proof (weight_ge _ Hc). lia.
Qed.

(** A '[' met at balance zero inside a closed region has its match inside
    the region, and the balance is zero again just after the match. *)
Lemma inner_match line a e c :
  Z.of_nat (length line) <= INT_MAX →
  (a ≤ c < e)%nat → (e ≤ strlen line)%nat →
  balance (seg line a e) = 0 →
  (∀ i, (a ≤ i < e)%nat → char_at line i = "]"%char →
        0 < balance (seg line a i)) →
  balance (seg line a c) = 0 → char_at line c = "["%char →
  ∃ r, match_right line c = Some r ∧ (c < r < e)%nat ∧
       balance (seg line a (S r)) = 0.
Proof.
  intros Hlen Hc He Hbal Hpos Hzero Hch.
  assert (balance (seg line a (S c)) = 1) as Hone
    by (rewrite bal_step, Hch, weight_open by lia; lia).
  pose proof (match_right_balance line c Hlen) as Hm.
  rewrite terminator_strlen in Hm by lia.
  destruct (match_right line c) as [r|].
  - destruct Hm as (Hr & Hcr & Hbr & Hmin). exists r. split; [done|].
    assert (r < e)%nat as Hre.
    { destruct (decide (r < e)%nat) as [|Hge]; [done|exfalso].
      assert (0 <= balance (seg line (S c) e)) as Hnn.
      { apply bal_nonneg; [lia|]. intros i Hi. apply Hmin. lia. }
      rewrite (bal_split line a (S c) e) in Hbal by lia. lia. }
    split; [lia|].
    rewrite bal_step, (bal_split line a (S c) r), Hcr, weight_close by lia.
    lia.
  - exfalso.
    assert (0 <= balance (seg line (S c) e)) as Hnn.
    { apply bal_nonneg; [lia|]. intros i Hi. apply Hm. lia. }
    rewrite (bal_split line a (S c) e) in Hbal by lia. lia.
Qed.

(** The region between a '[' and its match is closed. *)
Lemma match_region line l r :
  Z.of_nat (length line) <= INT_MAX →
  (l < strlen line)%nat → match_right line l = Some r →
  (l < r < strlen line)%nat ∧ char_at line r = "]"%char ∧
  balance (seg line (S l) r) = 0 ∧
  ∀ i, (S l ≤ i < r)%nat → char_at line i = "]"%char →
       0 < balance (seg line (S l) i).
Proof.
  intros Hlen Hl Hr. pose proof (match_right_balance line l Hlen) as Hm.
  rewrite Hr, terminator_strlen in Hm by done.
  destruct Hm as (? & ? & ? & Hmin).
  split; [lia|]. split; [done|]. split; [done|].
  intros i Hi. apply Hmin. lia.
Qed.

Section ChainKept.

Variable line : list ascii.
Hypothesis Hlen : Z.of_nat (length line) <= INT_MAX.

Variable base : nat → Prop.
Hypothesis base_plain :
  ∀ c, base c → weight (char_at line c) = 0 → base (S c).
Hypothesis base_stray :
  ∀ c, (c < strlen line)%nat → base c → char_at line c = "["%char →
       match_right line c = None → base (S c).
Hypothesis base_loop :
  ∀ c r, (c < strlen line)%nat → base c → char_at line c = "["%char →
         match_right line c = Some r → base (S r).

(** From just after a loop's match the chain below the loop goes on. *)
Lemma chain_past line_l r s :
  (line_l < strlen line)%nat → char_at line line_l = "["%char →
  match_right line line_l = Some r →
  chain base line line_l s → chain base line (S r) s.
Proof.
  intros Hl Hch Hr Hs. destruct s as [|l2 s']; simpl in *.
  - by eapply base_loop.
  - destruct Hs as ((r2 & Hr2 & Hb2) & Hz & Hch2 & Hrest).
    destruct (match_region line l2 r2 Hlen ltac:(lia) Hr2)
      as (Hlr & Hcr & Hbr & Hmin).
    assert (line_l ≠ r2) by (intros ->; congruence).
    destruct (inner_match line (S l2) r2 line_l Hlen ltac:(lia) ltac:(lia)
                Hbr Hmin Hz Hch) as (r' & Hr' & Hb' & Hz').
    assert (r' = r) as -> by congruence.
    split; [exists r2; split; [done|lia]|]. done.
Qed.

Lemma chain_turn w c s w' c' s' :
  (c ≤ strlen line)%nat → chain base line c s →
  char_at line c ≠ NUL → turn line w c s w' c' s' →
  chain base line c' s'.
Proof.
  intros Hc Hs Hn Ht. pose proof (before_strlen _ _ Hc Hn) as Hlt.
  destruct Ht as [w' Ho Hcl He|r Hch Hv Hr|v r Hch Hv Hnz Hr|v Hch Hv Hnz Hr
                 |v l t Hch Hv Hnz ->|l t Hch Hv ->].
  - (* an instruction that is no bracket *)
    assert (weight (char_at line c) = 0) as Hw.
    { apply weight_plain; intros E; rewrite E in *; by compute in Ho, Hcl. }
    destruct s as [|l t]; simpl in *; [by apply base_plain|].
    destruct Hs as ((r & Hr & Hb) & Hz & Hchl & Hrest).
    destruct (match_region line l r Hlen ltac:(lia) Hr) as (_ & Hcr & _).
    assert (c ≠ r) by (intros ->; rewrite Hcr in Hcl; by compute in Hcl).
    split; [exists r; split; [done|lia]|].
    split; [|done]. rewrite bal_step by lia. lia.
  - (* a loop skipped *)
    by apply (chain_past c).
  - (* a loop entered *)
    destruct (match_right_bound _ _ _ Hlt Hr) as [Hb _]. simpl.
    split; [exists r; split; [done|lia]|].
    by rewrite seg_empty.
  - (* a '[' without match *)
    destruct s as [|l t]; simpl in *; [by apply base_stray|exfalso].
    destruct Hs as ((r & Hr' & Hb) & Hz & Hchl & Hrest).
    destruct (match_region line l r Hlen ltac:(lia) Hr')
      as (Hlr & Hcr & Hbr & Hmin).
    assert (c ≠ r) by (intros ->; congruence).
    destruct (inner_match line (S l) r c Hlen ltac:(lia) ltac:(lia)
                Hbr Hmin Hz Hch) as (r' & Hr'' & _). congruence.
  - (* back to the top of the stack *)
    simpl in *. destruct Hs as ((r & Hr & Hb) & Hz & Hchl & Hrest).
    destruct (match_region line l r Hlen ltac:(lia) Hr) as (Hlr & _).
    split; [exists r; split; [done|lia]|]. by rewrite seg_empty.
  - (* the loop left *)
    simpl in Hs. destruct Hs as ((r & Hr & Hb) & Hz & Hchl & Hrest).
    destruct (match_region line l r Hlen ltac:(lia) Hr)
      as (Hlr & Hcr & Hbr & Hmin).
    assert (c = r) as ->.
    { destruct (decide (c = r)) as [|Hne]; [done|exfalso].
      specialize (Hmin c ltac:(lia) Hch). lia. }
    apply (chain_past l); [lia|done..].
Qed.

(** A ']' reached under a non-empty stack is the match of the top entry. *)
Lemma chain_close c l s :
  (c ≤ strlen line)%nat → chain base line c (l :: s) →
  char_at line c = "]"%char → match_right line l = Some c.
Proof.
  intros Hc Hs Hch. simpl in Hs.
  destruct Hs as ((r & Hr & Hb) & Hz & Hchl & Hrest).
  destruct (match_region line l r Hlen ltac:(lia) Hr)
    as (Hlr & Hcr & Hbr & Hmin).
  destruct (decide (c = r)) as [->|Hne]; [done|exfalso].
  specialize (Hmin c ltac:(lia) Hch). lia.
Qed.

(** A '[' reached inside a loop of the stack has a match. *)
Lemma chain_open c l s :
  (c < strlen line)%nat → chain base line c (l :: s) →
  char_at line c = "["%char → is_Some (match_right line c).
Proof.
  intros Hc Hs Hch. simpl in Hs.
  destruct Hs as ((r & Hr & Hb) & Hz & Hchl & Hrest).
  destruct (match_region line l r Hlen ltac:(lia) Hr)
    as (Hlr & Hcr & Hbr & Hmin).
  assert (c ≠ r) by (intros ->; congruence).
  destruct (inner_match line (S l) r c Hlen ltac:(lia) ltac:(lia)
              Hbr Hmin Hz Hch) as (r' & Hr' & _). eauto.
Qed.

End ChainKept.

(** ** Well-bracketed programs *)

Lemma well_bracketed_base line :
  Z.of_nat (length line) <= INT_MAX → well_bracketed line →
  ∀ c, (c < strlen line)%nat → balance (seg line 0 c) = 0 →
       char_at line c = "["%char →
       ∃ r, match_right line c = Some r ∧ (c < r < strlen line)%nat ∧
            balance (seg line 0 (S r)) = 0.
Proof.
  intros Hlen [Hpos Hbal] c Hc Hz Hch.
  apply (inner_match line 0 (strlen line) c); try (done || lia).
  intros i Hi. apply Hpos. lia.
Qed.

Lemma well_bracketed_kept line w c s w' c' s' :
  Z.of_nat (length line) <= INT_MAX → well_bracketed line →
  (c ≤ strlen line)%nat →
  chain (λ c, balance (seg line 0 c) = 0) line c s →
  char_at line c ≠ NUL → turn line w c s w' c' s' →
  chain (λ c, balance (seg line 0 c) = 0) line c' s'.
Proof.
  intros Hlen Hwb Hc Hs Hn Hturn.
  apply (chain_turn line Hlen (λ c, balance (seg line 0 c) = 0))
    with (w := w) (c := c) (s := s) (w' := w'); try done.
  - intros c0 Hz Hw. rewrite bal_step by lia. lia.
  - intros c0 Hc0 Hz Hch Hnone.
    destruct (well_bracketed_base line Hlen Hwb c0 Hc0 Hz Hch)
      as (r & Hr & _). congruence.
  - intros c0 r Hc0 Hz Hch Hr.
    destruct (well_bracketed_base line Hlen Hwb c0 Hc0 Hz Hch)
      as (r' & Hr' & _ & Hz'). congruence.
Qed.

(** A call that ends has made some turns and then stopped. *)
Lemma run_Some_inv fuel line w c s o :
  run fuel line w c s = Some o →
  ∃ n w' c' s', turns n line w c s = Next w' c' s' ∧
                step line w' c' s' = Stop o.
Proof.
  revert w c s. induction fuel as [|k IH]; intros w c s; [done|].
  rewrite run_S. destruct (step line w c s) as [w1 c1 s1|o1] eqn:Hs.
  - intros Hr. destruct (IH _ _ _ Hr) as (n & w' & c' & s' & Ht & Ho).
    exists (S n), w', c', s'. simpl. by rewrite Hs.
  - intros [= ->]. by exists O, w, c, s.
Qed.

(** On a well-formed tape, in a well-bracketed string, the loop stops only
    at the terminator. *)
Lemma well_bracketed_stop line w c s o :
  Z.of_nat (length line) <= INT_MAX → well_bracketed line →
  wf chunklen w → (c ≤ strlen line)%nat →
  chain (λ c, balance (seg line 0 c) = 0) line c s →
  step line w c s = Stop o → o = Returned w.
Proof.
  intros Hlen Hwb Hw Hc Hs. unfold step.
  destruct (Ascii.eqb_spec (char_at line c) NUL) as [|Hn];
    [by intros [= <-]|].
  pose proof (before_strlen _ _ Hc Hn) as Hlt.
  destruct (cell_is_Some _ _ Hw) as [v Hv]. rewrite Hv.
  destruct (decode (char_at line c)) eqn:Hd;
    try (destruct (effect_wf chunklen fill (decode (char_at line c)) w Hw)
           as (w' & He & _); rewrite Hd in He; simpl in He;
         by rewrite He).
  - apply decode_open in Hd.
    assert (is_Some (match_right line c)) as [r Hr].
    { destruct s as [|l t].
      - simpl in Hs.
        destruct (well_bracketed_base line Hlen Hwb c Hlt Hs Hd)
          as (r & Hr & _). eauto.
      - by eapply (chain_open line Hlen). }
    rewrite Hr. by destruct (v =? 0).
  - apply decode_close in Hd.
    destruct s as [|l t]; [exfalso|by destruct (negb (v =? 0))].
    simpl in Hs. destruct Hwb as [Hpos _].
    specialize (Hpos c Hlt Hd). lia.
  - done.
Qed.

(** X4. A well-bracketed program (every ']' closes an earlier '[', every
    '[' is closed) run on a well-formed tape cannot fail: if the call ends
    at all, it returns normally - no diagnostic, no failed assertion, no
    bad pointer - and leaves the tape well-formed. *)
Theorem well_bracketed_never_fails fuel line w o :
  Z.of_nat (length line) <= INT_MAX → well_bracketed line →
  wf chunklen w →
  execute fuel (Some line) w = Some o →
  ∃ w', o = Returned w' ∧ wf chunklen w'.
Proof.
  intros Hlen Hwb Hw Hrun.
  destruct (run_Some_inv _ _ _ _ _ _ Hrun) as (n & w' & c' & s' & Ht & Ho).
  assert (wf chunklen w' ∧
          ((c' ≤ strlen line)%nat ∧ stack_ok line c' s') ∧
          chain (λ c, balance (seg line 0 c) = 0) line c' s')
    as (Hw' & [Hc' _] & Hs').
  { revert Ht.
    apply (turns_invariant
             (λ w c s, wf chunklen w ∧
                       ((c ≤ strlen line)%nat ∧ stack_ok line c s) ∧
                       chain (λ c, balance (seg line 0 c) = 0) line c s)).
    - intros w1 c1 s1 w2 c2 s2 (Hw1 & Hip & Hs1) Hn Hturn.
      split; [|split; [by eapply ip_ok_turn|]].
      + pose proof (step_wf chunklen fill line w1 c1 s1 Hw1) as Hstep.
        by rewrite (proj2 (step_Next _ _ _ _ _ _ _) (conj Hn Hturn))
          in Hstep.
      + by apply (well_bracketed_kept line w1 c1 s1 w2 c2 s2 Hlen Hwb
                    (proj1 Hip)).
    - split; [done|]. split; [split; [lia|done]|].
      reflexivity. }
  exists w'. split; [|done].
  by eapply well_bracketed_stop.
Qed.

(** ** What a call leaves alone *)

Lemma step_Stop_world line w c s o :
  step line w c s = Stop o → outcome_world o = w.
Proof.
  unfold step, lift. intros H.
  repeat case_match; by simplify_eq/=.
Qed.

(** A relation between states that holds of every instruction holds of
    every call. *)
Lemma run_related (R : world → world → Prop) :
  (∀ w, R w w) → (∀ w1 w2 w3, R w1 w2 → R w2 w3 → R w1 w3) →
  (∀ i w w', effect chunklen fill i w = Some w' → R w w') →
  ∀ fuel line w c s o,
    run fuel line w c s = Some o → R w (outcome_world o).
Proof.
  intros Hrefl Htrans Heff fuel line w c s o Hrun.
  destruct (run_Some_inv _ _ _ _ _ _ Hrun) as (n & w' & c' & s' & Ht & Ho).
  rewrite (step_Stop_world _ _ _ _ _ Ho). clear Hrun Ho.
  revert w c s Ht. induction n as [|n IH]; intros w c s.
  - by intros [= <- <- <-].
  - simpl. destruct (step line w c s) as [w1 c1 s1|] eqn:Hs; [|done].
    intros Ht. apply (Htrans _ w1); [|by eapply IH].
    apply step_Next in Hs as [_ Hturn].
    destruct Hturn; eauto.
Qed.

Lemma effect_streams i w w' :
  effect chunklen fill i w = Some w' →
  stdout w `prefix_of` stdout w' ∧ stdin w' `suffix_of` stdin w.
Proof.
  destruct i; simpl.
  - unfold advance. intros H.
    destruct (chunklen <=? data w + 1); [|by simplify_eq/=].
    destruct (heap w !! page w) as [ch|]; [simpl in H|done].
    destruct (next ch); [by simplify_eq/=|].
    destruct (overflow_right chunklen fill (heap w) (page w)).
    by simplify_eq/=.
  - unfold retreat. intros H.
    destruct (data w - 1 <? 0); [|by simplify_eq/=].
    destruct (heap w !! page w) as [ch|]; [simpl in H|done].
    destruct (prev ch); [by simplify_eq/=|].
    destruct (overflow_left chunklen fill (heap w) (page w)).
    by simplify_eq/=.
  - unfold increment. intros H. destruct (cell w); by simplify_eq/=.
  - unfold decrement. intros H. destruct (cell w); by simplify_eq/=.
  - unfold output. intros H. destruct (cell w); simplify_eq/=.
    split; [by apply prefix_app_r|done].
  - unfold input, getchar, store. intros H.
    destruct (stdin w) as [|b rest] eqn:Hin; simpl in *;
      destruct (cell _); simplify_eq/=; rewrite ?Hin; [done|].
    split; [done|]. by apply suffix_cons_r.
  - by intros [= <-].
  - by intros [= <-].
  - by intros [= <-].
Qed.

(** X5. Whatever the program and however the call ends, execute only
    appends to the output and only takes bytes from the front of the
    input: what was printed before the call is a prefix of what is printed
    after it, and the input left is a suffix of the input before. *)
Theorem streams_only_advance fuel line w o :
  execute fuel (Some line) w = Some o →
  stdout w `prefix_of` stdout (outcome_world o) ∧
  stdin (outcome_world o) `suffix_of` stdin w.
Proof.
  apply (run_related
           (λ w w', stdout w `prefix_of` stdout w' ∧
                    stdin w' `suffix_of` stdin w)).
  - done.
  - intros w1 w2 w3 [? ?] [? ?]. split; by etrans.
  - apply effect_streams.
Qed.

Lemma extends_refl h : extends h h.
Proof. intros p ch Hp. eauto 10. Qed.

Lemma extends_trans h1 h2 h3 : extends h1 h2 → extends h2 h3 → extends h1 h3.
Proof.
  intros H12 H23 p ch Hp.
  destruct (H12 _ _ Hp) as (ch2 & Hp2 & Hm2 & Hn2 & Hv2).
  destruct (H23 _ _ Hp2) as (ch3 & Hp3 & Hm3 & Hn3 & Hv3).
  exists ch3. repeat split; [done|congruence|auto..].
Qed.

Lemma grows_extends h h' : grows h h' → extends h h'.
Proof.
  intros G p ch Hp. destruct (G _ _ Hp) as (ch' & ? & Hm & ? & ?).
  exists ch'. rewrite Hm. done.
Qed.

Lemma poke_extends v w : extends (heap w) (heap (poke v w)).
Proof.
  intros p ch Hp. simpl. rewrite list_lookup_alter.
  case_decide; [subst; rewrite Hp|]; eexists; (split; [done|]); simpl.
  - by rewrite length_insert.
  - done.
Qed.

Lemma effect_extends i w w' :
  effect chunklen fill i w = Some w' →
  extends (heap w) (heap w') ∧ (length (heap w) ≤ length (heap w'))%nat.
Proof.
  assert (∀ v, (length (heap w) ≤ length (heap (poke v w)))%nat) as Hlen
    by (intros v; simpl; by rewrite length_alter).
  destruct i; simpl.
  - unfold advance. intros H.
    destruct (chunklen <=? data w + 1);
      [|simplify_eq/=; by split; [apply extends_refl|]].
    destruct (heap w !! page w) as [ch|] eqn:Hch; [simpl in H|done].
    destruct (next ch) as [q|] eqn:Hq;
      [simplify_eq/=; by split; [apply extends_refl|]|].
    remember (overflow_right chunklen fill (heap w) (page w)) as hn eqn:Eh.
    destruct hn as [h' new]. injection H as <-. cbn [heap].
    replace h' with (overflow_right chunklen fill (heap w) (page w)).1
      by by rewrite <- Eh.
    split; [by eapply grows_extends, overflow_right_grows|].
    unfold overflow_right, alloc_memchunk. simpl.
    rewrite !length_alter, length_app. simpl. lia.
  - unfold retreat. intros H.
    destruct (data w - 1 <? 0);
      [|simplify_eq/=; by split; [apply extends_refl|]].
    destruct (heap w !! page w) as [ch|] eqn:Hch; [simpl in H|done].
    destruct (prev ch) as [q|] eqn:Hq;
      [simplify_eq/=; by split; [apply extends_refl|]|].
    remember (overflow_left chunklen fill (heap w) (page w)) as hn eqn:Eh.
    destruct hn as [h' new]. injection H as <-. cbn [heap].
    replace h' with (overflow_left chunklen fill (heap w) (page w)).1
      by by rewrite <- Eh.
    split; [by eapply grows_extends, overflow_left_grows|].
    unfold overflow_left, alloc_memchunk. simpl.
    rewrite !length_alter, length_app. simpl. lia.
  - unfold increment. intros H. destruct (cell w); simplify_eq/=.
    split; [apply poke_extends|apply Hlen].
  - unfold decrement. intros H. destruct (cell w); simplify_eq/=.
    split; [apply poke_extends|apply Hlen].
  - unfold output. intros H. destruct (cell w); simplify_eq/=.
    by split; [apply extends_refl|].
  - unfold input, getchar, store. intros H.
    destruct (stdin w) as [|b rest]; simpl in *;
      destruct (cell _); simplify_eq/=.
    + split; [exact (poke_extends _ w)|apply Hlen].
    + split; [exact (poke_extends _ w)|apply Hlen].
  - intros [= <-]. by split; [apply extends_refl|].
  - intros [= <-]. by split; [apply extends_refl|].
  - intros [= <-]. by split; [apply extends_refl|].
Qed.

(** X6. Whatever the program and however the call ends, execute frees,
    shrinks and relinks nothing: every chunk that was there is still at its
    address, with a block of the same length and with the neighbours it
    had; chunks are only added. *)
Theorem heap_only_grows fuel line w o :
  execute fuel (Some line) w = Some o →
  extends (heap w) (heap (outcome_world o)) ∧
  (length (heap w) ≤ length (heap (outcome_world o)))%nat.
Proof.
  apply (run_related
           (λ w w', extends (heap w) (heap w') ∧
                    (length (heap w) ≤ length (heap w'))%nat)).
  - intros w0. by split; [apply extends_refl|].
  - intros w1 w2 w3 [? ?] [? ?]. split; [by eapply extends_trans|lia].
  - apply effect_extends.
Qed.

(** ** Reading the input *)

Lemma input_result w :
  wf chunklen w →
  ∃ w1, input w = Some w1 ∧ wf chunklen w1 ∧
        cell w1 = Some (byte_wrap (nth 0 (stdin w) EOF)) ∧
        stdin w1 = drop 1 (stdin w) ∧ stdout w1 = stdout w.
Proof.
  intros Hw. rewrite (input_spec chunklen) by done.
  pose proof (getchar_wf _ _ Hw) as Hg.
  eexists. split; [done|]. split; [by apply poke_wf|].
  split; [rewrite (cell_poke chunklen) by done|];
    unfold getchar; destruct (stdin w) eqn:E; simpl; by rewrite ?E.
Qed.

Lemma effects_reads k w :
  wf chunklen w →
  ∃ w', effects chunklen fill (repeat ","%char (S k)) w = Some w' ∧
        wf chunklen w' ∧
        cell w' = Some (byte_wrap (nth k (stdin w) EOF)) ∧
        stdin w' = drop (S k) (stdin w) ∧ stdout w' = stdout w.
Proof.
  revert w. induction k as [|k IH]; intros w Hw;
    destruct (input_result w Hw) as (w1 & E1 & Hw1 & Hc1 & Hi1 & Ho1).
  - exists w1. simpl. rewrite E1. done.
  - destruct (IH w1 Hw1) as (w' & E & Hw' & Hc & Hi & Ho).
    exists w'. change (repeat ","%char (S (S k)))
      with (","%char :: repeat ","%char (S k)).
    simpl effects. simpl decode. simpl effect. rewrite E1. simpl.
    split; [done|]. split; [done|].
    rewrite Hc, Hi, Hi1, Ho, Ho1, drop_drop.
    split; [|done]. f_equal. f_equal.
    destruct (stdin w) as [|b rest]; [by destruct k|done].
Qed.

(** X7. A run of k+1 ',' instructions on a well-formed tape takes k+1 bytes
    off the input and leaves the last of them in the current cell; where
    the input has run out the byte stored is 255, the value of EOF as a
    char, and the input stays empty. Nothing is printed. *)
Theorem reads_take_input_in_order k w fuel :
  wf chunklen w → (S k < fuel)%nat →
  ∃ w', execute fuel (Some (repeat ","%char (S k))) w = Some (Returned w') ∧
        cell w' = Some (byte_wrap (nth k (stdin w) EOF)) ∧
        stdin w' = drop (S k) (stdin w) ∧ stdout w' = stdout w ∧
        ((length (stdin w) ≤ k)%nat → cell w' = Some 255 ∧ stdin w' = []).
Proof.
  intros Hw Hf. destruct (effects_reads k w Hw) as (w' & E & _ & Hc & Hi & Ho).
  exists w'. split; [|split; [done|split; [done|split; [done|]]]].
  - apply execute_plain; [|done|by rewrite repeat_length].
    by apply Forall_repeat_char.
  - intros Hshort. rewrite Hc, Hi.
    rewrite nth_overflow by done. by rewrite drop_ge by lia.
Qed.

(** ** Comments are transparent *)

Lemma keep_app l1 l2 : keep (l1 ++ l2) = keep l1 ++ keep l2.
Proof.
  induction l1 as [|ch l1 IH]; [done|]. simpl.
  destruct (instruction ch); simpl; by rewrite IH.
Qed.

Lemma lookup_char_at line c :
  (c < length line)%nat → line !! c = Some (char_at line c).
Proof.
  intros Hc. unfold char_at. rewrite nth_lookup.
  by destruct (lookup_lt_is_Some_2 line c Hc) as [x ->].
Qed.

Lemma strlen_cut line :
  strlen (take (strlen line) line) = length (take (strlen line) line).
Proof.
  induction line as [|ch line IH]; [done|]. simpl.
  destruct (Ascii.eqb_spec ch NUL) as [|Hn]; [done|]. simpl.
  rewrite (proj2 (Ascii.eqb_neq _ _) Hn). by rewrite IH.
Qed.

Lemma nul_free_cons ch rest :
  strlen (ch :: rest) = length (ch :: rest) →
  ch ≠ NUL ∧ strlen rest = length rest.
Proof.
  simpl. destruct (Ascii.eqb_spec ch NUL); [done|]. intros. split; [done|lia].
Qed.

Lemma instruction_nul : instruction NUL = false.
Proof. reflexivity. Qed.

Lemma kept_before_S line c :
  (c < length line)%nat →
  kept_before line (S c)
  = if instruction (char_at line c) then S (kept_before line c)
    else kept_before line c.
Proof.
  intros Hc. unfold kept_before.
  rewrite (take_S_r _ _ _ (lookup_char_at _ _ Hc)), keep_app, length_app.
  simpl. destruct (instruction (char_at line c)); simpl; lia.
Qed.

Lemma kept_before_length line : kept_before line (length line) = length (keep line).
Proof. unfold kept_before. by rewrite take_ge. Qed.

Lemma keep_middle line c :
  (c < length line)%nat → instruction (char_at line c) = true →
  keep line
  = keep (take c line) ++ char_at line c :: keep (drop (S c) line).
Proof.
  intros Hc Hi.
  rewrite <- (take_drop_middle _ _ _ (lookup_char_at _ _ Hc)) at 1.
  rewrite keep_app. simpl. by rewrite Hi.
Qed.

Lemma char_at_keep line c :
  (c < length line)%nat → instruction (char_at line c) = true →
  char_at (keep line) (kept_before line c) = char_at line c.
Proof.
  intros Hc Hi. rewrite (keep_middle line c) by done. apply char_at_middle.
Qed.

Lemma drop_keep line c :
  (c < length line)%nat → instruction (char_at line c) = true →
  drop (S (kept_before line c)) (keep line) = keep (drop (S c) line).
Proof.
  intros Hc Hi. rewrite (keep_middle line c) by done.
  unfold kept_before. rewrite (cons_middle _ (keep (take c line))), app_assoc.
  apply drop_app_length'. rewrite length_app. simpl. lia.
Qed.

(** The scan passes over comments. *)
Lemma scan_right_keep rest c0 c0' k :
  strlen rest = length rest →
  scan_right (keep rest) c0' k
  = (λ r, (c0' + kept_before rest (r - c0))%nat) <$> scan_right rest c0 k.
Proof.
  revert c0 c0' k. induction rest as [|ch rest IH]; intros c0 c0' k Hnf;
    [done|].
  apply nul_free_cons in Hnf as [Hn Hnf].
  assert (∀ k' r, scan_right rest (S c0) k' = Some r →
            kept_before (ch :: rest) (r - c0)
            = if instruction ch then S (kept_before rest (r - S c0))
              else kept_before rest (r - S c0)) as Hshift.
  { intros k' r Hr. apply scan_right_bound in Hr as [Hb _].
    replace (r - c0)%nat with (S (r - S c0)) by lia.
    unfold kept_before. simpl. by destruct (instruction ch). }
  assert (∀ k', (if instruction ch then scan_right (keep rest) (S c0') k'
                 else scan_right (keep rest) c0' k')
                = (λ r, (c0' + kept_before (ch :: rest) (r - c0))%nat)
                    <$> scan_right rest (S c0) k') as Rec.
  { intros k'. destruct (scan_right rest (S c0) k') as [r|] eqn:Hr.
    - rewrite (IH (S c0) (S c0') k'), (IH (S c0) c0' k') by done.
      rewrite Hr. simpl. rewrite (Hshift _ _ Hr).
      destruct (instruction ch); f_equal; lia.
    - rewrite (IH (S c0) (S c0') k'), (IH (S c0) c0' k') by done.
      rewrite Hr. by destruct (instruction ch). }
  simpl scan_right at 2. rewrite (proj2 (Ascii.eqb_neq _ _) Hn).
  destruct (Ascii.eqb_spec ch "[") as [->|Ho].
  { simpl. apply (Rec (int_wrap (k + 1))). }
  destruct (Ascii.eqb_spec ch "]") as [->|Hc].
  { simpl. destruct (negb (k =? 0)); [apply (Rec (int_wrap (k - 1)))|].
    simpl. f_equal. rewrite Nat.sub_diag. unfold kept_before. simpl. lia. }
  specialize (Rec k). simpl keep.
  destruct (instruction ch); [|done]. simpl.
  rewrite (proj2 (Ascii.eqb_neq _ _) Hn), (proj2 (Ascii.eqb_neq _ _) Ho),
    (proj2 (Ascii.eqb_neq _ _) Hc). done.
Qed.

Lemma kept_before_split line c r :
  (c ≤ r)%nat →
  kept_before line r
  = (kept_before line c + kept_before (drop c line) (r - c))%nat.
Proof.
  intros H. unfold kept_before.
  replace r with (c + (r - c))%nat at 1 by lia.
  by rewrite <- take_take_drop, keep_app, length_app.
Qed.

Lemma match_right_keep line c :
  strlen line = length line → (c < length line)%nat →
  instruction (char_at line c) = true →
  match_right (keep line) (kept_before line c)
  = kept_before line <$> match_right line c.
Proof.
  intros Hnf Hc Hi. unfold match_right.
  rewrite drop_keep by done.
  assert (strlen (drop (S c) line) = length (drop (S c) line)) as Hnf'.
  { rewrite strlen_drop, length_drop by lia. lia. }
  rewrite (scan_right_keep _ (S c)) by done.
  destruct (scan_right (drop (S c) line) (S c) 0) as [r|] eqn:Hr; [|done].
  simpl. f_equal. apply scan_right_bound in Hr as [Hb _].
  rewrite (kept_before_split line (S c) r) by lia.
  rewrite kept_before_S, Hi by done. lia.
Qed.

Lemma step_keep_instr line w c s :
  strlen line = length line → (c < length line)%nat →
  instruction (char_at line c) = true → stack_ok line c s →
  step (keep line) w (kept_before line c) (kept_before line <$> s)
  = move_trans (kept_before line) (step line w c s).
Proof.
  intros Hnf Hc Hi Hs.
  assert (kept_before line (S c) = S (kept_before line c)) as HS
    by (by rewrite kept_before_S, Hi).
  assert (char_at line c ≠ NUL) as Hn
    by (intros E; rewrite E in Hi; done).
  unfold step. rewrite char_at_keep by done.
  rewrite (proj2 (Ascii.eqb_neq _ _) Hn).
  destruct (decode (char_at line c)) eqn:Hd;
    try (unfold lift; case_match; simpl; by rewrite ?HS).
  - apply decode_open in Hd. rewrite match_right_keep by done.
    destruct (cell w) as [v|]; [|done].
    destruct (match_right line c) as [r|] eqn:Hr; simpl;
      [|destruct (v =? 0); simpl; by rewrite ?HS].
    destruct (match_right_bound line c r ltac:(lia) Hr) as [Hb Hcr].
    assert (kept_before line (S r) = S (kept_before line r)) as HR
      by (rewrite kept_before_S, Hcr by lia; done).
    destruct (v =? 0); simpl; by rewrite ?HS, ?HR.
  - destruct (cell w) as [v|]; [|done].
    destruct s as [|l t]; simpl; [by destruct (negb (v =? 0))|].
    destruct Hs as (Hl & Hcl & _).
    assert (kept_before line (S l) = S (kept_before line l)) as HL
      by (rewrite kept_before_S, Hcl by lia; done).
    destruct (negb (v =? 0)); simpl; by rewrite ?HS, ?HL.
  - unfold instruction in Hi. by rewrite Hd in Hi.
Qed.

Lemma step_comment line w c s :
  strlen line = length line → (c < length line)%nat →
  instruction (char_at line c) = false →
  step line w c s = Next w (S c) s.
Proof.
  intros Hnf Hc Hi. unfold step.
  rewrite (proj2 (Ascii.eqb_neq _ _) (char_at_before line c ltac:(lia))).
  unfold instruction in Hi. by destruct (decode (char_at line c)).
Qed.

Lemma step_keep_end line w s :
  step (keep line) w (kept_before line (length line)) s = Stop (Returned w).
Proof. rewrite kept_before_length. apply step_nul, char_at_end. Qed.

Lemma run_keep fuel line w c s o :
  strlen line = length line → (c ≤ length line)%nat → stack_ok line c s →
  run fuel line w c s = Some o →
  run fuel (keep line) w (kept_before line c) (kept_before line <$> s)
  = Some o.
Proof.
  intros Hnf. revert w c s.
  induction fuel as [|k IH]; intros w c s Hc Hs; [done|].
  destruct (decide (c = length line)) as [->|Hne].
  { by rewrite !run_S, step_keep_end, step_nul by apply char_at_end. }
  destruct (instruction (char_at line c)) eqn:Hi.
  - rewrite !run_S, step_keep_instr by (done || lia).
    destruct (step line w c s) as [w1 c1 s1|o1] eqn:Hstep; [simpl|done].
    apply step_Next in Hstep as [Hn Ht].
    destruct (ip_ok_turn line w c s w1 c1 s1) as [Hc1 Hs1];
      [rewrite Hnf; by split|done..|].
    rewrite Hnf in Hc1. by apply IH.
  - rewrite (run_S _ _ k line), step_comment by (done || lia). intros Hrun.
    apply (run_mono _ _ k); [|lia].
    replace (kept_before line c) with (kept_before line (S c))
      by (rewrite kept_before_S, Hi by lia; done).
    apply IH; [lia| |done]. eapply stack_ok_later; [|done]. lia.
Qed.

Lemma run_unkeep fuel line w c s o :
  strlen line = length line → (c ≤ length line)%nat → stack_ok line c s →
  run fuel (keep line) w (kept_before line c) (kept_before line <$> s)
  = Some o →
  ∃ fuel', run fuel' line w c s = Some o.
Proof.
  intros Hnf. revert w c s.
  induction fuel as [|k IH]; intros w c s Hc Hs; [done|].
  remember (length line - c)%nat as m eqn:Em. revert c Hc Hs Em.
  induction m as [|m IHm]; intros c Hc Hs Em.
  { replace c with (length line) by lia.
    rewrite run_S, step_keep_end. intros [= <-]. exists 1%nat.
    by rewrite run_S, step_nul by apply char_at_end. }
  destruct (instruction (char_at line c)) eqn:Hi.
  - rewrite run_S, step_keep_instr by (done || lia).
    destruct (step line w c s) as [w1 c1 s1|o1] eqn:Hstep; simpl.
    + intros Hrun.
      pose proof Hstep as Hstep'. apply step_Next in Hstep' as [Hn Ht].
      destruct (ip_ok_turn line w c s w1 c1 s1) as [Hc1 Hs1];
        [rewrite Hnf; by split|done..|].
      rewrite Hnf in Hc1.
      destruct (IH _ _ _ Hc1 Hs1 Hrun) as [fuel' Hf].
      exists (S fuel'). by rewrite run_S, Hstep.
    + intros [= <-]. exists 1%nat. by rewrite run_S, Hstep.
  - intros Hrun.
    replace (kept_before line c) with (kept_before line (S c)) in Hrun
      by (rewrite kept_before_S, Hi by lia; done).
    destruct (IHm (S c)) as [fuel' Hf];
      [lia|eapply stack_ok_later; [|done]; lia|lia|done|].
    exists (S fuel'). by rewrite run_S, step_comment by (done || lia).
Qed.

(** X8. Characters that are no instructions are comments: the call on a
    string ends with a given outcome if and only if the call on the string
    without them does. *)
Theorem comments_are_transparent line w o :
  ends chunklen fill line w o ↔ ends chunklen fill (strip line) w o.
Proof.
  unfold ends, strip.
  pose proof (strlen_cut line) as Hnf.
  split; intros [fuel Hrun].
  - rewrite execute_cut in Hrun. exists fuel.
    apply (run_keep fuel (take (strlen line) line) w 0 []); [done|lia|done|].
    exact Hrun.
  - destruct (run_unkeep fuel (take (strlen line) line) w 0 [] o)
      as [fuel' Hf]; [done|lia|done|exact Hrun|].
    exists fuel'. by rewrite execute_cut.
Qed.

(** ** Structured programs *)

Lemma nested_ok_spec l d :
  nested_ok l d = true →
  (∀ i, (i < strlen l)%nat → nth i l NUL = "]"%char →
        0 < d + balance (take i l)) ∧
  d + balance (take (strlen l) l) = 0.
Proof.
  revert d. induction l as [|ch l IH]; intros d; simpl.
  - intros Hd%Z.eqb_eq. split; [intros; lia|lia].
  - destruct (Ascii.eqb_spec ch NUL) as [|Hn].
    { intros Hd%Z.eqb_eq. split; [intros; lia|simpl; lia]. }
    destruct (Ascii.eqb_spec ch "]") as [->|Hc].
    + intros [Hpos Hrest]%andb_prop. apply Z.ltb_lt in Hpos.
      destruct (IH _ Hrest) as [H1 H2]. split.
      * intros [|i] Hi Hci; simpl in Hci |- *; [lia|].
        specialize (H1 i ltac:(lia) Hci). change (weight "]") with (-1). lia.
      * simpl. change (weight "]") with (-1). lia.
    + intros Hrest. destruct (IH _ Hrest) as [H1 H2]. split.
      * intros [|i] Hi Hci; simpl in Hci |- *; [done|].
        specialize (H1 i ltac:(lia) Hci). lia.
      * simpl. lia.
Qed.

Lemma nested_ok_well_bracketed line :
  nested_ok line 0 = true → well_bracketed line.
Proof.
  intros [H1 H2]%nested_ok_spec. unfold well_bracketed, seg, char_at.
  rewrite !drop_0, Nat.sub_0_r. split; [|lia].
  intros i Hi Hci. rewrite Nat.sub_0_r. specialize (H1 i Hi Hci). lia.
Qed.

Lemma plain_not_bracket ch :
  plain ch → ch ≠ NUL ∧ ch ≠ "["%char ∧ ch ≠ "]"%char.
Proof.
  intros (Hn & Ho & Hc). split; [done|]. split; intros ->; done.
Qed.

(** The scan passes over a whole structured program. *)
Lemma scan_right_body b c0 k rest :
  proper b → 0 <= k →
  k + Z.of_nat (length (unparse b ++ rest)) <= INT_MAX →
  scan_right (unparse b ++ rest) c0 k
  = scan_right rest (c0 + length (unparse b)) k.
Proof.
  revert c0 k rest. induction b as [|ch p IH|b1 IH1 p IH]; intros c0 k rest.
  - intros _ _ _. simpl. by rewrite Nat.add_0_r.
  - intros [Hp Hprop] Hk Hb. simpl in *.
    destruct (plain_not_bracket _ Hp) as (Hn & Ho & Hc).
    rewrite (proj2 (Ascii.eqb_neq _ _) Hn), (proj2 (Ascii.eqb_neq _ _) Ho),
      (proj2 (Ascii.eqb_neq _ _) Hc).
    rewrite IH by (done || lia). f_equal. lia.
  - intros [Hb1 Hprop] Hk Hb. cbn [unparse] in Hb.
    rewrite ?length_app, ?length_cons in Hb. cbn [length] in Hb.
    rewrite ?length_app, ?length_cons in Hb. cbn [length] in Hb.
    simpl unparse. rewrite <- app_comm_cons, <- app_assoc.
    simpl scan_right.
    rewrite int_wrap_small by (unfold INT_MAX in *; lia).
    rewrite IH1 by (done || lia || (rewrite length_app; simpl;
                                     rewrite length_app; lia)).
    simpl scan_right.
    replace (negb (k + 1 =? 0)) with true
      by (symmetry; apply negb_true_iff, Z.eqb_neq; lia).
    rewrite int_wrap_small by (unfold INT_MAX in *; lia).
    replace (k + 1 - 1) with k by lia.
    rewrite IH by (done || lia || (rewrite length_app; lia)).
    f_equal. simpl. rewrite length_app. simpl. lia.
Qed.

Lemma match_right_loop pre b rest :
  proper b →
  Z.of_nat (length (pre ++ "["%char :: unparse b ++ "]"%char :: rest))
    <= INT_MAX →
  match_right (pre ++ "["%char :: unparse b ++ "]"%char :: rest) (length pre)
  = Some (length pre + 1 + length (unparse b))%nat.
Proof.
  intros Hb Hlen. unfold match_right.
  replace (drop (S (length pre))
             (pre ++ "["%char :: unparse b ++ "]"%char :: rest))
    with (unparse b ++ "]"%char :: rest).
  2:{ rewrite (cons_middle "["%char pre), app_assoc.
      symmetry. apply drop_app_length'. rewrite length_app. simpl. lia. }
  rewrite length_app in Hlen. simpl in Hlen.
  rewrite scan_right_body by (done || lia). simpl. f_equal. lia.
Qed.

Lemma turns_add n1 n2 line w c s w1 c1 s1 :
  turns n1 line w c s = Next w1 c1 s1 →
  turns (n1 + n2) line w c s = turns n2 line w1 c1 s1.
Proof.
  revert w c s. induction n1 as [|n1 IH]; intros w c s; simpl.
  - by intros [= -> -> ->].
  - destruct (step line w c s); [apply IH|done].
Qed.

Lemma char_at_app line pre ch suf c :
  line = pre ++ ch :: suf → c = length pre → char_at line c = ch.
Proof. intros -> ->. apply char_at_middle. Qed.

Local Abbreviation sem := (sem chunklen fill).

(** The loop follows the structured meaning: through a program written
    anywhere in the string, and on from the ']' of a loop already
    entered. *)
Lemma sem_turns fuel :
  (∀ p w w' line pre suf s,
     line = pre ++ unparse p ++ suf →
     Z.of_nat (length line) <= INT_MAX → proper p →
     sem fuel p w = Some w' →
     ∃ n, turns n line w (length pre) s
          = Next w' (length pre + length (unparse p)) s) ∧
  (∀ b p w w' line pre suf s,
     line = pre ++ "["%char :: unparse b ++ "]"%char :: unparse p ++ suf →
     Z.of_nat (length line) <= INT_MAX → proper b → proper p →
     sem fuel (ALoop b p) w = Some w' →
     ∃ n, turns n line w (length pre + 1 + length (unparse b))
            (length pre :: s)
          = Next w' (length pre + length (unparse (ALoop b p))) s).
Proof.
  induction fuel as [|k [IHp IHl]]; [by split|].
  assert (∀ b p w w' line pre suf s,
            line = pre ++ "["%char :: unparse b ++ "]"%char :: unparse p
                   ++ suf →
            Z.of_nat (length line) <= INT_MAX → proper b → proper p →
            sem k p w = Some w' →
            ∃ n, turns n line w (length pre + 2 + length (unparse b)) s
                 = Next w' (length pre + length (unparse (ALoop b p))) s)
    as After.
  { intros b p w w' line pre suf s Hline Hlen Hb Hp Hsem.
    destruct (IHp p w w' line (pre ++ "["%char :: unparse b ++ ["]"%char])
                suf s) as [n Hn]; try done.
    { rewrite Hline, <- !app_assoc. simpl. by rewrite <- !app_assoc. }
    exists n. etrans; [|etrans; [exact Hn|]]; f_equal;
      repeat (rewrite ?length_app; simpl); lia. }
  assert (∀ b p w w1 w' line pre suf s,
            line = pre ++ "["%char :: unparse b ++ "]"%char :: unparse p
                   ++ suf →
            Z.of_nat (length line) <= INT_MAX → proper b → proper p →
            sem k b w = Some w1 → sem k (ALoop b p) w1 = Some w' →
            ∃ n, turns n line w (S (length pre)) (length pre :: s)
                 = Next w' (length pre + length (unparse (ALoop b p))) s)
    as Body.
  { intros b p w w1 w' line pre suf s Hline Hlen Hb Hp Hsem1 Hsem2.
    destruct (IHp b w w1 line (pre ++ ["["%char])
                ("]"%char :: unparse p ++ suf) (length pre :: s))
      as [n1 Hn1]; try done.
    { rewrite Hline, <- !app_assoc. done. }
    destruct (IHl b p w1 w' line pre suf s) as [n2 Hn2]; try done.
    exists (n1 + n2)%nat.
    replace (S (length pre)) with (length (pre ++ ["["%char]))
      by (rewrite length_app; simpl; lia).
    rewrite (turns_add _ _ _ _ _ _ _ _ _ Hn1).
    etrans; [|exact Hn2]. f_equal.
    repeat (rewrite ?length_app; simpl); lia. }
  split.
  - intros p w w' line pre suf s Hline Hlen Hp Hsem.
    destruct p as [|ch p|b p]; simpl in Hsem.
    + injection Hsem as <-. exists O. simpl. f_equal. lia.
    + destruct Hp as [Hch Hp].
      destruct (effect chunklen fill (decode ch) w) as [w1|] eqn:He; [|done].
      simpl in Hsem.
      destruct (IHp p w1 w' line (pre ++ [ch]) suf s) as [n Hn]; try done.
      { rewrite Hline, <- !app_assoc. done. }
      exists (S n). simpl.
      rewrite (step_plain _ _ _ _ _ _ ch);
        [|by apply (char_at_app line pre ch (unparse p ++ suf))
         |apply Hch..].
      rewrite He. simpl. etrans; [|etrans; [exact Hn|]]; f_equal;
        repeat (rewrite ?length_app; simpl); lia.
    + destruct Hp as [Hb Hp].
      destruct (cell w) as [v|] eqn:Hv; [simpl in Hsem|done].
      simpl in Hline. rewrite <- app_assoc in Hline. simpl in Hline.
      assert (char_at line (length pre) = "["%char) as Hch
        by by eapply char_at_app.
      assert (match_right line (length pre)
              = Some (length pre + 1 + length (unparse b))%nat) as Hm.
      { rewrite Hline. apply match_right_loop; [done|]. by rewrite <- Hline. }
      destruct (Z.eqb_spec v 0) as [->|Hnz].
      * destruct (After b p w w' line pre suf s) as [n Hn]; try done.
        exists (S n). simpl. rewrite (step_open _ _ _ _ _ _ 0) by done.
        rewrite Hm. simpl. etrans; [|exact Hn]. f_equal. lia.
      * destruct (sem k b w) as [w1|] eqn:Hs1; [simpl in Hsem|done].
        destruct (Body b p w w1 w' line pre suf s) as [n Hn]; try done.
        exists (S n). simpl. rewrite (step_open _ _ _ _ _ _ v) by done.
        rewrite Hm, (proj2 (Z.eqb_neq _ _) Hnz). done.
  - intros b p w w' line pre suf s Hline Hlen Hb Hp Hsem. simpl in Hsem.
    destruct (cell w) as [v|] eqn:Hv; [simpl in Hsem|done].
    assert (char_at line (length pre + 1 + length (unparse b)) = "]"%char)
      as Hch.
    { apply (char_at_app _ (pre ++ "["%char :: unparse b) _
               (unparse p ++ suf)).
      - rewrite Hline, <- !app_assoc. done.
      - rewrite length_app. simpl. lia. }
    destruct (Z.eqb_spec v 0) as [->|Hnz].
    + destruct (After b p w w' line pre suf s) as [n Hn]; try done.
      exists (S n). simpl. rewrite (step_close _ _ _ _ _ _ 0) by done.
      simpl. etrans; [|exact Hn]. f_equal. lia.
    + destruct (sem k b w) as [w1|] eqn:Hs1; [simpl in Hsem|done].
      destruct (Body b p w w1 w' line pre suf s) as [n Hn]; try done.
      exists (S n). simpl. rewrite (step_close _ _ _ _ _ _ v) by done.
      by rewrite (proj2 (Z.eqb_neq _ _) Hnz).
Qed.

Lemma sem_mono n n' p w w' :
  sem n p w = Some w' → (n ≤ n')%nat → sem n' p w = Some w'.
Proof.
  revert n' p w w'. induction n as [|n IH]; intros n' p w w'; [done|].
  destruct n' as [|n']; [lia|]. intros Hs Hle. simpl in *.
  destruct p as [|ch p|b p].
  - done.
  - destruct (effect chunklen fill (decode ch) w); [simpl in *|done].
    apply IH; [done|lia].
  - destruct (cell w) as [v|]; [simpl in *|done].
    destruct (v =? 0); [apply IH; [done|lia]|].
    destruct (sem n b w) as [w1|] eqn:Hb; [simpl in Hs|done].
    rewrite (IH n' b w w1) by (done || lia). simpl. apply IH; [done|lia].
Qed.

(** A call that ends has followed the structured meaning: through a
    program written anywhere in the string, and on from the ']' of a loop
    already entered. *)
Lemma run_sem N :
  ∀ N0, (N0 < N)%nat →
  (∀ p w o line pre suf s,
     line = pre ++ unparse p ++ suf →
     Z.of_nat (length line) <= INT_MAX → proper p → wf chunklen w →
     run N0 line w (length pre) s = Some o →
     ∃ n w1 N', sem n p w = Some w1 ∧ wf chunklen w1 ∧ (N' ≤ N0)%nat ∧
       run N' line w1 (length pre + length (unparse p)) s = Some o) ∧
  (∀ b p w o line pre suf s,
     line = pre ++ "["%char :: unparse b ++ "]"%char :: unparse p ++ suf →
     Z.of_nat (length line) <= INT_MAX → proper b → proper p →
     wf chunklen w →
     run N0 line w (length pre + 1 + length (unparse b)) (length pre :: s)
     = Some o →
     ∃ n w1 N', sem n (ALoop b p) w = Some w1 ∧ wf chunklen w1 ∧
       (N' ≤ N0)%nat ∧
       run N' line w1 (length pre + length (unparse (ALoop b p))) s
       = Some o).
Proof.
  induction N as [|N IH]; intros N0 HN0; [lia|].
  destruct N0 as [|k]; [by split|].
  assert (∀ k', (k' ≤ k)%nat → (k' < N)%nat) as Hlt by (intros; lia).
  assert (∀ b p w o line pre suf s k',
            (k' ≤ k)%nat →
            line = pre ++ "["%char :: unparse b ++ "]"%char :: unparse p
                   ++ suf →
            Z.of_nat (length line) <= INT_MAX → proper p → wf chunklen w →
            run k' line w (length pre + 2 + length (unparse b)) s = Some o →
            ∃ n w1 N', sem n p w = Some w1 ∧ wf chunklen w1 ∧
              (N' ≤ k')%nat ∧
              run N' line w1 (length pre + length (unparse (ALoop b p))) s
              = Some o) as After.
  { intros b p w o line pre suf s k' Hk' Hline Hlen Hp Hw Hrun.
    destruct (IH k' (Hlt _ Hk')) as [IHp _].
    destruct (IHp p w o line (pre ++ "["%char :: unparse b ++ ["]"%char])
                suf s) as (n & w1 & N' & Hn & Hw1 & HN' & Hr); try done.
    { rewrite Hline, <- !app_assoc. simpl. by rewrite <- !app_assoc. }
    { etrans; [|exact Hrun]. f_equal.
      repeat (rewrite ?length_app; simpl); lia. }
    exists n, w1, N'. repeat (split; [done|]).
    etrans; [|exact Hr]. f_equal.
    repeat (rewrite ?length_app; simpl); lia. }
  assert (∀ b p w o line pre suf s,
            line = pre ++ "["%char :: unparse b ++ "]"%char :: unparse p
                   ++ suf →
            Z.of_nat (length line) <= INT_MAX → proper b → proper p →
            wf chunklen w →
            run k line w (S (length pre)) (length pre :: s) = Some o →
            ∃ n w1 w2 N', sem n b w = Some w1 ∧
              sem n (ALoop b p) w1 = Some w2 ∧ wf chunklen w2 ∧
              (N' ≤ k)%nat ∧
              run N' line w2 (length pre + length (unparse (ALoop b p))) s
              = Some o) as Body.
  { intros b p w o line pre suf s Hline Hlen Hb Hp Hw Hrun.
    destruct (IH k (Hlt _ (le_n _))) as [IHp _].
    destruct (IHp b w o line (pre ++ ["["%char])
                ("]"%char :: unparse p ++ suf) (length pre :: s))
      as (n1 & w1 & N1 & Hn1 & Hw1 & HN1 & Hr1); try done.
    { rewrite Hline, <- !app_assoc. done. }
    { etrans; [|exact Hrun]. f_equal.
      repeat (rewrite ?length_app; simpl); lia. }
    destruct (IH N1 (Hlt _ HN1)) as [_ IHl].
    destruct (IHl b p w1 o line pre suf s)
      as (n2 & w2 & N2 & Hn2 & Hw2 & HN2 & Hr2); try done.
    { etrans; [|exact Hr1]. f_equal.
      repeat (rewrite ?length_app; simpl); lia. }
    exists (max n1 n2), w1, w2, N2.
    split; [by eapply sem_mono; [|apply Nat.le_max_l]|].
    split; [by eapply sem_mono; [|apply Nat.le_max_r]|].
    split; [done|]. split; [lia|done]. }
  split.
  - intros p w o line pre suf s Hline Hlen Hp Hw Hrun.
    destruct p as [|ch p|b p].
    + exists 1%nat, w, (S k). simpl unparse.
      rewrite Nat.add_0_r. done.
    + destruct Hp as [Hch Hp].
      rewrite run_S, (step_plain _ _ _ _ _ _ ch) in Hrun;
        [|by apply (char_at_app line pre ch (unparse p ++ suf))
         |apply Hch..].
      destruct (effect_wf chunklen fill (decode ch) w Hw) as (w1 & He & Hw1).
      rewrite He in Hrun. simpl in Hrun.
      destruct (IH k (Hlt _ (le_n _))) as [IHp _].
      destruct (IHp p w1 o line (pre ++ [ch]) suf s)
        as (n & w2 & N' & Hn & Hw2 & HN' & Hr); try done.
      { rewrite Hline, <- !app_assoc. done. }
      { etrans; [|exact Hrun]. f_equal.
        repeat (rewrite ?length_app; simpl); lia. }
      exists (S n), w2, N'. simpl. rewrite He. simpl.
      split; [done|]. split; [done|]. split; [lia|].
      etrans; [|exact Hr]. f_equal.
      repeat (rewrite ?length_app; simpl); lia.
    + destruct Hp as [Hb Hp].
      simpl in Hline. rewrite <- app_assoc in Hline. simpl in Hline.
      destruct (cell_is_Some _ _ Hw) as [v Hv].
      assert (char_at line (length pre) = "["%char) as Hch
        by by eapply char_at_app.
      assert (match_right line (length pre)
              = Some (length pre + 1 + length (unparse b))%nat) as Hm.
      { rewrite Hline. apply match_right_loop; [done|]. by rewrite <- Hline. }
      rewrite run_S, (step_open _ _ _ _ _ _ v), Hm in Hrun by done.
      destruct (decide (v = 0)) as [->|Hnz];
        [change (0 =? 0) with true in Hrun
        |rewrite (proj2 (Z.eqb_neq _ _) Hnz) in Hrun]; cbv iota in Hrun.
      * destruct (After b p w o line pre suf s k)
          as (n & w1 & N' & Hn & Hw1 & HN' & Hr); try done.
        { etrans; [|exact Hrun]. f_equal. lia. }
        exists (S n), w1, N'. simpl. rewrite Hv. simpl.
        split; [done|]. split; [done|]. split; [lia|done].
      * destruct (Body b p w o line pre suf s)
          as (n & w1 & w2 & N' & Hn1 & Hn2 & Hw2 & HN' & Hr); try done.
        exists (S n), w2, N'. simpl. rewrite Hv. simpl.
        rewrite (proj2 (Z.eqb_neq _ _) Hnz), Hn1. simpl.
        split; [done|]. split; [done|]. split; [lia|done].
  - intros b p w o line pre suf s Hline Hlen Hb Hp Hw Hrun.
    destruct (cell_is_Some _ _ Hw) as [v Hv].
    assert (char_at line (length pre + 1 + length (unparse b)) = "]"%char)
      as Hch.
    { apply (char_at_app _ (pre ++ "["%char :: unparse b) _
               (unparse p ++ suf)).
      - rewrite Hline, <- !app_assoc. done.
      - rewrite length_app. simpl. lia. }
    rewrite run_S, (step_close _ _ _ _ _ _ v) in Hrun by done.
    destruct (decide (v = 0)) as [->|Hnz];
      [change (negb (0 =? 0)) with false in Hrun
      |rewrite (proj2 (Z.eqb_neq _ _) Hnz) in Hrun]; cbv iota in Hrun.
    + destruct (After b p w o line pre suf s k)
        as (n & w1 & N' & Hn & Hw1 & HN' & Hr); try done.
      { etrans; [|exact Hrun]. f_equal. lia. }
      exists (S n), w1, N'. simpl. rewrite Hv. simpl.
      split; [done|]. split; [done|]. split; [lia|done].
    + destruct (Body b p w o line pre suf s)
        as (n & w1 & w2 & N' & Hn1 & Hn2 & Hw2 & HN' & Hr); try done.
      exists (S n), w2, N'. simpl. rewrite Hv. simpl.
      rewrite (proj2 (Z.eqb_neq _ _) Hnz), Hn1. simpl.
      split; [done|]. split; [done|]. split; [lia|done].
Qed.

Lemma ends_sem p w o :
  proper p → wf chunklen w →
  Z.of_nat (length (unparse p)) <= INT_MAX →
  ends chunklen fill (unparse p) w o ↔
  ∃ n w', sem n p w = Some w' ∧ o = Returned w'.
Proof.
  intros Hp Hw Hlen. split.
  - intros [fuel Hrun].
    destruct (run_sem (S fuel) fuel ltac:(lia)) as [Hsem _].
    destruct (Hsem p w o (unparse p) [] [] [])
      as (n & w1 & N' & Hn & Hw1 & HN' & Hr); try done.
    { by rewrite app_nil_r. }
    exists n, w1. split; [done|].
    destruct N' as [|N']; [done|].
    rewrite run_S, step_nul in Hr by apply char_at_end. by injection Hr.
  - intros (n & w' & Hsem & ->).
    destruct (sem_turns n) as [Hturns _].
    destruct (Hturns p w w' (unparse p) [] [] [])
      as [m Hm]; try done.
    { by rewrite app_nil_r. }
    exists (m + 1)%nat. unfold execute.
    rewrite (run_after _ _ _ _ _ _ _ _ _ _ _ Hm).
    by rewrite run_S, step_nul by apply char_at_end.
Qed.

(** X9. The loop of execute implements the structured meaning of
    brainfuck. For a program given with its loops explicit (instructions
    that are no brackets, and loops around bodies), written out as a string
    an int can count and run on a well-formed tape: the call ends if and
    only if the structured program - instructions in sequence, each loop
    repeated while the current cell is not zero - ends, and then it returns
    normally with the state the structured program yields. *)
Theorem execute_is_structured p w o :
  proper p → wf chunklen w →
  Z.of_nat (length (unparse p)) <= INT_MAX →
  ends chunklen fill (unparse p) w o ↔
  ∃ n w', sem n p w = Some w' ∧ o = Returned w'.
Proof. apply ends_sem. Qed.

(** ** One program after another *)

Lemma unparse_aseq p q : unparse (aseq p q) = unparse p ++ unparse q.
Proof.
  induction p as [|ch p IH|b _ p IH]; simpl; [done|by rewrite IH|].
  by rewrite IH, <- app_assoc.
Qed.

Lemma proper_aseq p q : proper p → proper q → proper (aseq p q).
Proof.
  induction p as [|ch p IH|b _ p IH]; simpl; [done|..];
    intros [? ?] ?; split; auto.
Qed.

Lemma sem_wf n p w w' :
  sem n p w = Some w' → wf chunklen w → wf chunklen w'.
Proof.
  revert p w w'. induction n as [|n IH]; intros p w w'; [done|].
  simpl. destruct p as [|ch p|b p].
  - by intros [= <-].
  - intros Hs Hw.
    destruct (effect_wf chunklen fill (decode ch) w Hw) as (w1 & He & Hw1).
    rewrite He in Hs. simpl in Hs. by eapply IH.
  - intros Hs Hw. destruct (cell w) as [v|]; [simpl in Hs|done].
    destruct (v =? 0); [by eapply IH|].
    destruct (sem n b w) as [w1|] eqn:Hb; [simpl in Hs|done].
    eapply IH; [done|]. by eapply IH.
Qed.

Lemma sem_S_op n ch p w :
  sem (S n) (AOp ch p) w
  = effect chunklen fill (decode ch) w ≫= sem n p.
Proof. reflexivity. Qed.

Lemma sem_S_loop n b p w :
  sem (S n) (ALoop b p) w
  = v ← cell w;
    if v =? 0 then sem n p w else w' ← sem n b w; sem n (ALoop b p) w'.
Proof. reflexivity. Qed.

Lemma sem_aseq_split n p q w w2 :
  sem n (aseq p q) w = Some w2 →
  ∃ w1, sem n p w = Some w1 ∧ sem n q w1 = Some w2.
Proof.
  revert p w. induction n as [|n IH]; intros p w; [done|].
  destruct p as [|ch p|b p]; cbn [aseq].
  - intros Hq. by exists w.
  - rewrite !sem_S_op.
    destruct (effect chunklen fill (decode ch) w) as [w'|]; [|done].
    intros Hs. simpl in Hs. destruct (IH p w' Hs) as (w1 & H1 & H2).
    exists w1. split; [exact H1|]. apply (sem_mono n); [done|lia].
  - rewrite !sem_S_loop. destruct (cell w) as [v|]; [|done].
    intros Hs. simpl in Hs. cbn [mbind option_bind].
    destruct (v =? 0).
    + destruct (IH p w Hs) as (w1 & H1 & H2).
      exists w1. split; [done|]. apply (sem_mono n); [done|lia].
    + destruct (sem n b w) as [w'|]; [|done]. simpl in Hs.
      destruct (IH (ALoop b p) w' Hs) as (w1 & H1 & H2).
      exists w1. split; [exact H1|]. apply (sem_mono n); [done|lia].
Qed.

Lemma sem_aseq_join n m p q w w1 w2 :
  sem n p w = Some w1 → sem m q w1 = Some w2 →
  sem (n + m) (aseq p q) w = Some w2.
Proof.
  intros Hp Hq. revert p w Hp.
  induction n as [|n IH]; intros p w Hp; [done|].
  change (S n + m)%nat with (S (n + m)).
  destruct p as [|ch p|b p]; cbn [aseq].
  - injection Hp as <-. apply (sem_mono m); [done|lia].
  - rewrite sem_S_op in Hp |- *.
    destruct (effect chunklen fill (decode ch) w) as [w'|]; [|done].
    simpl in Hp |- *. by apply IH.
  - rewrite sem_S_loop in Hp |- *.
    destruct (cell w) as [v|]; [|done]. simpl in Hp |- *.
    destruct (v =? 0); [by apply IH|].
    destruct (sem n b w) as [w'|] eqn:Hb; [simpl in Hp|done].
    rewrite (sem_mono n (n + m) b w w') by (done || lia). simpl.
    by apply (IH (ALoop b p)).
Qed.

(** X10. Programs compose by concatenation. For two structured programs
    written one after the other in a string an int can count, on a
    well-formed tape: the call on the whole string returns normally with
    some state if and only if the call on the first program returns
    normally and the call on the second, started in the state the first
    left, returns normally with that state. *)
Theorem concatenation_is_sequence p q w w2 :
  proper p → proper q → wf chunklen w →
  Z.of_nat (length (unparse p ++ unparse q)) <= INT_MAX →
  ends chunklen fill (unparse p ++ unparse q) w (Returned w2) ↔
  ∃ w1, ends chunklen fill (unparse p) w (Returned w1) ∧
        ends chunklen fill (unparse q) w1 (Returned w2).
Proof.
  intros Hp Hq Hw Hlen. rewrite length_app in Hlen.
  rewrite <- unparse_aseq.
  rewrite (ends_sem (aseq p q)); [|by apply proper_aseq|done|];
    [|rewrite unparse_aseq, length_app; lia].
  split.
  - intros (n & w' & Hsem & [= <-]).
    destruct (sem_aseq_split _ _ _ _ _ Hsem) as (w1 & H1 & H2).
    exists w1. split.
    + apply ends_sem; [done|done|lia|]. by exists n, w1.
    + apply ends_sem; [done|by eapply sem_wf|lia|]. by exists n, w2.
  - intros (w1 & H1 & H2).
    apply ends_sem in H1 as (n1 & w1' & Hs1 & [= <-]); [|done|done|lia].
    apply ends_sem in H2 as (n2 & w2' & Hs2 & [= <-]);
      [|done|by eapply sem_wf|lia].
    exists (n1 + n2)%nat, w2. split; [|done]. by eapply sem_aseq_join.
Qed.

End Runs.

(** * Diagnostics *)

Section Diagnostics.

Variable chunklen : Z.
Variable fill : nat → nat → Z.

Local Abbreviation wf := (wf chunklen).
Local Abbreviation step := (step chunklen fill).
Local Abbreviation run := (run chunklen fill).
Local Abbreviation turns := (turns chunklen fill).
Local Abbreviation execute := (execute chunklen fill).
Local Abbreviation turn := (turn chunklen fill).

Lemma outside_plain line c :
  outside line c → weight (char_at line c) = 0 → outside line (S c).
Proof.
  intros Ho Hw l r Hl Hch Hr.
  destruct (decide (l = c)) as [->|Hne].
  - rewrite Hch in Hw. by compute in Hw.
  - assert (r < c)%nat; [|lia]. apply (Ho l); [lia|done..].
Qed.

Lemma outside_stray line c :
  outside line c → match_right line c = None → outside line (S c).
Proof.
  intros Ho Hnone l r Hl Hch Hr.
  destruct (decide (l = c)) as [->|Hne]; [congruence|].
  assert (r < c)%nat; [|lia]. apply (Ho l); [lia|done..].
Qed.

(** Loops are nested: what is opened inside a loop is closed inside it. *)
Lemma outside_loop line c r0 :
  Z.of_nat (length line) <= INT_MAX →
  (c < strlen line)%nat → outside line c →
  match_right line c = Some r0 → outside line (S r0).
Proof.
  intros Hlen Hc Ho Hr0 l r Hl Hch Hr.
  destruct (match_region line c r0 Hlen Hc Hr0) as (Hcr & Hch0 & Hb0 & Hmin0).
  destruct (decide (l < c)%nat) as [Hlt|Hge].
  { assert (r < c)%nat; [|lia]. by apply (Ho l). }
  destruct (decide (l = c)) as [->|Hne].
  { assert (r = r0) by congruence. lia. }
  assert (l ≠ r0) by (intros ->; congruence).
  destruct (match_region line l r Hlen ltac:(lia) Hr)
    as (Hlr & Hchr & Hb & Hmin).
  assert (0 <= balance (seg line (S c) l)) as Hpos.
  { apply bal_nonneg; [lia|]. intros i Hi. apply Hmin0. lia. }
  destruct (decide (r < r0)%nat) as [|Hout]; [lia|exfalso].
  assert (0 <= balance (seg line (S l) r0)) as Hin.
  { destruct (decide (r0 = r)) as [->|Hne']; [lia|].
    assert (0 < balance (seg line (S l) r0)); [|lia].
    apply Hmin; [lia|done]. }
  rewrite (bal_split line (S c) (S l) r0) in Hb0 by lia.
  rewrite (bal_step line (S c) l) in Hb0 by lia.
  rewrite Hch, weight_open in Hb0. lia.
Qed.

Lemma outside_unmatched line c :
  outside line c → char_at line c = "]"%char → unmatched_close line c.
Proof.
  intros Ho Hch. split; [done|]. intros l Hl Hr.
  destruct (decide (l < c)%nat) as [Hlt|Hge].
  - specialize (Ho l c Hlt Hl Hr). lia.
  - apply scan_right_bound in Hr as [Hb _]. lia.
Qed.

Lemma loops_nest line l r l' r' :
  Z.of_nat (length line) <= INT_MAX → (l < strlen line)%nat →
  match_right line l = Some r →
  char_at line l' = "["%char → match_right line l' = Some r' →
  (l < l' < r)%nat → (r' < r)%nat.
Proof.
  intros Hlen Hl Hr Hch Hr' Hin.
  destruct (match_region line l r Hlen Hl Hr) as (Hlr & Hchr & Hb & Hmin).
  destruct (match_region line l' r' Hlen ltac:(lia) Hr')
    as (Hlr' & Hchr' & Hb' & Hmin').
  assert (0 <= balance (seg line (S l) l')) as Hpos.
  { apply bal_nonneg; [lia|]. intros i Hi. apply Hmin. lia. }
  destruct (decide (r' < r)%nat) as [|Hout]; [done|exfalso].
  assert (0 <= balance (seg line (S l') r)) as Hinner.
  { destruct (decide (r = r')) as [->|Hne]; [lia|].
    assert (0 < balance (seg line (S l') r)); [|lia].
    apply Hmin'; [lia|done]. }
  rewrite (bal_split line (S l) (S l') r) in Hb by lia.
  rewrite (bal_step line (S l) l') in Hb by lia.
  rewrite Hch, weight_open in Hb. lia.
Qed.

(** The entries of a chain that starts outside every loop are the loops
    around the position, all of them. *)
Lemma chain_members line :
  Z.of_nat (length line) <= INT_MAX →
  ∀ stack c, (c ≤ strlen line)%nat → chain (outside line) line c stack →
             ∀ l, l ∈ stack ↔ encloses line l c.
Proof.
  intros Hlen. induction stack as [|l0 s IH]; intros c Hc Hchain l.
  - simpl in Hchain. split; [by intros ?%elem_of_nil|].
    intros (Hch & r & Hr & Hlc). specialize (Hchain l r ltac:(lia) Hch Hr).
    lia.
  - simpl in Hchain.
    destruct Hchain as ((r0 & Hr0 & Hb0) & Hz & Hch0 & Hrest).
    destruct (match_region line l0 r0 Hlen ltac:(lia) Hr0)
      as (Hlr0 & Hchr0 & Hbal0 & Hmin0).
    specialize (IH l0 ltac:(lia) Hrest).
    rewrite elem_of_cons. split.
    + intros [->|Hin]; [split; [done|eauto]|].
      apply IH in Hin as (Hch & r & Hr & Hl).
      split; [done|]. exists r. split; [done|].
      assert (l0 ≠ r) as Hne.
      { intros ->.
        destruct (match_region line l r Hlen ltac:(lia) Hr) as (_ & E & _).
        congruence. }
      assert (r0 < r)%nat; [|lia].
      apply (loops_nest line l r l0 r0); try done; lia.
    + intros (Hch & r & Hr & Hl).
      destruct (decide (l = l0)) as [|Hne]; [by left|right].
      destruct (decide (l < l0)%nat) as [Hlt|Hgt].
      * apply IH. split; [done|]. exists r. split; [done|lia].
      * exfalso.
        destruct (match_region line l r Hlen ltac:(lia) Hr)
          as (Hlr & Hchr & Hbal & Hmin).
        assert (0 <= balance (seg line (S l0) l)) as H1.
        { apply bal_nonneg; [lia|]. intros i Hi. apply Hmin0. lia. }
        assert (0 <= balance (seg line (S l) c)) as H2.
        { apply bal_nonneg; [lia|]. intros i Hi. apply Hmin. lia. }
        rewrite (bal_split line (S l0) (S l) c) in Hz by lia.
        rewrite (bal_step line (S l0) l) in Hz by lia.
        rewrite Hch, weight_open in Hz. lia.
Qed.

(** Along a run the instruction pointer stays in the string and the jump
    stack is a chain that starts outside every loop. *)
Lemma turns_chain_outside n line w0 w c stack :
  Z.of_nat (length line) <= INT_MAX →
  turns n line w0 0%nat [] = Next w c stack →
  ((c ≤ strlen line)%nat ∧ stack_ok line c stack) ∧
  chain (outside line) line c stack.
Proof.
  intros Hlen Ht.
  apply (turns_invariant chunklen fill
           (λ _ c s, ((c ≤ strlen line)%nat ∧ stack_ok line c s) ∧
                     chain (outside line) line c s) line)
    with (n := n) (w := w0) (c := 0%nat) (s := []) (w' := w); [| |done].
  - intros w2 c2 s2 w3 c3 s3 [Hip Hch] Hn Hturn. split.
    + by eapply ip_ok_turn.
    + apply (chain_turn chunklen fill line Hlen (outside line)
               (outside_plain line)
               (λ c _ Ho _ Hnone, outside_stray line c Ho Hnone)
               (λ c r Hlt Ho _ Hr, outside_loop line c r Hlen Hlt Ho Hr)
               w2 c2 s2 w3 c3 s3 (proj1 Hip) Hch Hn Hturn).
  - split; [split; [lia|done]|]. intros l r Hl. lia.
Qed.

(** X3. In a string an int can count, at every point of a run the jump
    stack holds exactly the loops around the instruction pointer: a
    position is on the stack if and only if it holds a '[' whose matching
    ']' lies at or after the instruction pointer, and the entries are in
    order, the innermost loop on top (each entry lies before the one above
    it, with balanced brackets in between, and no loop is open around the
    lowest one). So a ']' reached under a non-empty stack is the match of
    the '[' on top of it: the jump back lands just after the matching '[',
    and the pop removes that loop's own entry. *)
Theorem jump_stack_is_loop_chain n line w0 w c stack :
  Z.of_nat (length line) <= INT_MAX →
  turns n line w0 0%nat [] = Next w c stack →
  (∀ l, l ∈ stack ↔ encloses line l c) ∧
  stack_ok line c stack ∧
  chain (outside line) line c stack ∧
  ∀ l s, stack = l :: s → char_at line c = "]"%char →
         match_right line l = Some c.
Proof.
  intros Hlen Ht.
  destruct (turns_chain_outside n line w0 w c stack Hlen Ht)
    as [[Hc Hok] Hchain].
  split; [by apply chain_members|]. split; [done|]. split; [done|].
  intros l s -> Hch.
  by eapply (chain_close line Hlen (outside line)).
Qed.

(** X21. The bracket diagnostics are sound. In a string an int can count,
    run from a well-formed tape, a call that ends has stood, when it
    ended, at a position c of the string with the tape it leaves, and:
    it returned normally only at the terminator; it reported the missing
    ']' only with a '[' at c that has no matching ']', on a zero cell; it
    reported the missing '[' only with a ']' at c that is the match of no
    '[' of the string, on a non-zero cell; and it died only with such a
    ']' at c, on a zero cell. A bracket that has a partner is never the
    one complained about. *)
Theorem bracket_errors_are_sound fuel line w o :
  Z.of_nat (length line) <= INT_MAX → wf w →
  execute fuel (Some line) w = Some o →
  ∃ n c stack,
    turns n line w 0%nat [] = Next (outcome_world o) c stack ∧
    step line (outcome_world o) c stack = Stop o ∧
    (c ≤ strlen line)%nat ∧ justified line c o.
Proof.
  intros Hlen Hw Hrun.
  apply run_Some_inv in Hrun as (k & w1 & c & s & Ht & Hstop).
  destruct (turns_chain_outside k line w w1 c s Hlen Ht) as [[Hc _] Hchain].
  pose proof (turns_wf chunklen fill k line w 0%nat [] Hw) as Hw1.
  rewrite Ht in Hw1.
  destruct (cell_is_Some chunklen _ Hw1) as [v Hv].
  assert (outcome_world o = w1 ∧ justified line c o) as [Ew Hj].
  { unfold step in Hstop. cbv zeta in Hstop.
    destruct (Ascii.eqb_spec (char_at line c) NUL) as [|Hnul];
      [by injection Hstop as <-|].
    destruct (effect_wf chunklen fill (decode (char_at line c)) w1 Hw1)
      as (w2 & E & _).
    destruct (decode (char_at line c)) eqn:Hdec; simpl in E;
      try (rewrite E in Hstop; discriminate).
    - apply decode_open in Hdec. rewrite Hv in Hstop.
      destruct (v =? 0) eqn:Hz, (match_right line c) eqn:Hm;
        try discriminate.
      injection Hstop as <-. simpl. by apply Z.eqb_eq in Hz as ->.
    - apply decode_close in Hdec. rewrite Hv in Hstop.
      destruct (v =? 0) eqn:Hz, s as [|l s']; try discriminate;
        injection Hstop as <-; simpl.
      + apply Z.eqb_eq in Hz as ->. split; [done|].
        split; [by apply outside_unmatched|done].
      + apply Z.eqb_neq in Hz. split; [done|].
        split; [by apply outside_unmatched|eauto].
    - discriminate. }
  exists k, c, s. rewrite Ew. by repeat split.
Qed.

End Diagnostics.

(** * The chunks hold an unbounded tape *)

Lemma same_cells_refl l : same_cells l l.
Proof. by intros k. Qed.

Lemma same_cells_trans l1 l2 l3 :
  same_cells l1 l2 → same_cells l2 l3 → same_cells l1 l3.
Proof. intros H1 H2 k. by rewrite H1. Qed.

Lemma same_cells_cons x l r : same_cells l r → same_cells (x :: l) (x :: r).
Proof. intros H [|k]; simpl; auto. Qed.

Lemma same_cells_uncons x l r :
  same_cells (x :: l) r → x = hd 0 r ∧ same_cells l (tl r).
Proof.
  intros H. split.
  - specialize (H 0%nat). by destruct r.
  - intros k. specialize (H (S k)). destruct r; simpl in *; [by destruct k|done].
Qed.

Lemma same_cells_nil r : same_cells [] r → hd 0 r = 0 ∧ same_cells [] (tl r).
Proof.
  intros H. split.
  - specialize (H 0%nat). by destruct r.
  - intros k. specialize (H (S k)). destruct r; simpl in *; by destruct k.
Qed.

Lemma same_cells_zeros l r :
  Forall (λ x, x = 0) l → same_cells [] r → same_cells l r.
Proof.
  intros Hz H k. rewrite <- H, !nth_lookup.
  destruct (l !! k) as [x|] eqn:Hx; simpl; [|by destruct k].
  rewrite (proj1 (Forall_lookup _ _) Hz _ _ Hx). by destruct k.
Qed.

Lemma zeros_lookup l i :
  Forall (λ x, x = 0) l → (i < length l)%nat → l !! i = Some 0.
Proof.
  intros Hz Hi. destruct (lookup_lt_is_Some_2 l i Hi) as [x Hx].
  by rewrite Hx, (proj1 (Forall_lookup _ _) Hz _ _ Hx).
Qed.

Lemma block_zeroed chunklen k :
  Forall (λ x, x = 0) (block chunklen zeroed k).
Proof. unfold block, zeroed. by apply Forall_fmap, Forall_true. Qed.

Lemma chunks_from_agree h h' link from ps :
  (∀ a, a ∈ ps → h' !! a = h !! a) →
  chunks_from h link from ps → chunks_from h' link from ps.
Proof.
  intros Hag Hc. induction Hc as [|p ch ps Hp Hc IH]; [constructor|].
  apply (chunks_more _ _ p ch).
  - rewrite Hag; [done|]. apply elem_of_cons. by left.
  - apply IH. intros a Ha. apply Hag, elem_of_cons. by right.
Qed.

Lemma cells_of_agree h h' f ps :
  (∀ a, a ∈ ps → h' !! a = h !! a) → cells_of h' f ps = cells_of h f ps.
Proof.
  unfold cells_of. induction ps as [|p ps IH]; intros Hag; simpl; [done|].
  rewrite Hag by (apply elem_of_cons; by left).
  rewrite IH; [done|]. intros a Ha. apply Hag, elem_of_cons. by right.
Qed.

Lemma chunks_from_lt h link from ps a :
  chunks_from h link from ps → a ∈ ps → (a < length h)%nat.
Proof.
  intros Hc. induction Hc as [|p ch ps Hp Hc IH].
  - by intros ?%elem_of_nil.
  - intros [->|Ha]%elem_of_cons; [by eapply lookup_lt_Some|auto].
Qed.

Lemma chunks_from_None h link ps : chunks_from h link None ps → ps = [].
Proof. by inversion 1. Qed.

Lemma chunks_from_Some h link p ps :
  chunks_from h link (Some p) ps →
  ∃ ch ps', ps = p :: ps' ∧ h !! p = Some ch ∧
            chunks_from h link (link ch) ps'.
Proof. inversion 1; subst. eauto. Qed.

Lemma cells_of_cons h f p ch ps :
  h !! p = Some ch → cells_of h f (p :: ps) = f (mem ch) ++ cells_of h f ps.
Proof. intros Hp. unfold cells_of. simpl. by rewrite Hp. Qed.

Lemma rev_take_S (m : list Z) d x :
  m !! d = Some x → rev (take (S d) m) = x :: rev (take d m).
Proof.
  intros Hd. rewrite (take_S_r _ _ _ Hd), rev_app_distr. done.
Qed.

Section Unbounded.

Variable chunklen : Z.
Hypothesis chunklen_pos : 0 < chunklen.

Local Abbreviation represents := (represents chunklen).
Local Abbreviation wf := (wf chunklen).
Local Abbreviation advance := (advance chunklen zeroed).
Local Abbreviation retreat := (retreat chunklen zeroed).
Local Abbreviation effect := (effect chunklen zeroed).
Local Abbreviation step := (step chunklen zeroed).
Local Abbreviation run := (run chunklen zeroed).
Local Abbreviation execute := (execute chunklen zeroed).

Lemma init_represents input :
  represents (init_world chunklen zeroed input) (Ideal.init input).
Proof.
  split; [by apply init_world_wf|].
  unfold init_world, alloc_memchunk. simpl.
  exists (MemChunk None None (block chunklen zeroed 0)), [], [].
  simpl. pose proof (block_zeroed chunklen 0) as Hz.
  split; [done|]. split; [constructor|]. split; [constructor|].
  split; [apply NoDup_singleton|].
  assert (Z.to_nat (chunklen `quot` 2) < Z.to_nat chunklen)%nat as Hlt.
  { pose proof (Z.quot_pos chunklen 2). 
    pose proof (Z.quot_lt chunklen 2). lia. }
  split; [|split; [|split; [|done]]].
  - rewrite app_nil_r. apply same_cells_zeros; [|apply same_cells_refl].
    by apply Forall_rev, Forall_take.
  - apply zeros_lookup; [done|]. by rewrite block_length.
  - rewrite app_nil_r. apply same_cells_zeros; [|apply same_cells_refl].
    by apply Forall_drop.
Qed.

Lemma rep_cell w t : represents w t → cell w = Some (Ideal.cur t).
Proof.
  intros ([_ Hd _] & ch & ls & rs & Hch & _ & _ & _ & _ & Hc & _).
  unfold cell, byte_at, block_at. rewrite Hch. simpl.
  by rewrite (proj2 (Z.ltb_ge _ _)) by lia.
Qed.

Lemma rep_streams w t :
  represents w t → stdin w = Ideal.pending t ∧ stdout w = Ideal.written t.
Proof. by intros (_ & ch & ls & rs & _ & _ & _ & _ & _ & _ & _ & ? & ?). Qed.

Lemma rep_poke v w t :
  represents w t → represents (poke v w) (Ideal.set_cur v t).
Proof.
  intros (Hw & ch & ls & rs & Hch & Hl & Hr & Hnd & HL & Hc & HR & Hi & Ho).
  split; [by apply poke_wf|].
  apply NoDup_app in Hnd as Hnd'. destruct Hnd' as (_ & Hlr & Hrs).
  apply NoDup_cons in Hrs as [Hprs _].
  assert (∀ a, a ∈ ls →
            alter (set_mem (<[Z.to_nat (data w):=v]>)) (page w) (heap w) !! a
            = heap w !! a) as Hagl.
  { intros a Ha. apply list_lookup_alter_ne. intros <-.
    apply (Hlr _ Ha). apply elem_of_cons. by left. }
  assert (∀ a, a ∈ rs →
            alter (set_mem (<[Z.to_nat (data w):=v]>)) (page w) (heap w) !! a
            = heap w !! a) as Hagr.
  { intros a Ha. apply list_lookup_alter_ne. by intros <-. }
  exists (set_mem (<[Z.to_nat (data w):=v]>) ch), ls, rs. simpl.
  split; [by rewrite list_lookup_alter_eq, Hch|].
  split; [by apply (chunks_from_agree (heap w))|].
  split; [by apply (chunks_from_agree (heap w))|].
  split; [done|].
  rewrite (cells_of_agree (heap w) _ _ ls) by done.
  rewrite (cells_of_agree (heap w) _ _ rs) by done.
  split; [by rewrite take_insert_ge by lia|].
  split; [apply list_lookup_insert_eq; by eapply lookup_lt_Some|].
  split; [by rewrite drop_insert_lt by lia|done].
Qed.

Lemma rep_advance w t :
  represents w t →
  ∃ w', advance w = Some w' ∧ represents w' (Ideal.advance t).
Proof.
  intros (Hw & ch & ls & rs & Hch & Hl & Hr & Hnd & HL & Hc & HR & Hi & Ho).
  destruct (advance_spec chunklen zeroed w Hw) as (w' & Hadv & Hw' & _).
  exists w'. split; [done|]. split; [done|].
  pose proof Hw as [_ Hd Hh].
  pose proof (wf_mem _ _ Hh _ _ Hch) as Hlen.
  destruct (decide (data w + 1 < chunklen)) as [Hin|Hout].
  - rewrite advance_inside in Hadv by done. injection Hadv as <-. simpl.
    exists ch, ls, rs.
    replace (Z.to_nat (data w + 1)) with (S (Z.to_nat (data w))) by lia.
    destruct (lookup_lt_is_Some_2 (mem ch) (S (Z.to_nat (data w))))
      as [x Hx]; [lia|].
    rewrite (drop_S _ _ _ Hx) in HR. simpl in HR.
    apply same_cells_uncons in HR as [-> HR].
    do 4 (split; [done|]).
    rewrite (rev_take_S _ _ _ Hc). simpl.
    split; [by apply same_cells_cons|]. by repeat split.
  - assert (S (Z.to_nat (data w)) = length (mem ch)) as Hlast by lia.
    assert (rev (mem ch) = Ideal.cur t :: rev (take (Z.to_nat (data w)) (mem ch)))
      as Hrev.
    { rewrite <- (rev_take_S _ _ _ Hc), Hlast. by rewrite firstn_all. }
    rewrite drop_ge in HR by lia. simpl in HR.
    destruct (next ch) as [q|] eqn:Hq.
    + rewrite (advance_neighbour _ _ _ ch q) in Hadv by (done || lia).
      injection Hadv as <-. simpl.
      apply chunks_from_Some in Hr as (chq & rs' & -> & Hchq & Hr).
      destruct (wf_next _ _ Hh _ _ _ Hch Hq) as (ch' & Hch' & Hpq).
      rewrite Hchq in Hch'. injection Hch' as <-.
      exists chq, (page w :: ls), rs'.
      split; [done|]. split; [rewrite Hpq; by econstructor|].
      split; [done|].
      split; [simpl; by rewrite Permutation_middle|].
      rewrite (cells_of_cons _ _ _ _ _ Hch), Hrev. simpl.
      rewrite (cells_of_cons _ _ _ _ _ Hchq) in HR. simpl in HR.
      pose proof (wf_mem _ _ Hh _ _ Hchq) as Hlenq.
      destruct (mem chq) as [|x mq] eqn:Hmq; [simpl in Hlenq; lia|].
      simpl in HR. apply same_cells_uncons in HR as [-> HR].
      split; [by apply same_cells_cons|]. simpl. by rewrite drop_0.
    + rewrite (advance_grow _ _ _ ch) in Hadv by (done || lia).
      pose proof (λ i, overflow_right_lookup chunklen zeroed (heap w)
                         (page w) ch i Hch) as L.
      set (h' := (overflow_right chunklen zeroed (heap w) (page w)).1) in *.
      clearbody h'. injection Hadv as <-. simpl.
      apply chunks_from_None in Hr as ->.
      pose proof (lookup_lt_Some _ _ _ Hch) as Hp.
      apply NoDup_app in Hnd as (Hndl & Hlp & _).
      assert (∀ a, a ∈ ls → h' !! a = heap w !! a) as Hag.
      { intros a Ha. pose proof (chunks_from_lt _ _ _ _ _ Hl Ha).
        rewrite L, decide_False, decide_False; [done| |lia].
        intros ->. apply (Hlp _ Ha), elem_of_cons. by left. }
      assert (h' !! page w = Some (set_next (Some (length (heap w))) ch))
        as Hp'.
      { rewrite L, decide_False, decide_True; [done..|lia]. }
      exists (MemChunk None (Some (page w)) (block chunklen zeroed (length (heap w)))),
        (page w :: ls), [].
      split; [by rewrite L, decide_True|]. simpl.
      split; [apply (chunks_more _ _ _ _ _ Hp');
              by apply (chunks_from_agree (heap w))|].
      split; [constructor|].
      split.
      { apply NoDup_cons. split.
        - intros [Hp1|Hp1]%elem_of_app.
          + apply (Hlp _ Hp1), elem_of_cons. by left.
          + apply list_elem_of_singleton in Hp1. lia.
        - apply NoDup_app. split; [done|]. split; [|apply NoDup_singleton].
          intros a Ha ->%list_elem_of_singleton.
          pose proof (chunks_from_lt _ _ _ _ _ Hl Ha). lia. }
      rewrite Hp', (cells_of_agree (heap w)) by done.
      simpl. rewrite Hrev. simpl.
      pose proof (block_zeroed chunklen (length (heap w))) as Hz.
      apply same_cells_nil in HR as [HR0 HR].
      split; [by apply same_cells_cons|].
      split; [rewrite HR0; apply zeros_lookup;
              [done|rewrite block_length; lia]|].
      split; [|done]. rewrite app_nil_r.
      apply same_cells_zeros; [by apply Forall_drop|done].
Qed.

Lemma rep_retreat w t :
  represents w t →
  ∃ w', retreat w = Some w' ∧ represents w' (Ideal.retreat t).
Proof.
  intros (Hw & ch & ls & rs & Hch & Hl & Hr & Hnd & HL & Hc & HR & Hi & Ho).
  destruct (retreat_spec chunklen zeroed w Hw) as (w' & Hret & Hw' & _).
  exists w'. split; [done|]. split; [done|].
  pose proof Hw as [_ Hd Hh].
  pose proof (wf_mem _ _ Hh _ _ Hch) as Hlen.
  assert (drop (Z.to_nat (data w)) (mem ch)
          = Ideal.cur t :: drop (S (Z.to_nat (data w))) (mem ch)) as Hdrop
    by (by apply drop_S).
  destruct (decide (0 <= data w - 1)) as [Hin|Hout].
  - rewrite retreat_inside in Hret by done. injection Hret as <-. simpl.
    exists ch, ls, rs.
    destruct (Z.to_nat (data w)) as [|d'] eqn:Ed; [lia|].
    replace (Z.to_nat (data w - 1)) with d' by lia.
    destruct (lookup_lt_is_Some_2 (mem ch) d') as [x Hx]; [lia|].
    rewrite (rev_take_S _ _ _ Hx) in HL. simpl in HL.
    apply same_cells_uncons in HL as [-> HL].
    do 4 (split; [done|]).
    split; [done|]. split; [done|].
    rewrite Hdrop. simpl. split; [by apply same_cells_cons|done].
  - assert (Z.to_nat (data w) = 0%nat) as Hd0 by lia.
    rewrite Hd0 in *. rewrite take_0 in HL. simpl in HL.
    rewrite drop_0 in Hdrop.
    destruct (prev ch) as [q|] eqn:Hq.
    + rewrite (retreat_neighbour _ _ _ ch q) in Hret by (done || lia).
      injection Hret as <-. simpl.
      apply chunks_from_Some in Hl as (chq & ls' & -> & Hchq & Hl).
      destruct (wf_prev _ _ Hh _ _ _ Hch Hq) as (ch' & Hch' & Hpq).
      rewrite Hchq in Hch'. injection Hch' as <-.
      exists chq, ls', (page w :: rs).
      split; [done|]. split; [done|].
      split; [rewrite Hpq; by econstructor|].
      split; [simpl in Hnd; by rewrite <- Permutation_middle|].
      pose proof (wf_mem _ _ Hh _ _ Hchq) as Hlenq.
      replace (Z.to_nat (chunklen - 1)) with (Z.to_nat chunklen - 1)%nat
        by lia.
      destruct (lookup_lt_is_Some_2 (mem chq) (Z.to_nat chunklen - 1))
        as [y Hy]; [lia|].
      rewrite (cells_of_cons _ _ _ _ _ Hchq) in HL.
      assert (rev (mem chq)
              = y :: rev (take (Z.to_nat chunklen - 1) (mem chq))) as Hrev.
      { rewrite <- (rev_take_S _ _ _ Hy).
        replace (S (Z.to_nat chunklen - 1)) with (length (mem chq)) by lia.
        by rewrite firstn_all. }
      rewrite Hrev in HL. simpl in HL.
      apply same_cells_uncons in HL as [-> HL].
      split; [done|]. split; [done|].
      rewrite drop_ge by lia. simpl.
      rewrite Hch. simpl. rewrite Hdrop. simpl.
      split; [by apply same_cells_cons|done].
    + rewrite (retreat_grow _ _ _ ch) in Hret by (done || lia).
      pose proof (λ i, overflow_left_lookup chunklen zeroed (heap w)
                         (page w) ch i Hch) as L.
      set (h' := (overflow_left chunklen zeroed (heap w) (page w)).1) in *.
      clearbody h'. injection Hret as <-. simpl.
      apply chunks_from_None in Hl as ->. simpl in Hnd, HL.
      pose proof (lookup_lt_Some _ _ _ Hch) as Hp.
      apply NoDup_cons in Hnd as (Hpr & Hndr).
      assert (∀ a, a ∈ rs → h' !! a = heap w !! a) as Hag.
      { intros a Ha. pose proof (chunks_from_lt _ _ _ _ _ Hr Ha).
        rewrite L, decide_False, decide_False; [done| |lia].
        by intros ->. }
      assert (h' !! page w = Some (set_prev (Some (length (heap w))) ch))
        as Hp'.
      { rewrite L, decide_False, decide_True; [done..|lia]. }
      exists (MemChunk (Some (page w)) None (block chunklen zeroed (length (heap w)))),
        [], (page w :: rs).
      split; [by rewrite L, decide_True|]. simpl.
      split; [constructor|].
      split; [apply (chunks_more _ _ _ _ _ Hp');
              by apply (chunks_from_agree (heap w))|].
      split.
      { apply NoDup_cons. split.
        - intros [E|Ha]%elem_of_cons; [lia|].
          pose proof (chunks_from_lt _ _ _ _ _ Hr Ha). lia.
        - by apply NoDup_cons. }
      rewrite Hp', (cells_of_agree (heap w)) by done.
      simpl. rewrite Hdrop.
      pose proof (block_zeroed chunklen (length (heap w))) as Hz.
      apply same_cells_nil in HL as [HL0 HL].
      split; [rewrite app_nil_r; apply same_cells_zeros;
              [by apply Forall_rev, Forall_take|done]|].
      split; [rewrite HL0; apply zeros_lookup;
              [done|rewrite block_length; lia]|].
      split; [|done]. rewrite drop_ge by (rewrite block_length; lia).
      simpl. by apply same_cells_cons.
Qed.

Lemma rep_heap w t w' t' :
  represents w t → heap w' = heap w → page w' = page w → data w' = data w →
  Ideal.lefts t' = Ideal.lefts t → Ideal.cur t' = Ideal.cur t →
  Ideal.rights t' = Ideal.rights t →
  stdin w' = Ideal.pending t' → stdout w' = Ideal.written t' →
  represents w' t'.
Proof.
  intros ([Hp Hd Hh] & ch & ls & rs & H) Eh Ep Ed El Ec Er Hi Ho.
  split; [split; by rewrite ?Eh, ?Ep, ?Ed|].
  exists ch, ls, rs. rewrite Eh, Ep, Ed, El, Ec, Er.
  destruct H as (?&?&?&?&?&?&?&?&?). by repeat split.
Qed.

Lemma rep_effect i w t :
  represents w t →
  ∃ w', effect i w = Some w' ∧ represents w' (Ideal.effect i t).
Proof.
  intros Hrep. pose proof (rep_cell _ _ Hrep) as Hc.
  pose proof (rep_streams _ _ Hrep) as [Hi Ho].
  destruct i; simpl.
  - by apply rep_advance.
  - by apply rep_retreat.
  - rewrite (increment_spec _ _ Hc). eexists. split; [done|].
    by apply rep_poke.
  - rewrite (decrement_spec _ _ Hc). eexists. split; [done|].
    by apply rep_poke.
  - rewrite (output_spec _ _ Hc). eexists. split; [done|].
    apply (rep_heap w t); try done. simpl. by rewrite Ho.
  - rewrite (input_spec chunklen) by apply Hrep.
    eexists. split; [done|]. unfold getchar. rewrite Hi.
    destruct (Ideal.pending t) as [|b rest] eqn:Hpend; simpl.
    + by apply rep_poke.
    + apply (rep_poke _ _ (Ideal.Tape (Ideal.lefts t) (Ideal.cur t)
                             (Ideal.rights t) rest (Ideal.written t))).
      by apply (rep_heap w t).
  - eauto.
  - eauto.
  - eauto.
Qed.

Lemma rep_step line w t c stack :
  represents w t →
  match step line w c stack, Ideal.step line t c stack with
  | Next w' c' s', Ideal.Next t' c'' s'' =>
      c' = c'' ∧ s' = s'' ∧ represents w' t'
  | Stop o, Ideal.Stop e t' =>
      ending_of o = e ∧ represents (outcome_world o) t'
  | _, _ => False
  end.
Proof.
  intros Hrep. pose proof (rep_cell _ _ Hrep) as Hc.
  unfold step, Ideal.step. cbv zeta.
  destruct (Ascii.eqb (char_at line c) NUL); [done|].
  destruct (rep_effect (decode (char_at line c)) _ _ Hrep)
    as (w' & E & Hrep').
  destruct (decode (char_at line c)) eqn:Hdec; simpl in E, Hrep' |- *;
    try (rewrite E; simpl; done).
  - rewrite Hc. destruct (Ideal.cur t =? 0), (match_right line c); done.
  - rewrite Hc. destruct (Ideal.cur t =? 0), stack; done.
  - done.
Qed.

Lemma rep_run line fuel : ∀ w t c stack,
  represents w t →
  agree chunklen (run fuel line w c stack) (Ideal.run fuel line t c stack).
Proof.
  induction fuel as [|k IH]; intros w t c stack Hrep; [done|].
  simpl. pose proof (rep_step line w t c stack Hrep) as Hs.
  destruct (step line w c stack) as [w' c' s'|o],
    (Ideal.step line t c stack) as [t' c'' s''|e t']; try done.
  destruct Hs as (-> & -> & Hrep'). by apply IH.
Qed.

(** X11. With blocks that come zeroed and a positive chunk length, the
    linked chunks behave as one tape without ends whose cells all start at
    0: the state set up at start-up holds the empty unbounded tape; a call
    of execute from a state that holds an unbounded tape runs in step with
    the same loop on that tape (with the same fuel both stop or neither
    does), ends the same way and leaves a state that holds the tape it
    left; and the current cell and the two streams of such a state are
    those of the tape. *)
Theorem chunks_hold_unbounded_tape :
  (∀ input, represents (init_world chunklen zeroed input) (Ideal.init input)) ∧
  (∀ fuel line w t, represents w t →
     agree chunklen (execute fuel (Some line) w) (Ideal.execute fuel line t)) ∧
  (∀ w t, represents w t →
     cell w = Some (Ideal.cur t) ∧ stdin w = Ideal.pending t ∧
     stdout w = Ideal.written t).
Proof.
  split; [apply init_represents|]. split.
  - intros fuel line w t Hrep. by apply rep_run.
  - intros w t Hrep. split; [by apply rep_cell|by apply rep_streams].
Qed.

End Unbounded.




(** * Reading the program text *)

Lemma store_at_middle pre old post bytes :
  length old = length bytes →
  store_at (pre ++ old ++ post) (Z.of_nat (length pre)) bytes
  = Some (pre ++ bytes ++ post).
Proof.
  intros Hl. unfold store_at. rewrite !length_app.
  rewrite (proj2 (Z.leb_le 0 _)) by lia.
  rewrite (proj2 (Z.leb_le _ _)) by lia. simpl.
  rewrite Nat2Z.id, take_app_length, drop_app_add, <- Hl.
  by rewrite drop_app_length.
Qed.

Lemma store_at_room buf e bytes :
  (e + length bytes ≤ length buf)%nat →
  store_at buf (Z.of_nat e) bytes
  = Some (take e buf ++ bytes ++ drop (e + length bytes) buf).
Proof.
  intros Hl. unfold store_at.
  rewrite (proj2 (Z.leb_le 0 _)) by lia.
  rewrite (proj2 (Z.leb_le _ _)) by lia. simpl. by rewrite Nat2Z.id.
Qed.

Lemma realloc_grow junk buf len :
  (length buf ≤ Z.to_nat len)%nat →
  realloc junk buf len
  = buf ++ map junk (seq (length buf) (Z.to_nat len - length buf)).
Proof. intros H. unfold realloc. by rewrite take_ge. Qed.

Lemma realloc_length junk buf len :
  (length buf ≤ Z.to_nat len)%nat →
  length (realloc junk buf len) = Z.to_nat len.
Proof.
  intros H. rewrite realloc_grow by done.
  rewrite length_app, length_map, length_seq. lia.
Qed.

Lemma get_prog_loop_S chunklen junk fails k file start end_ len :
  get_prog_loop chunklen junk fails (S k) file (Some start) end_ len =
  let '(bytes, file) := fread (Z.to_nat chunklen) file in
  match store_at start end_ bytes with
  | None => Some Fault
  | Some start =>
      match store_at start (end_ + Z.of_nat (length bytes)) [NUL] with
      | None => Some Fault
      | Some start =>
          if ferror file then Some (Got None file)
          else if feof file then Some (Got (Some start) file)
          else
            get_prog_loop chunklen junk fails k file
              (if fails (len + chunklen) then None
               else Some (realloc junk start (len + chunklen)))
              (len + chunklen - chunklen - 1) (len + chunklen)
      end
  end.
Proof. simpl. by destruct (fread (Z.to_nat chunklen) file). Qed.

Lemma strlen_terminated s tail :
  take (strlen (s ++ NUL :: tail)) (s ++ NUL :: tail) = take (strlen s) s.
Proof.
  induction s as [|ch s IH]; [done|]. simpl.
  destruct (Ascii.eqb ch NUL); [done|]. simpl. by rewrite IH.
Qed.

(** [execute] on a buffer that starts with [s] and a terminator is
    [execute] on [s]. *)
Lemma execute_terminated chunklen fill fuel s buf w :
  (s ++ [NUL]) `prefix_of` buf →
  execute chunklen fill fuel (Some buf) w
  = execute chunklen fill fuel (Some s) w.
Proof.
  intros [tail ->]. rewrite <- app_assoc. simpl. unfold execute.
  rewrite <- (run_cut chunklen fill fuel (s ++ NUL :: tail)) by (simpl; done || lia).
  rewrite <- (run_cut chunklen fill fuel s) by (simpl; done || lia).
  by rewrite strlen_terminated.
Qed.

Section ReadFile.

Variable chunklen : Z.
Variable junk : nat → ascii.
Variable fails : Z → bool.
Hypothesis chunklen_pos : 0 < chunklen.

Local Abbreviation get_prog_loop := (get_prog_loop chunklen junk fails).
Local Abbreviation get_prog := (get_prog chunklen junk fails).

Lemma get_prog_loop_spec fuel : ∀ file start done tail end_ len,
  (∀ z, fails z = false) → breaks file = false →
  ferror file = false → feof file = false →
  start = done ++ tail → length tail = S (Z.to_nat chunklen) →
  end_ = Z.of_nat (length done) → len = end_ + chunklen + 1 →
  (length (unread file) < fuel)%nat →
  ∃ buf file',
    get_prog_loop fuel file (Some start) end_ len
    = Some (Got (Some buf) file') ∧
    (done ++ unread file ++ [NUL]) `prefix_of` buf ∧
    unread file' = [] ∧ feof file' = true ∧ ferror file' = false.
Proof.
  induction fuel as [|k IH];
    intros file start done tail end_ len Hok Hbr Herr Heof -> Htail -> ->
           Hfuel; [lia|].
  set (n := Z.to_nat chunklen) in *.
  assert (chunklen = Z.of_nat n) as Hn by lia.
  rewrite get_prog_loop_S. fold n. unfold fread.
  destruct (n <=? length (unread file))%nat eqn:Hle.
  - apply Nat.leb_le in Hle.
    set (bytes := take n (unread file)).
    assert (length bytes = n) as Hb by (unfold bytes; rewrite length_take; lia).
    rewrite <- (take_drop n tail).
    rewrite (store_at_middle done (take n tail) (drop n tail) bytes)
      by (rewrite length_take; lia).
    destruct (drop n tail) as [|x [|y rest]] eqn:Hd;
      [apply (f_equal length) in Hd; rewrite length_drop in Hd;
       simpl in Hd; lia| |
       apply (f_equal length) in Hd; rewrite length_drop in Hd;
       simpl in Hd; lia].
    replace (Z.of_nat (length done) + Z.of_nat (length bytes))
      with (Z.of_nat (length (done ++ bytes)))
      by (rewrite length_app; lia).
    rewrite (app_assoc done bytes [x]).
    pose proof (store_at_middle (done ++ bytes) [x] [] [NUL] eq_refl) as E.
    simpl in E. rewrite E. clear E.
    simpl. rewrite Herr, Heof, Hok.
    rewrite realloc_grow
      by (rewrite !length_app; simpl; lia).
    match goal with
    | |- context [map junk ?l] => set (J := map junk l)
    end.
    assert (length J = n) as HJ.
    { unfold J. rewrite length_map, length_seq, !length_app. simpl. lia. }
    match goal with
    | |- context [get_prog_loop k ?F (Some ?ST) ?E ?L] =>
        destruct (IH F ST (done ++ bytes) (NUL :: J) E L)
          as (buf & file' & Hrun & Hpre & Hrest)
    end; simpl; try done; try (by rewrite <- app_assoc);
      try (rewrite ?length_app, ?length_drop, ?HJ; lia).
    exists buf, file'. split; [exact Hrun|]. split; [|done].
    simpl in Hpre. rewrite <- app_assoc in Hpre. unfold bytes in Hpre.
    by rewrite (app_assoc (take n _)), take_drop in Hpre.
  - apply Nat.leb_gt in Hle. rewrite Hbr.
    set (bytes := unread file).
    assert (length bytes < n)%nat as Hb by done.
    rewrite <- (take_drop (length bytes) tail).
    rewrite (store_at_middle done (take (length bytes) tail)
               (drop (length bytes) tail) bytes)
      by (rewrite length_take; lia).
    destruct (drop (length bytes) tail) as [|x rest] eqn:Hd;
      [apply (f_equal length) in Hd; rewrite length_drop in Hd;
       simpl in Hd; lia|].
    replace (Z.of_nat (length done) + Z.of_nat (length bytes))
      with (Z.of_nat (length (done ++ bytes)))
      by (rewrite length_app; lia).
    rewrite (app_assoc done bytes (x :: rest)).
    pose proof (store_at_middle (done ++ bytes) [x] rest [NUL] eq_refl) as E.
    simpl in E. rewrite E. clear E.
    simpl. rewrite Herr.
    eexists _, _. split; [done|]. split; [|done].
    exists rest. by rewrite <- !app_assoc.
Qed.

(** X13. get_prog of bfin, when no realloc fails and no read fails:
    given a stream with neither indicator set and the buffer of
    chunklen + 1 bytes main allocates, it returns (for any file length) a
    buffer that holds the whole rest of the file followed by a NUL, and
    leaves the stream at its end with the end-of-file indicator set. No
    access leaves the buffer. So execute on what get_prog returns is
    execute on the contents of the file. *)
Theorem get_prog_reads_whole_file file start fuel :
  (∀ z, fails z = false) → breaks file = false →
  ferror file = false → feof file = false →
  length start = S (Z.to_nat chunklen) →
  (length (unread file) < fuel)%nat →
  ∃ buf file',
    get_prog fuel file start = Some (Got (Some buf) file') ∧
    (unread file ++ [NUL]) `prefix_of` buf ∧
    unread file' = [] ∧ feof file' = true ∧
    ∀ cl fill n w,
      execute cl fill n (Some buf) w
      = execute cl fill n (Some (unread file)) w.
Proof.
  intros Hok Hbr Herr Heof Hlen Hfuel.
  destruct (get_prog_loop_spec fuel file start [] start 0 (chunklen + 1))
    as (buf & file' & Hrun & Hpre & Hrest & Hend & _); try done.
  exists buf, file'. split; [exact Hrun|]. split; [exact Hpre|].
  split; [done|]. split; [done|].
  intros cl fill n w. by apply execute_terminated.
Qed.

(** X23. When the first realloc of get_prog fails, bfin does not give up:
    the test made after the call is on start, the old pointer, instead of
    temp, so for a file of chunklen bytes or more that reads without error
    the loop goes on with start set to NULL and the next fread stores
    through a pointer computed from it. No diagnostic is printed and NULL
    is not returned. *)
Theorem get_prog_failed_realloc file start fuel :
  fails (chunklen + 1 + chunklen) = true →
  ferror file = false → feof file = false →
  (Z.to_nat chunklen ≤ length (unread file))%nat →
  length start = S (Z.to_nat chunklen) →
  (2 ≤ fuel)%nat →
  get_prog fuel file start = Some Fault.
Proof.
  intros Hfail Herr Heof Hfile Hlen Hfuel.
  destruct fuel as [|[|k]]; [lia..|].
  unfold get_prog. rewrite get_prog_loop_S. unfold fread.
  rewrite (proj2 (Nat.leb_le _ _)) by done.
  change 0 with (Z.of_nat 0).
  rewrite store_at_room by (rewrite length_take; lia).
  rewrite <- Nat2Z.inj_add.
  rewrite store_at_room
    by (rewrite !length_app, !length_take, length_drop; simpl; lia).
  simpl. rewrite Herr, Heof, Hfail.
  by destruct (fread _ _).
Qed.

End ReadFile.

(** ** Lines *)

Lemma take_of_take {A} (l : list A) a b :
  (a ≤ b)%nat → take a (take b l) = take a l.
Proof. intros H. by rewrite take_take, Nat.min_l. Qed.

Lemma char_of_newline : char_of 10 = newline.
Proof. reflexivity. Qed.

Lemma line_bytes_chars l :
  line_bytes l → Forall (λ c, c ≠ newline ∧ c ≠ NUL) (map char_of l).
Proof. intros H. by apply Forall_fmap. Qed.

Lemma line_bytes_check l :
  forallb (λ b, negb (Ascii.eqb (char_of b) newline)
                && negb (Ascii.eqb (char_of b) NUL)) l = true →
  line_bytes l.
Proof.
  intros H. apply Forall_forall. intros b Hb%list_elem_of_In.
  rewrite forallb_forall in H. specialize (H b Hb).
  apply andb_true_iff in H as [H1 H2].
  split; apply Ascii.eqb_neq; by apply negb_true_iff.
Qed.

Lemma upto_newline_short k l rest :
  line_bytes l → (length l < k)%nat →
  upto_newline k (l ++ 10 :: rest) = (map char_of l ++ [newline], rest).
Proof.
  revert k. induction l as [|b l IH]; intros k Hl Hk.
  - destruct k; [simpl in Hk; lia|]. done.
  - destruct k; [simpl in Hk; lia|]. simpl in *.
    apply Forall_cons in Hl as [[Hb _] Hl].
    rewrite (proj2 (Ascii.eqb_neq _ _) Hb).
    by rewrite IH by (done || lia).
Qed.

Lemma upto_newline_long k : ∀ l tail,
  line_bytes l → (k ≤ length l)%nat →
  upto_newline k (l ++ tail) = (map char_of (take k l), drop k l ++ tail).
Proof.
  induction k as [|k IH]; intros l tail Hl Hk; [done|].
  destruct l as [|b l]; [simpl in Hk; lia|]. simpl in *.
  apply Forall_cons in Hl as [[Hb _] Hl].
  rewrite (proj2 (Ascii.eqb_neq _ _) Hb).
  by rewrite IH by (done || lia).
Qed.

Lemma strchr_found cs tail off :
  Forall (λ c, c ≠ newline ∧ c ≠ NUL) cs →
  strchr (cs ++ newline :: tail) newline off
  = Some (Some (off + Z.of_nat (length cs))).
Proof.
  revert off. induction cs as [|c cs IH]; intros off Hcs.
  - simpl. do 3 f_equal. lia.
  - apply Forall_cons in Hcs as [[Hn Hz] Hcs]. simpl.
    rewrite (proj2 (Ascii.eqb_neq _ _) Hn), (proj2 (Ascii.eqb_neq _ _) Hz).
    rewrite IH by done. do 2 f_equal. lia.
Qed.

Lemma strchr_none cs tail off :
  Forall (λ c, c ≠ newline ∧ c ≠ NUL) cs →
  strchr (cs ++ NUL :: tail) newline off = Some None.
Proof.
  revert off. induction cs as [|c cs IH]; intros off Hcs; [done|].
  apply Forall_cons in Hcs as [[Hn Hz] Hcs]. simpl.
  rewrite (proj2 (Ascii.eqb_neq _ _) Hn), (proj2 (Ascii.eqb_neq _ _) Hz).
  by apply IH.
Qed.

Lemma get_line_loop_S chunklen junk err k input start end_ len :
  get_line_loop chunklen junk err (S k) input start end_ len =
  let '(stored, input) := fgets chunklen input in
  match match stored with
        | Some bytes => store_at start end_ bytes
        | None => Some start
        end with
  | None => Some Fault
  | Some start =>
      if err then Some (Got None input)
      else
        match scan_from start end_ newline with
        | None => Some Fault
        | Some (Some temp) =>
            match store_at start temp [NUL] with
            | None => Some Fault
            | Some start => Some (Got (Some start) input)
            end
        | Some None =>
            get_line_loop chunklen junk err k input
              (realloc junk start (len + chunklen))
              (len + chunklen - chunklen - 1) (len + chunklen)
        end
  end.
Proof. reflexivity. Qed.

Section ReadLine.

Variable chunklen : Z.
Variable junk : nat → ascii.
Hypothesis chunklen_two : 2 <= chunklen.

Local Abbreviation get_line_loop := (get_line_loop chunklen junk false).
Local Abbreviation get_line := (get_line chunklen junk false).

(** The bytes of a chunk, and the chars [fgets] reads at most. *)
Local Abbreviation n := (Z.to_nat chunklen).
Local Abbreviation m := (Z.to_nat chunklen - 1)%nat.

Lemma fgets_short l rest :
  line_bytes l → (length l < m)%nat →
  fgets chunklen (l ++ 10 :: rest)
  = (Some (map char_of l ++ [newline; NUL]), rest).
Proof.
  intros Hl Hm. unfold fgets.
  rewrite (proj2 (Z.leb_gt _ _)) by lia.
  destruct (l ++ 10 :: rest) as [|b t] eqn:E; [by destruct l|].
  rewrite <- E. replace (Z.to_nat (chunklen - 1)) with m by lia.
  rewrite upto_newline_short by done. simpl. by rewrite <- app_assoc.
Qed.

Lemma fgets_long l tail :
  line_bytes l → (m ≤ length l)%nat →
  fgets chunklen (l ++ tail)
  = (Some (map char_of (take m l) ++ [NUL]), drop m l ++ tail).
Proof.
  intros Hl Hm. unfold fgets.
  rewrite (proj2 (Z.leb_gt _ _)) by lia.
  destruct (l ++ tail) as [|b t] eqn:E.
  { destruct l; [simpl in Hm; lia|done]. }
  rewrite <- E. replace (Z.to_nat (chunklen - 1)) with m by lia.
  by rewrite upto_newline_long by done.
Qed.

(** The turn of the loop that finds the newline. *)
Lemma get_line_loop_last k l rest start e len :
  line_bytes l → (length l < m)%nat →
  (e + length l + 2 ≤ length start)%nat →
  get_line_loop (S k) (l ++ 10 :: rest) start (Z.of_nat e) len
  = Some (Got (Some (take e start ++ map char_of l ++ [NUL; NUL]
                     ++ drop (e + length l + 2) start)) rest).
Proof.
  intros Hl Hm He. rewrite get_line_loop_S, fgets_short by done.
  rewrite store_at_room
    by (rewrite length_app, length_map; simpl; lia).
  rewrite length_app, length_map. simpl.
  replace (e + (length l + 2))%nat with (e + length l + 2)%nat by lia.
  set (post := drop (e + length l + 2) start).
  assert (length (take e start) = e) as Hpre by (rewrite length_take; lia).
  unfold scan_from. rewrite (proj2 (Z.ltb_ge _ _)) by lia.
  rewrite Nat2Z.id, drop_app_length' by done.
  rewrite <- app_assoc. simpl.
  rewrite strchr_found by by apply line_bytes_chars.
  rewrite length_map.
  pose proof (store_at_middle (take e start ++ map char_of l) [newline]
                (NUL :: post) [NUL] eq_refl) as E.
  rewrite length_app, length_map, Hpre, Nat2Z.inj_add in E.
  rewrite <- !app_assoc in E. simpl in E. by rewrite E.
Qed.

(** A turn of the loop that finds no newline. *)
Lemma get_line_loop_more k l tail start e len :
  line_bytes l → (m ≤ length l)%nat → (e + n ≤ length start)%nat →
  get_line_loop (S k) (l ++ tail) start (Z.of_nat e) len
  = get_line_loop k (drop m l ++ tail)
      (realloc junk (take e start ++ map char_of (take m l) ++ [NUL]
                     ++ drop (e + n) start) (len + chunklen))
      (len + chunklen - chunklen - 1) (len + chunklen).
Proof.
  intros Hl Hm He. rewrite get_line_loop_S, fgets_long by done.
  assert (length (map char_of (take m l) ++ [NUL]) = n) as Hb.
  { rewrite length_app, length_map, length_take. simpl. lia. }
  rewrite store_at_room by lia. rewrite Hb.
  set (post := drop (e + n) start).
  assert (length (take e start) = e) as Hpre by (rewrite length_take; lia).
  unfold scan_from. rewrite (proj2 (Z.ltb_ge _ _)) by lia.
  rewrite Nat2Z.id, drop_app_length' by done.
  rewrite <- app_assoc. simpl.
  rewrite strchr_none; [done|].
  apply line_bytes_chars. by apply Forall_take.
Qed.

(** Once the loop has moved on, what lies before [end] stays: the loop ends
    when the newline arrives and the buffer it returns begins as the
    buffer did. *)
Lemma get_line_loop_keeps fuel : ∀ l rest start e len,
  line_bytes l → (length l < fuel)%nat →
  (e + n ≤ length start)%nat → (length start ≤ Z.to_nat (len + chunklen))%nat →
  Z.of_nat (e + n) <= len →
  ∃ buf,
    get_line_loop fuel (l ++ 10 :: rest) start (Z.of_nat e) len
    = Some (Got (Some buf) rest) ∧
    take e buf = take e start.
Proof.
  induction fuel as [|k IH]; intros l rest start e len Hl Hfuel He Hs Hlen;
    [lia|].
  destruct (decide (length l < m)%nat) as [Hshort|Hlong].
  - eexists. split; [apply get_line_loop_last; done || lia|].
    by rewrite take_app_length' by (rewrite length_take; lia).
  - rewrite get_line_loop_more by (done || lia).
    set (start' := realloc junk _ _).
    assert (length (take e start ++ map char_of (take m l) ++ [NUL]
                    ++ drop (e + n) start) = length start) as Hsame.
    { rewrite !length_app, length_map, !length_take, length_drop.
      simpl. lia. }
    assert (length start' = Z.to_nat (len + chunklen)) as Hs'.
    { unfold start'. apply realloc_length. lia. }
    replace (len + chunklen - chunklen - 1) with (Z.of_nat (Z.to_nat (len - 1)))
      by lia.
    destruct (IH (drop m l) rest start' (Z.to_nat (len - 1)) (len + chunklen))
      as (buf & Hrun & Hkeep); try lia.
    + by apply Forall_drop.
    + rewrite length_drop. lia.
    + exists buf. split; [exact Hrun|].
      assert (e ≤ Z.to_nat (len - 1))%nat as Hee by lia.
      rewrite <- (take_of_take buf e (Z.to_nat (len - 1))) by lia.
      rewrite Hkeep, take_of_take by lia.
      unfold start'. rewrite realloc_grow by lia.
      rewrite take_app_le by lia.
      by rewrite take_app_length' by (rewrite length_take; lia).
Qed.

(** The buffer after the first turn of the loop, when the first
    [chunklen - 1] bytes of the input hold no newline. *)
Lemma get_line_first k l tail start :
  line_bytes l → (m ≤ length l)%nat → (n ≤ length start ≤ n + 1)%nat →
  ∃ start1,
    get_line (S k) (l ++ tail) start
    = get_line_loop k (drop m l ++ tail) start1 (Z.of_nat m)
        (chunklen + chunklen) ∧
    length start1 = (n + n)%nat ∧
    take m start1 = map char_of (take m l).
Proof.
  intros Hl Hm Hs. unfold get_line.
  change 0 with (Z.of_nat 0).
  rewrite get_line_loop_more by (done || lia).
  replace (chunklen + chunklen - chunklen - 1) with (Z.of_nat m) by lia.
  eexists. split; [done|].
  assert (length (take 0 start ++ map char_of (take m l) ++ [NUL]
                  ++ drop (0 + n) start) = length start) as Hsame.
  { rewrite !length_app, length_map, !length_take, length_drop.
    simpl. lia. }
  split; [rewrite realloc_length; lia|].
  rewrite realloc_grow by lia. simpl.
  rewrite <- app_assoc.
  by rewrite take_app_length' by (rewrite length_map, length_take; lia).
Qed.

(** X14. get_line of bfin on a line of at most 2 * (chunklen - 1) - 1
    bytes, none of them NUL, followed by a newline: given a buffer of
    chunklen or chunklen + 1 bytes (what main passes) it returns, within
    two turns of its loop, a buffer that holds the line without its
    newline followed by a NUL, and leaves the input just after the
    newline; no access leaves the buffer. So execute on the result is
    execute on the line, and a ',' in it reads what follows the line. *)
Theorem get_line_reads_line l rest start fuel :
  line_bytes l → Z.of_nat (length l) + 1 <= 2 * (chunklen - 1) →
  chunklen <= Z.of_nat (length start) <= chunklen + 1 →
  (2 ≤ fuel)%nat →
  ∃ buf,
    get_line fuel (l ++ 10 :: rest) start = Some (Got (Some buf) rest) ∧
    (map char_of l ++ [NUL]) `prefix_of` buf ∧
    ∀ cl fill k w,
      execute cl fill k (Some buf) w
      = execute cl fill k (Some (map char_of l)) w.
Proof.
  intros Hl Hfit Hs Hfuel.
  destruct fuel as [|[|k]]; [lia..|].
  assert (∃ buf,
            get_line (S (S k)) (l ++ 10 :: rest) start
            = Some (Got (Some buf) rest) ∧
            (map char_of l ++ [NUL]) `prefix_of` buf) as (buf & Hrun & Hpre).
  { destruct (decide (length l < m)%nat) as [Hshort|Hlong].
    - eexists. split.
      + unfold get_line. change 0 with (Z.of_nat 0).
        apply get_line_loop_last; done || lia.
      + simpl. eexists. by rewrite <- app_assoc.
    - destruct (get_line_first (S k) l (10 :: rest) start)
        as (start1 & -> & Hlen1 & Htake1); [done|lia|lia|].
      eexists. split.
      + apply get_line_loop_last;
          [by apply Forall_drop|rewrite length_drop; lia|
           rewrite length_drop; lia].
      + rewrite Htake1, app_assoc, <- map_app, take_drop.
        eexists. by rewrite <- app_assoc. }
  exists buf. split; [done|]. split; [done|].
  intros cl fill j w. by apply execute_terminated.
Qed.

(** X15. get_line of bfin on a longer line (2 * (chunklen - 1) bytes or
    more before the newline, none of them NUL): it still returns and still
    takes the whole line and its newline off the input, but the buffer it
    returns holds a NUL right after the first 2 * (chunklen - 1) bytes of
    the line, left there by the second fgets and never overwritten. So
    execute runs only that beginning of the line; the rest is dropped
    without a diagnostic. *)
Theorem get_line_cuts_long_line l rest start fuel :
  line_bytes l → 2 * (chunklen - 1) <= Z.of_nat (length l) →
  chunklen <= Z.of_nat (length start) <= chunklen + 1 →
  (length l < fuel)%nat →
  ∃ buf,
    get_line fuel (l ++ 10 :: rest) start = Some (Got (Some buf) rest) ∧
    (map char_of (take (2 * m) l) ++ [NUL]) `prefix_of` buf ∧
    ∀ cl fill k w,
      execute cl fill k (Some buf) w
      = execute cl fill k (Some (map char_of (take (2 * m) l))) w.
Proof.
  intros Hl Hlong Hs Hfuel.
  destruct fuel as [|[|k]]; [lia..|].
  destruct (get_line_first (S k) l (10 :: rest) start)
    as (start1 & -> & Hlen1 & Htake1); [done|lia|lia|].
  rewrite get_line_loop_more;
    [|by apply Forall_drop|rewrite length_drop; lia|lia].
  set (start2 := realloc junk _ _).
  assert (length (take m start1 ++ map char_of (take m (drop m l)) ++ [NUL]
                  ++ drop (m + n) start1) = length start1) as Hsame.
  { rewrite !length_app, length_map, !length_take, !length_drop.
    simpl. lia. }
  assert (length start2 = (n + n + n)%nat) as Hlen2.
  { unfold start2. rewrite realloc_length; lia. }
  assert (take (n + n - 1) start2 = map char_of (take (2 * m) l) ++ [NUL])
    as Htake2.
  { unfold start2. rewrite realloc_grow by lia.
    rewrite take_app_le by lia.
    rewrite Htake1, !app_assoc, <- map_app, take_take_drop.
    rewrite <- app_assoc.
    replace (m + m)%nat with (2 * m)%nat by lia.
    rewrite app_assoc.
    apply take_app_length'.
    rewrite length_app, length_map, length_take. simpl. lia. }
  replace (chunklen + chunklen + chunklen - chunklen - 1)
    with (Z.of_nat (n + n - 1)) by lia.
  destruct (get_line_loop_keeps k (drop m (drop m l)) rest start2
              (n + n - 1) (chunklen + chunklen + chunklen))
    as (buf & Hrun & Hkeep); try lia.
  { by do 2 apply Forall_drop. }
  { rewrite !length_drop. lia. }
  assert ((map char_of (take (2 * m) l) ++ [NUL]) `prefix_of` buf) as Hpre.
  { rewrite <- Htake2, <- Hkeep. apply prefix_take. }
  exists buf. split; [exact Hrun|]. split; [done|].
  intros cl fill j w. by apply execute_terminated.
Qed.

End ReadLine.

(** * Reading the program text in bfvm *)

Lemma getline_loop_S chunklen junk moves k input blk start end_blk end_ len :
  getline_loop chunklen junk moves (S k) input blk start end_blk end_ len =
  if negb (end_blk =? blk)%nat then Some Fault
  else
    let '(stored, input) := fgets chunklen input in
    match match stored with
          | Some bytes => store_at start end_ bytes
          | None => Some start
          end with
    | None => Some Fault
    | Some start =>
        match scan_from start end_ newline with
        | None => Some Fault
        | Some (Some _) => Some (Got (Some start) input)
        | Some None =>
            getline_loop chunklen junk moves k input
              (if moves (len + chunklen) then S blk else blk)
              (realloc junk start (len + chunklen)) end_blk
              (end_ + chunklen) (len + chunklen)
        end
    end.
Proof. reflexivity. Qed.

Lemma getprog_loop_S chunklen junk moves k file blk start end_blk end_ len :
  getprog_loop chunklen junk moves (S k) file blk start end_blk end_ len =
  if negb (end_blk =? blk)%nat then Some Fault
  else
    let '(bytes, file) := fread (Z.to_nat chunklen) file in
    match store_at start end_ bytes with
    | None => Some Fault
    | Some start =>
        if feof file then
          match store_at start (end_ + Z.of_nat (length bytes)) [NUL] with
          | None => Some Fault
          | Some start => Some (Got (Some start) file)
          end
        else
          getprog_loop chunklen junk moves k file
            (if moves (len + chunklen) then S blk else blk)
            (realloc junk start (len + chunklen)) end_blk
            (end_ + chunklen) (len + chunklen)
    end.
Proof. reflexivity. Qed.

Section BfvmLine.

Variable chunklen : Z.
Variable junk : nat → ascii.
Variable moves : Z → bool.
Hypothesis chunklen_two : 2 <= chunklen.

Local Abbreviation getline_loop := (getline_loop chunklen junk moves).
Local Abbreviation getline := (getline chunklen junk moves).
Local Abbreviation n := (Z.to_nat chunklen).
Local Abbreviation m := (Z.to_nat chunklen - 1)%nat.

(** The turn of the loop that finds the newline. *)
Lemma getline_loop_last k l rest blk start e len :
  line_bytes l → (length l < m)%nat →
  (e + length l + 2 ≤ length start)%nat →
  getline_loop (S k) (l ++ 10 :: rest) blk start blk (Z.of_nat e) len
  = Some (Got (Some (take e start ++ map char_of l ++ [newline; NUL]
                     ++ drop (e + length l + 2) start)) rest).
Proof.
  intros Hl Hm He. rewrite getline_loop_S, Nat.eqb_refl. simpl negb. cbv iota.
  rewrite (fgets_short chunklen) by done.
  rewrite store_at_room
    by (rewrite length_app, length_map; simpl; lia).
  rewrite length_app, length_map. simpl.
  replace (e + (length l + 2))%nat with (e + length l + 2)%nat by lia.
  set (post := drop (e + length l + 2) start).
  assert (length (take e start) = e) as Hpre by (rewrite length_take; lia).
  unfold scan_from. rewrite (proj2 (Z.ltb_ge _ _)) by lia.
  rewrite Nat2Z.id, drop_app_length' by done.
  rewrite <- app_assoc. simpl.
  by rewrite strchr_found by by apply line_bytes_chars.
Qed.

(** A turn of the loop that finds no newline. *)
Lemma getline_loop_more k l tail blk start e len :
  line_bytes l → (m ≤ length l)%nat → (e + n ≤ length start)%nat →
  getline_loop (S k) (l ++ tail) blk start blk (Z.of_nat e) len
  = getline_loop k (drop m l ++ tail)
      (if moves (len + chunklen) then S blk else blk)
      (realloc junk (take e start ++ map char_of (take m l) ++ [NUL]
                     ++ drop (e + n) start) (len + chunklen))
      blk (Z.of_nat e + chunklen) (len + chunklen).
Proof.
  intros Hl Hm He. rewrite getline_loop_S, Nat.eqb_refl. simpl negb. cbv iota.
  rewrite (fgets_long chunklen) by done.
  assert (length (map char_of (take m l) ++ [NUL]) = n) as Hb.
  { rewrite length_app, length_map, length_take. simpl. lia. }
  rewrite store_at_room by lia. rewrite Hb.
  set (post := drop (e + n) start).
  assert (length (take e start) = e) as Hpre by (rewrite length_take; lia).
  unfold scan_from. rewrite (proj2 (Z.ltb_ge _ _)) by lia.
  rewrite Nat2Z.id, drop_app_length' by done.
  rewrite <- app_assoc. simpl.
  rewrite strchr_none; [done|].
  apply line_bytes_chars. by apply Forall_take.
Qed.

(** While [realloc] extends the block in place the loop goes on to the
    newline, and what lies before [end] stays. *)
Lemma getline_loop_keeps fuel : ∀ l rest blk start e len,
  (∀ z, moves z = false) →
  line_bytes l → (length l < fuel)%nat →
  (e + n ≤ length start)%nat → (length start ≤ Z.to_nat (len + chunklen))%nat →
  Z.of_nat (e + n) <= len →
  ∃ buf,
    getline_loop fuel (l ++ 10 :: rest) blk start blk (Z.of_nat e) len
    = Some (Got (Some buf) rest) ∧
    take e buf = take e start.
Proof.
  induction fuel as [|k IH];
    intros l rest blk start e len Hstay Hl Hfuel He Hs Hlen; [lia|].
  destruct (decide (length l < m)%nat) as [Hshort|Hlong].
  - eexists. split; [apply getline_loop_last; done || lia|].
    by rewrite take_app_length' by (rewrite length_take; lia).
  - rewrite getline_loop_more by (done || lia). rewrite Hstay.
    set (start' := realloc junk _ _).
    assert (length (take e start ++ map char_of (take m l) ++ [NUL]
                    ++ drop (e + n) start) = length start) as Hsame.
    { rewrite !length_app, length_map, !length_take, length_drop.
      simpl. lia. }
    assert (length start' = Z.to_nat (len + chunklen)) as Hs'.
    { unfold start'. apply realloc_length. lia. }
    replace (Z.of_nat e + chunklen) with (Z.of_nat (e + n)) by lia.
    destruct (IH (drop m l) rest blk start' (e + n)%nat (len + chunklen))
      as (buf & Hrun & Hkeep); try (done || lia).
    + by apply Forall_drop.
    + rewrite length_drop. lia.
    + exists buf. split; [exact Hrun|].
      rewrite <- (take_of_take buf e (e + n)) by lia.
      rewrite Hkeep, take_of_take by lia.
      unfold start'. rewrite realloc_grow by lia.
      rewrite take_app_le by lia.
      by rewrite take_app_length' by (rewrite length_take; lia).
Qed.

(** X16. getline of bfvm on a line of fewer than chunklen - 1 bytes (none
    NUL) ended by a newline, given a buffer of at least chunklen bytes:
    it returns in the first turn of its loop a buffer that holds the
    line, its newline (which is not cleared) and a NUL, and leaves the
    input just after the newline. So execute on the result is execute on
    the line followed by a newline. *)
Theorem bfvm_getline_reads_line l rest start fuel :
  line_bytes l → Z.of_nat (length l) + 1 < chunklen →
  chunklen <= Z.of_nat (length start) →
  (1 ≤ fuel)%nat →
  ∃ buf,
    getline fuel (l ++ 10 :: rest) start = Some (Got (Some buf) rest) ∧
    (map char_of l ++ [newline; NUL]) `prefix_of` buf ∧
    ∀ cl fill k w,
      execute cl fill k (Some buf) w
      = execute cl fill k (Some (map char_of l ++ [newline])) w.
Proof.
  intros Hl Hfit Hs Hfuel. destruct fuel as [|k]; [lia|].
  eexists. split.
  { unfold getline. change 0 with (Z.of_nat 0).
    apply getline_loop_last; done || lia. }
  simpl. split; [eexists; by rewrite <- app_assoc|].
  intros cl fill j w. apply execute_terminated.
  eexists. by rewrite <- !app_assoc.
Qed.

(** X17. getline of bfvm cuts a longer line (chunklen - 1 bytes or more
    before the newline, none NUL) after its first chunklen - 1 bytes, when
    every realloc extends the block in place: it returns and takes the
    whole line and its newline off the input, but the NUL written by the
    first fgets stays where it is, since the next round reads to one byte
    after it. So execute runs only the first chunklen - 1 bytes of the
    line. *)
Theorem bfvm_getline_cuts_line l rest start fuel :
  (∀ z, moves z = false) →
  line_bytes l → chunklen - 1 <= Z.of_nat (length l) →
  chunklen <= Z.of_nat (length start) <= chunklen + 1 →
  (length l < fuel)%nat →
  ∃ buf,
    getline fuel (l ++ 10 :: rest) start = Some (Got (Some buf) rest) ∧
    (map char_of (take m l) ++ [NUL]) `prefix_of` buf ∧
    ∀ cl fill k w,
      execute cl fill k (Some buf) w
      = execute cl fill k (Some (map char_of (take m l))) w.
Proof.
  intros Hstay Hl Hlong Hs Hfuel.
  destruct fuel as [|k]; [lia|].
  unfold getline. change 0 with (Z.of_nat 0).
  rewrite getline_loop_more by (done || lia). rewrite Hstay.
  set (start1 := realloc junk _ _).
  assert (length (take 0 start ++ map char_of (take m l) ++ [NUL]
                  ++ drop (0 + n) start) = length start) as Hsame.
  { rewrite !length_app, length_map, !length_take, length_drop.
    simpl. lia. }
  assert (length start1 = (n + n)%nat) as Hlen1.
  { unfold start1. rewrite realloc_length; lia. }
  assert (take n start1 = map char_of (take m l) ++ [NUL]) as Htake1.
  { unfold start1. rewrite realloc_grow by lia.
    rewrite take_0, app_nil_l.
    rewrite take_app_le
      by (rewrite !length_app, length_map, length_take; simpl; lia).
    rewrite app_assoc. apply take_app_length'.
    rewrite length_app, length_map, length_take. simpl. lia. }
  replace (Z.of_nat 0 + chunklen) with (Z.of_nat n) by lia.
  destruct (getline_loop_keeps k (drop m l) rest 0%nat start1 n
              (chunklen + chunklen))
    as (buf & Hrun & Hkeep); try (done || lia).
  { by apply Forall_drop. }
  { rewrite length_drop. lia. }
  assert ((map char_of (take m l) ++ [NUL]) `prefix_of` buf) as Hpre.
  { rewrite <- Htake1, <- Hkeep. apply prefix_take. }
  exists buf. split; [exact Hrun|]. split; [done|].
  intros cl fill j w. by apply execute_terminated.
Qed.

(** X18. When the first realloc of getline hands back another block, a
    line of chunklen - 1 bytes or more makes bfvm write through a pointer
    into the block just freed: end is moved on from its old value instead
    of being set from the new start. *)
Theorem bfvm_getline_stale_pointer l tail start fuel :
  moves (chunklen + chunklen) = true →
  line_bytes l → chunklen - 1 <= Z.of_nat (length l) →
  chunklen <= Z.of_nat (length start) →
  (2 ≤ fuel)%nat →
  getline fuel (l ++ tail) start = Some Fault.
Proof.
  intros Hmove Hl Hlong Hs Hfuel.
  destruct fuel as [|[|k]]; [lia..|].
  unfold getline. change 0 with (Z.of_nat 0).
  rewrite getline_loop_more by (done || lia). rewrite Hmove.
  by rewrite getline_loop_S.
Qed.

End BfvmLine.

Section BfvmFile.

Variable chunklen : Z.
Variable junk : nat → ascii.
Variable moves : Z → bool.
Hypothesis chunklen_pos : 0 < chunklen.

Local Abbreviation getprog_loop := (getprog_loop chunklen junk moves).
Local Abbreviation getprog := (getprog chunklen junk moves).
Local Abbreviation n := (Z.to_nat chunklen).

Lemma getprog_loop_spec fuel : ∀ file blk start done tail end_ len,
  (∀ z, moves z = false) → breaks file = false → feof file = false →
  start = done ++ tail → (n ≤ length tail)%nat →
  end_ = Z.of_nat (length done) →
  (length start ≤ Z.to_nat (len + chunklen))%nat → end_ + chunklen <= len →
  (length (unread file) < fuel)%nat →
  ∃ buf file',
    getprog_loop fuel file blk start blk end_ len
    = Some (Got (Some buf) file') ∧
    (done ++ unread file ++ [NUL]) `prefix_of` buf ∧
    unread file' = [] ∧ feof file' = true.
Proof.
  induction fuel as [|k IH];
    intros file blk start done tail end_ len Hstay Hbr Heof -> Htail -> Hs
           Hlen Hfuel; [lia|].
  rewrite getprog_loop_S, Nat.eqb_refl. simpl negb. cbv iota. unfold fread.
  destruct (n <=? length (unread file))%nat eqn:Hle.
  - apply Nat.leb_le in Hle.
    set (bytes := take n (unread file)).
    assert (length bytes = n) as Hb by (unfold bytes; rewrite length_take; lia).
    rewrite <- (take_drop n tail).
    rewrite (store_at_middle done (take n tail) (drop n tail) bytes)
      by (rewrite length_take; lia).
    simpl. rewrite Heof, Hstay.
    rewrite length_app in Hs.
    rewrite realloc_grow
      by (rewrite !length_app, length_drop; lia).
    match goal with
    | |- context [map junk ?l] => set (J := map junk l)
    end.
    assert (length J = Z.to_nat (len + chunklen) - (length done + length tail))%nat
      as HJ.
    { unfold J. rewrite length_map, length_seq, !length_app, length_drop. lia. }
    match goal with
    | |- context [getprog_loop k ?F ?B ?ST ?B' ?E ?L] =>
        destruct (IH F B ST (done ++ bytes) (drop n tail ++ J) E L)
          as (buf & file' & Hrun & Hpre & Hrest)
    end; simpl; try done; try (by rewrite <- !app_assoc);
      try (rewrite ?length_app, ?length_drop, ?HJ; lia).
    exists buf, file'. split; [exact Hrun|]. split; [|done].
    simpl in Hpre. rewrite <- app_assoc in Hpre. unfold bytes in Hpre.
    by rewrite (app_assoc (take n _)), take_drop in Hpre.
  - apply Nat.leb_gt in Hle. rewrite Hbr.
    set (bytes := unread file).
    assert (length bytes < n)%nat as Hb by done.
    rewrite <- (take_drop (length bytes) tail).
    rewrite (store_at_middle done (take (length bytes) tail)
               (drop (length bytes) tail) bytes)
      by (rewrite length_take; lia).
    destruct (drop (length bytes) tail) as [|x rest] eqn:Hd;
      [apply (f_equal length) in Hd; rewrite length_drop in Hd;
       simpl in Hd; lia|].
    simpl.
    replace (Z.of_nat (length done) + Z.of_nat (length bytes))
      with (Z.of_nat (length (done ++ bytes)))
      by (rewrite length_app; lia).
    rewrite (app_assoc done bytes (x :: rest)).
    pose proof (store_at_middle (done ++ bytes) [x] rest [NUL] eq_refl) as E.
    simpl in E. rewrite E. clear E.
    eexists _, _. split; [done|]. split; [|done].
    exists rest. by rewrite <- !app_assoc.
Qed.

(** X19. getprog of bfvm, while every realloc extends the block in place
    and no read fails: given a stream not at its end and the buffer of
    chunklen + 1 bytes main allocates, it returns a buffer that holds the
    whole rest of the file followed by a NUL and leaves the stream at its
    end; no access leaves the buffer. So execute on the result is execute
    on the contents of the file. *)
Theorem bfvm_getprog_reads_whole_file file start fuel :
  (∀ z, moves z = false) → breaks file = false → feof file = false →
  length start = S n → (length (unread file) < fuel)%nat →
  ∃ buf file',
    getprog fuel file start = Some (Got (Some buf) file') ∧
    (unread file ++ [NUL]) `prefix_of` buf ∧
    unread file' = [] ∧ feof file' = true ∧
    ∀ cl fill j w,
      execute cl fill j (Some buf) w
      = execute cl fill j (Some (unread file)) w.
Proof.
  intros Hstay Hbr Heof Hlen Hfuel.
  destruct (getprog_loop_spec fuel file 0%nat start [] start 0 chunklen)
    as (buf & file' & Hrun & Hpre & Hrest & Hend); try (done || lia).
  exists buf, file'. split; [exact Hrun|]. split; [exact Hpre|].
  split; [done|]. split; [done|].
  intros cl fill j w. by apply execute_terminated.
Qed.

(** X20. When the first realloc of getprog hands back another block, a
    file of chunklen bytes or more makes bfvm read into the block just
    freed: as in getline, end is moved on from its old value. *)
Theorem bfvm_getprog_stale_pointer file start fuel :
  moves (chunklen + chunklen) = true → feof file = false →
  (n ≤ length (unread file))%nat → (n ≤ length start)%nat →
  (2 ≤ fuel)%nat →
  getprog fuel file start = Some Fault.
Proof.
  intros Hmove Heof Hfile Hs Hfuel.
  destruct fuel as [|[|k]]; [lia..|].
  unfold getprog. rewrite getprog_loop_S. simpl negb. cbv iota.
  unfold fread. rewrite (proj2 (Nat.leb_le _ _)) by done.
  change 0 with (Z.of_nat 0).
  rewrite store_at_room by (rewrite length_take; lia).
  simpl. rewrite Heof, Hmove. done.
Qed.

Lemma getprog_loop_read_error fuel : ∀ file blk start e len,
  (∀ z, moves z = false) → breaks file = true → feof file = false →
  (e + n ≤ length start)%nat →
  (length start ≤ Z.to_nat (len + chunklen))%nat →
  Z.of_nat e + chunklen <= len →
  getprog_loop fuel file blk start blk (Z.of_nat e) len = None.
Proof.
  induction fuel as [|k IH]; intros file blk start e len Hstay Hbr Heof He Hs
                                    Hlen; [done|].
  rewrite getprog_loop_S, Nat.eqb_refl. simpl negb. cbv iota.
  assert (∃ bytes file',
            fread n file = (bytes, file') ∧ (length bytes ≤ n)%nat ∧
            breaks file' = true ∧ feof file' = false)
    as (bytes & file' & -> & Hb & Hbr' & Heof').
  { unfold fread. destruct (n <=? length (unread file))%nat eqn:Hle.
    - eexists _, _. split; [done|]. simpl.
      rewrite length_take. split; [lia|done].
    - apply Nat.leb_gt in Hle. rewrite Hbr. eexists _, _.
      split; [done|]. simpl. split; [lia|done]. }
  rewrite store_at_room by lia. rewrite Heof', Hstay.
  replace (Z.of_nat e + chunklen) with (Z.of_nat (e + n)) by lia.
  assert (length (take e start ++ bytes ++ drop (e + length bytes) start)
          = length start) as Hsame.
  { rewrite !length_app, length_take, length_drop. lia. }
  apply IH; try done.
  - rewrite realloc_length; lia.
  - rewrite realloc_length; lia.
  - lia.
Qed.

(** X24. getprog of bfvm has no test for a read error. On a stream whose
    reads fail before the end of the file is met, and while every realloc
    extends the block in place, the loop never ends: the end-of-file
    indicator is never set, so each further turn asks realloc for chunklen
    more bytes and reads nothing. However many turns are allowed, getprog
    has not returned. *)
Theorem bfvm_getprog_read_error file start fuel :
  (∀ z, moves z = false) → breaks file = true → feof file = false →
  length start = S n →
  getprog fuel file start = None.
Proof.
  intros Hstay Hbr Heof Hlen. unfold getprog.
  change 0 with (Z.of_nat 0).
  apply getprog_loop_read_error; try done; lia.
Qed.

End BfvmFile.

(** * The two programs on concrete inputs *)

Lemma bfin_chunklen_pos pagesize : 32 < pagesize → 0 < Bfin.chunklen pagesize.
Proof.
  intros H. unfold Bfin.chunklen, chunklen_of.
  rewrite (proj2 (Z.ltb_ge _ _)); lia.
Qed.

Lemma bfvm_chunklen_pos pagesize : 8 < pagesize → 0 < Bfvm.chunklen pagesize.
Proof.
  intros H. unfold Bfvm.chunklen, chunklen_of.
  rewrite (proj2 (Z.ltb_ge _ _)); lia.
Qed.

Lemma bfvm_init_wf pagesize input :
  8 < pagesize → wf (Bfvm.chunklen pagesize) (Bfvm.init pagesize input).
Proof. intros H. by apply init_world_wf, bfvm_chunklen_pos. Qed.

Lemma bfin_init_wf pagesize junk input :
  32 < pagesize →
  wf (Bfin.chunklen pagesize) (Bfin.init_bfin pagesize junk input).
Proof. intros H. by apply init_world_wf, bfin_chunklen_pos. Qed.

(** The block of a new chunk holds what the allocator handed out. *)
Lemma fresh_block_at chunklen fill k i :
  0 <= i < chunklen →
  block_at (block chunklen fill k) i = Some (fill k (Z.to_nat i)).
Proof.
  intros Hi. unfold block_at, block.
  rewrite (proj2 (Z.ltb_ge _ _)) by lia.
  rewrite list_lookup_fmap, lookup_seq_lt by lia. done.
Qed.

(** In bfvm, where the block comes from [calloc], every byte of a chunk
    just allocated reads 0. *)
Lemma bfvm_fresh_chunk_zero pagesize h i :
  0 <= i < Bfvm.chunklen pagesize →
  byte_at (alloc_memchunk (Bfvm.chunklen pagesize) zeroed h).1
          (alloc_memchunk (Bfvm.chunklen pagesize) zeroed h).2 i
  = Some 0.
Proof.
  intros Hi. unfold alloc_memchunk, byte_at. simpl.
  rewrite lookup_app_r, Nat.sub_diag by lia. simpl.
  by rewrite fresh_block_at.
Qed.

(** C3, at the failing input. In bfin the block of a chunk comes from
    malloc and is not cleared: with an allocator that hands back used
    memory, the first byte of the chunk allocated when the cursor leaves the
    initial chunk on the right reads 7, and that is what the program
    prints. *)
Theorem bfin_fresh_chunk_not_zeroed :
  printed (Bfin.execute 4096 stale 2034 (Some walk_right_and_print)
             (Bfin.init_bfin 4096 stale []))
  = Some [7].
Proof. vm_compute. reflexivity. Qed.

(** C4, at the failing input. Started afresh on the same machine and given
    the same program and the same (empty) input, the two programs walk into
    a newly allocated chunk and print different bytes: bfin the stale byte
    of its uncleared chunk, bfvm a zero. *)
Theorem bfin_bfvm_outputs_differ :
  printed (Bfin.execute 4096 stale 2046 (Some cross_and_print)
             (Bfin.init_bfin 4096 stale []))
  = Some [7] ∧
  printed (Bfvm.execute 4096 2046 (Some cross_and_print)
             (Bfvm.init 4096 []))
  = Some [0].
Proof. split; vm_compute; reflexivity. Qed.

(** Where the allocator clears the block and the chunk lengths agree, the
    two programs run the same loop. *)
Lemma bfin_bfvm_same_loop pagesize pagesize' fuel line w :
  Bfin.chunklen pagesize = Bfvm.chunklen pagesize' →
  Bfin.execute pagesize zeroed fuel line w
  = Bfvm.execute pagesize' fuel line w.
Proof. unfold Bfin.execute, Bfvm.execute. by intros ->. Qed.

(** C2, at the failing input. A lone ']' run on the zero cell of a fresh
    tape pops the empty jump stack: the assertion of pop_jump fails in
    bfin, bfvm dereferences NULL. No diagnostic is reported and the call
    does not return. *)
Theorem close_bracket_on_zero_cell_crashes fuel :
  Bfvm.execute 4096 (S fuel) (Some (prog "]")) (Bfvm.init 4096 [])
  = Some (Crashed (Bfvm.init 4096 [])) ∧
  Bfin.execute 4096 zeroed (S fuel) (Some (prog "]"))
    (Bfin.init_bfin 4096 zeroed [])
  = Some (Crashed (Bfin.init_bfin 4096 zeroed [])).
Proof.
  split.
  - apply (close_bracket_zero_unmatched _ _ _ _ O _ O); [done|done| |lia].
    vm_compute. reflexivity.
  - apply (close_bracket_zero_unmatched _ _ _ _ O _ O); [done|done| |lia].
    vm_compute. reflexivity.
Qed.

(** * Instances *)

Lemma plus_minus_wraps_witness :
  let w := Bfvm.init 4096 [] in
  (∃ w', execute (Bfvm.chunklen 4096) zeroed 4 (Some (prog "--+")) w
         = Some (Returned w') ∧
         cell w' = Some 255 ∧ w' = poke 255 w) ∧
  (0 = 255 → increment w = Some (poke 0 w)) ∧
  (0 = 0 → decrement w = Some (poke 255 w)).
Proof.
  intros w.
  apply (plus_minus_wraps (Bfvm.chunklen 4096) zeroed (prog "--+") w 0 4).
  - cbv [prog list_ascii_of_string].
    repeat (apply Forall_cons; split; [(by left) || (by right)|]).
    by apply Forall_nil.
  - apply bfvm_init_wf. lia.
  - vm_compute. reflexivity.
  - lia.
  - simpl. lia.
Defined.

Lemma moves_round_trip_witness :
  let line := repeat "<"%char 2100 ++ repeat ">"%char 2200
              ++ repeat "<"%char 100 in
  let w := Bfvm.init 4096 [] in
  shift line = 0 ∧
  ∃ w'', execute (Bfvm.chunklen 4096) zeroed 4401 (Some line) (poke 42 w)
         = Some (Returned w'') ∧
         page w'' = page w ∧ data w'' = data w ∧ cell w'' = Some 42.
Proof.
  intros line w.
  assert (shift line = 0) as Hs by (vm_compute; reflexivity).
  split; [exact Hs|].
  destruct (moves_round_trip (Bfvm.chunklen 4096) zeroed line w 4401)
    as (w' & _ & _ & _ & _ & Hb).
  - repeat (apply Forall_app; split); apply Forall_repeat_char;
      [by right|by left|by right].
  - apply bfvm_init_wf. lia.
  - vm_compute. lia.
  - destruct (Hb 42) as (w'' & E & _ & Hret).
    exists w''. split; [exact E|]. exact (Hret Hs).
Defined.

Lemma cursor_offset_invariant_witness :
  wf (Bfvm.chunklen 4096) (Bfvm.init 4096 []) ∧
  ∀ i, ∃ w', effect (Bfvm.chunklen 4096) zeroed i (Bfvm.init 4096 [])
             = Some w' ∧
             0 <= data w' < Bfvm.chunklen 4096 ∧
             wf (Bfvm.chunklen 4096) w'.
Proof.
  assert (wf (Bfvm.chunklen 4096) (Bfvm.init 4096 [])) as Hw
    by (apply bfvm_init_wf; lia).
  split; [exact Hw|].
  apply (cursor_offset_invariant (Bfvm.chunklen 4096) zeroed
           (Bfvm.init 4096 []) Hw).
Defined.

Lemma match_right_first_close_witness :
  let line := prog "[a[b]c]d]" in
  match_right line 0 = Some 6%nat ∧
  (0 < 6 < terminator line 0)%nat ∧ closes_at line 0 6 ∧
  ∀ i, (0 < i < 6)%nat → ¬ closes_at line 0 i.
Proof.
  intros line. split; [reflexivity|].
  apply (match_right_first_close line 0).
  - reflexivity.
  - vm_compute. discriminate.
Defined.

Lemma open_bracket_without_match_witness :
  let line := prog "+[+" in
  let w0 := Bfvm.init 4096 [] in
  turns (Bfvm.chunklen 4096) zeroed 2 line w0 0%nat []
  = Next (poke 1 w0) 2%nat [].
Proof.
  intros line w0.
  apply (open_bracket_without_match (Bfvm.chunklen 4096) zeroed line w0
           1 (poke 1 w0) 1 [] 1).
  - vm_compute. reflexivity.
  - reflexivity.
  - vm_compute. reflexivity.
  - lia.
Defined.

Lemma clear_loop_terminates_witness :
  let w := poke 3 (Bfvm.init 4096 []) in
  ∃ w', execute (Bfvm.chunklen 4096) zeroed 8 (Some (prog "[-]")) w
        = Some (Returned w') ∧
        cell w' = Some 0 ∧ w' = poke 0 w ∧
        (3 = 0 → w' = w ∧
                 visited (Bfvm.chunklen 4096) zeroed 8 (prog "[-]") w
                   0%nat [] = [0%nat]).
Proof.
  intros w.
  apply (clear_loop_terminates (Bfvm.chunklen 4096) zeroed w 3 8).
  - apply poke_wf, bfvm_init_wf. lia.
  - vm_compute. reflexivity.
  - lia.
  - simpl. lia.
Defined.

(** C1, as stated, fails. In the program +[+ the '[' is reached on a cell
    holding 1 and has no matching ']'. The call reports nothing: it runs the
    '+' after the bracket and returns normally with the cell at 2. *)
Lemma open_bracket_nonzero_not_reported :
  let line := prog "+[+" in
  let w0 := Bfvm.init 4096 [] in
  turns (Bfvm.chunklen 4096) zeroed 1 line w0 0%nat []
  = Next (poke 1 w0) 1%nat [] ∧
  char_at line 1 = "["%char ∧ cell (poke 1 w0) = Some 1 ∧
  match_right line 1 = None ∧
  Bfvm.execute 4096 4 (Some line) w0 = Some (Returned (poke 2 w0)) ∧
  ∀ fuel e w', Bfvm.execute 4096 fuel (Some line) w0 ≠ Some (Reported e w').
Proof.
  intros line w0.
  assert (Bfvm.execute 4096 4 (Some line) w0 = Some (Returned (poke 2 w0)))
    as Hrun by (vm_compute; reflexivity).
  split; [vm_compute; reflexivity|]. split; [reflexivity|].
  split; [vm_compute; reflexivity|]. split; [reflexivity|].
  split; [exact Hrun|].
  intros fuel e w' Hrep.
  destruct (le_lt_dec 4 fuel) as [Hge|Hlt].
  - unfold Bfvm.execute, execute in *.
    rewrite (run_mono _ _ _ _ _ _ _ _ _ Hrun Hge) in Hrep. discriminate.
  - destruct fuel as [|[|[|[|k]]]]; [..|lia];
      vm_compute in Hrep; discriminate.
Qed.

(** ** Instances of the properties of every run *)

Lemma ip_stays_in_string_witness :
  let line := prog "+[-]" in
  (2 ≤ strlen line)%nat ∧ stack_ok line 2 [1%nat].
Proof.
  intros line.
  apply (ip_stays_in_string (Bfvm.chunklen 4096) zeroed 2 line
           (Bfvm.init 4096 []) (poke 1 (Bfvm.init 4096 []))).
  vm_compute. reflexivity.
Defined.

Lemma jump_stack_is_loop_chain_witness :
  let line := prog "+[[-]]" in
  (∀ l, l ∈ [2%nat; 1%nat] ↔ encloses line l 3) ∧
  stack_ok line 3 [2%nat; 1%nat] ∧
  chain (outside line) line 3 [2%nat; 1%nat] ∧
  ∀ l s, [2%nat; 1%nat] = l :: s → char_at line 3 = "]"%char →
         match_right line l = Some 3%nat.
Proof.
  intros line.
  apply (jump_stack_is_loop_chain (Bfvm.chunklen 4096) zeroed 3 line
           (Bfvm.init 4096 []) (poke 1 (Bfvm.init 4096 []))).
  - vm_compute. discriminate.
  - vm_compute. reflexivity.
Defined.

Lemma well_bracketed_never_fails_witness :
  let w := Bfvm.init 4096 [] in
  ∃ w', Returned (poke 0 (poke 1 (poke 2 w))) = Returned w' ∧
        wf (Bfvm.chunklen 4096) w'.
Proof.
  intros w.
  apply (well_bracketed_never_fails (Bfvm.chunklen 4096) zeroed 12
           (prog "++[-]") w).
  - vm_compute. discriminate.
  - apply nested_ok_well_bracketed. reflexivity.
  - apply bfvm_init_wf. lia.
  - vm_compute. reflexivity.
Defined.

Lemma streams_only_advance_witness :
  let w := Bfvm.init 4096 [7; 8] in
  let o := Returned (putchar 7 (poke 7 (getchar w).2)) in
  stdout w `prefix_of` stdout (outcome_world o) ∧
  stdin (outcome_world o) `suffix_of` stdin w.
Proof.
  intros w o.
  apply (streams_only_advance (Bfvm.chunklen 4096) zeroed 4 (prog ",.") w o).
  vm_compute. reflexivity.
Defined.

Lemma heap_only_grows_witness :
  let w := Bfvm.init 16 [] in
  let line := repeat ">"%char 4 in
  ∃ o, execute (Bfvm.chunklen 16) zeroed 8 (Some line) w = Some o ∧
       extends (heap w) (heap (outcome_world o)) ∧
       (length (heap w) ≤ length (heap (outcome_world o)))%nat ∧
       length (heap w) = 1%nat ∧ length (heap (outcome_world o)) = 2%nat.
Proof.
  intros w line.
  destruct (execute (Bfvm.chunklen 16) zeroed 8 (Some line) w) as [o|] eqn:E;
    [|vm_compute in E; discriminate].
  exists o. split; [reflexivity|].
  destruct (heap_only_grows (Bfvm.chunklen 16) zeroed 8 line w o E)
    as [Hext Hlen].
  split; [exact Hext|]. split; [exact Hlen|].
  vm_compute in E. injection E as <-. split; reflexivity.
Defined.

Lemma reads_take_input_in_order_witness :
  let w := Bfvm.init 4096 [104; 105] in
  ∃ w', execute (Bfvm.chunklen 4096) zeroed 8
          (Some (repeat ","%char 3)) w = Some (Returned w') ∧
        cell w' = Some (byte_wrap (nth 2 (stdin w) EOF)) ∧
        stdin w' = drop 3 (stdin w) ∧ stdout w' = stdout w ∧
        ((length (stdin w) ≤ 2)%nat → cell w' = Some 255 ∧ stdin w' = []).
Proof.
  intros w.
  apply (reads_take_input_in_order (Bfvm.chunklen 4096) zeroed 2 w 8).
  - apply bfvm_init_wf. lia.
  - lia.
Defined.

Lemma execute_is_structured_witness :
  let p := AOp "+" (ALoop (AOp "-" AEnd) (AOp "." AEnd)) in
  let w := Bfvm.init 4096 [] in
  let o := Returned (putchar 0 (poke 0 (poke 1 w))) in
  ends (Bfvm.chunklen 4096) zeroed (unparse p) w o ↔
  ∃ n w', sem (Bfvm.chunklen 4096) zeroed n p w = Some w' ∧ o = Returned w'.
Proof.
  intros p w o.
  apply (execute_is_structured (Bfvm.chunklen 4096) zeroed p w o).
  - repeat split; discriminate.
  - apply bfvm_init_wf. lia.
  - vm_compute. discriminate.
Defined.

Lemma concatenation_is_sequence_witness :
  let p := AOp "+" (AOp "+" AEnd) in
  let q := ALoop (AOp "-" AEnd) AEnd in
  let w := Bfvm.init 4096 [] in
  ends (Bfvm.chunklen 4096) zeroed (unparse p ++ unparse q) w
    (Returned (poke 0 (poke 1 (poke 2 w)))) ↔
  ∃ w1, ends (Bfvm.chunklen 4096) zeroed (unparse p) w (Returned w1) ∧
        ends (Bfvm.chunklen 4096) zeroed (unparse q) w1
          (Returned (poke 0 (poke 1 (poke 2 w)))).
Proof.
  intros p q w.
  apply (concatenation_is_sequence (Bfvm.chunklen 4096) zeroed p q w).
  - repeat split; discriminate.
  - repeat split; discriminate.
  - apply bfvm_init_wf. lia.
  - vm_compute. discriminate.
Defined.

Lemma chunks_hold_unbounded_tape_witness :
  let w := Bfvm.init 4096 [5] in
  represents (Bfvm.chunklen 4096) w (Ideal.init [5]) ∧
  agree (Bfvm.chunklen 4096)
    (Bfvm.execute 4096 8 (Some (prog ",<+.")) w)
    (Ideal.execute 8 (prog ",<+.") (Ideal.init [5])) ∧
  Ideal.execute 8 (prog ",<+.") (Ideal.init [5])
  = Some (Normal, Ideal.Tape [] 1 [5] [] [1]).
Proof.
  intros w.
  destruct (chunks_hold_unbounded_tape (Bfvm.chunklen 4096))
    as (Hinit & Hrun & _); [reflexivity|].
  split; [apply Hinit|]. split; [apply Hrun, Hinit|reflexivity].
Defined.


(** ** Instances of the reading functions *)

Lemma get_prog_reads_whole_file_witness :
  let file := File (prog "++[->+<]>.") false false false in
  let start := repeat "x"%char 5 in
  ∃ buf file',
    get_prog 4 (λ _, "?"%char) (λ _, false) 11 file start
    = Some (Got (Some buf) file') ∧
    (unread file ++ [NUL]) `prefix_of` buf ∧
    unread file' = [] ∧ feof file' = true ∧
    ∀ cl fill n w,
      execute cl fill n (Some buf) w
      = execute cl fill n (Some (unread file)) w.
Proof.
  intros file start.
  apply (get_prog_reads_whole_file 4 (λ _, "?"%char) (λ _, false)).
  - lia.
  - reflexivity.
  - reflexivity.
  - reflexivity.
  - reflexivity.
  - reflexivity.
  - simpl. lia.
Defined.

Lemma get_prog_failed_realloc_witness :
  get_prog 4 (λ _, "?"%char) (λ _, true) 2
    (File (prog "++[->+<]>.") false false false) (repeat "x"%char 5)
  = Some Fault.
Proof.
  apply (get_prog_failed_realloc 4 (λ _, "?"%char) (λ _, true)).
  - lia.
  - reflexivity.
  - reflexivity.
  - reflexivity.
  - simpl. lia.
  - reflexivity.
  - lia.
Defined.

Lemma get_line_reads_line_witness :
  let l := [43; 43; 91; 45; 93] in
  let start := repeat "x"%char 5 in
  ∃ buf,
    get_line 4 (λ _, "?"%char) false 2 (l ++ 10 :: [65; 10]) start
    = Some (Got (Some buf) [65; 10]) ∧
    (map char_of l ++ [NUL]) `prefix_of` buf ∧
    ∀ cl fill k w,
      execute cl fill k (Some buf) w
      = execute cl fill k (Some (map char_of l)) w.
Proof.
  intros l start.
  apply (get_line_reads_line 4 (λ _, "?"%char)).
  - lia.
  - apply line_bytes_check. reflexivity.
  - simpl. lia.
  - simpl. lia.
  - lia.
Defined.

Lemma get_line_cuts_long_line_witness :
  let l := [43; 43; 43; 43; 43; 43; 46; 46] in
  let start := repeat "x"%char 4 in
  ∃ buf,
    get_line 4 (λ _, "?"%char) false 9 (l ++ 10 :: []) start
    = Some (Got (Some buf) []) ∧
    (map char_of (take (2 * (Z.to_nat 4 - 1)) l) ++ [NUL]) `prefix_of` buf ∧
    ∀ cl fill k w,
      execute cl fill k (Some buf) w
      = execute cl fill k
          (Some (map char_of (take (2 * (Z.to_nat 4 - 1)) l))) w.
Proof.
  intros l start.
  apply (get_line_cuts_long_line 4 (λ _, "?"%char)).
  - lia.
  - apply line_bytes_check. reflexivity.
  - simpl. lia.
  - simpl. lia.
  - simpl. lia.
Defined.

Lemma bfvm_getline_reads_line_witness :
  let l := [43; 46] in
  let start := repeat "x"%char 5 in
  ∃ buf,
    getline 4 (λ _, "?"%char) (λ _, true) 1 (l ++ 10 :: [65; 10]) start
    = Some (Got (Some buf) [65; 10]) ∧
    (map char_of l ++ [newline; NUL]) `prefix_of` buf ∧
    ∀ cl fill k w,
      execute cl fill k (Some buf) w
      = execute cl fill k (Some (map char_of l ++ [newline])) w.
Proof.
  intros l start.
  apply (bfvm_getline_reads_line 4 (λ _, "?"%char) (λ _, true)).
  - lia.
  - apply line_bytes_check. reflexivity.
  - simpl. lia.
  - simpl. lia.
  - lia.
Defined.

Lemma bfvm_getline_cuts_line_witness :
  let l := [43; 43; 43; 46; 46] in
  let start := repeat "x"%char 5 in
  ∃ buf,
    getline 4 (λ _, "?"%char) (λ _, false) 6 (l ++ 10 :: []) start
    = Some (Got (Some buf) []) ∧
    (map char_of (take (Z.to_nat 4 - 1) l) ++ [NUL]) `prefix_of` buf ∧
    ∀ cl fill k w,
      execute cl fill k (Some buf) w
      = execute cl fill k (Some (map char_of (take (Z.to_nat 4 - 1) l))) w.
Proof.
  intros l start.
  apply (bfvm_getline_cuts_line 4 (λ _, "?"%char) (λ _, false)).
  - lia.
  - reflexivity.
  - apply line_bytes_check. reflexivity.
  - simpl. lia.
  - simpl. lia.
  - simpl. lia.
Defined.

Lemma bfvm_getline_stale_pointer_witness :
  getline 4 (λ _, "?"%char) (λ _, true) 2
    ([43; 43; 43; 46; 46] ++ [10]) (repeat "x"%char 5)
  = Some Fault.
Proof.
  apply (bfvm_getline_stale_pointer 4 (λ _, "?"%char) (λ _, true)).
  - lia.
  - reflexivity.
  - apply line_bytes_check. reflexivity.
  - simpl. lia.
  - simpl. lia.
  - lia.
Defined.

Lemma bfvm_getprog_reads_whole_file_witness :
  let file := File (prog "++[->+<]>.") false false false in
  let start := repeat "x"%char 5 in
  ∃ buf file',
    getprog 4 (λ _, "?"%char) (λ _, false) 11 file start
    = Some (Got (Some buf) file') ∧
    (unread file ++ [NUL]) `prefix_of` buf ∧
    unread file' = [] ∧ feof file' = true ∧
    ∀ cl fill j w,
      execute cl fill j (Some buf) w
      = execute cl fill j (Some (unread file)) w.
Proof.
  intros file start.
  apply (bfvm_getprog_reads_whole_file 4 (λ _, "?"%char) (λ _, false)).
  - lia.
  - reflexivity.
  - reflexivity.
  - reflexivity.
  - reflexivity.
  - simpl. lia.
Defined.

Lemma bfvm_getprog_stale_pointer_witness :
  getprog 4 (λ _, "?"%char) (λ _, true) 2
    (File (prog "++[->+<]>.") false false false) (repeat "x"%char 5)
  = Some Fault.
Proof.
  apply (bfvm_getprog_stale_pointer 4 (λ _, "?"%char) (λ _, true)).
  - lia.
  - reflexivity.
  - reflexivity.
  - simpl. lia.
  - simpl. lia.
  - lia.
Defined.

Lemma bracket_errors_are_sound_witness :
  let line := prog "[+]+]" in
  let w := Bfvm.init 4096 [] in
  let o := Reported NoMatchingLeft (poke 1 w) in
  ∃ n c stack,
    turns (Bfvm.chunklen 4096) zeroed n line w 0%nat []
    = Next (outcome_world o) c stack ∧
    step (Bfvm.chunklen 4096) zeroed line (outcome_world o) c stack
    = Stop o ∧
    (c ≤ strlen line)%nat ∧ justified line c o.
Proof.
  intros line w o.
  apply (bracket_errors_are_sound (Bfvm.chunklen 4096) zeroed 4 line w o).
  - vm_compute. discriminate.
  - apply bfvm_init_wf. lia.
  - vm_compute. reflexivity.
Defined.

Lemma written_byte_survives_walk_witness :
  let w := Bfin.init_bfin 4096 stale [] in
  ∃ w', execute (Bfin.chunklen 4096) stale 4201
          (Some (repeat "<"%char 2100 ++ repeat ">"%char 2100)) (poke 42 w)
        = Some (Returned w') ∧
        page w' = page w ∧ data w' = data w ∧ cell w' = Some 42.
Proof.
  intros w.
  apply (written_byte_survives_walk (Bfin.chunklen 4096) stale
           "<"%char ">"%char 2100 w 42 4201).
  - right. split; reflexivity.
  - apply bfin_init_wf. lia.
  - lia.
Defined.

Lemma bfvm_getprog_read_error_witness :
  getprog 4 (λ _, "?"%char) (λ _, false) 50
    (File (prog "++[->+<]>.") false false true) (repeat "x"%char 5)
  = None.
Proof.
  apply (bfvm_getprog_read_error 4 (λ _, "?"%char) (λ _, false)).
  - lia.
  - reflexivity.
  - reflexivity.
  - reflexivity.
  - reflexivity.
Defined.
